(** * MyBatis mapper XML parser: shallow embedding and verification

    Source: [backend/plugin/parser/mybatis/parser.go], functions [Parse] and
    [newNodeByStartElement].

    The Go code keeps its nodes behind pointers: the node stack holds
    pointers, [AddChild] mutates the node a pointer designates, and the
    returned [root] is the pointer stored at index 0 of the node stack.  The
    embedding therefore has an explicit heap of nodes ([list ast.Node],
    an address is an index, allocation appends) and the two stacks are Go
    slices: index 0 is the bottom, [append] adds at the end.

    A Go run-time panic (an index out of range) is an outcome of its own,
    so that "the code never indexes out of range" is a theorem and not an
    assumption of the model.

    The loop is verified on any sequence of tokens.  The decoder
    [NewParser] makes is strict: it checks the nesting of the elements
    itself, and [Parse] is handed the sequences that pass its check
    ([Module strict]). *)

From Stdlib Require Import ZArith String Ascii Lia DecimalString.
From Stdlib.Strings Require Import Byte.
From stdpp Require Import base tactics option list.

Local Open Scope Z_scope.

(** ** Go slices *)

(** [len(s)] as a Go [int]. *)
Definition len {A} (s : list A) : Z := Z.of_nat (length s).

(** [s[i]]: [None] stands for the run-time panic "index out of range". *)
Definition index {A} (s : list A) (i : Z) : option A :=
  if (i <? 0) then None else s !! Z.to_nat i.

(** [s[:n]]: [None] stands for the panic "slice bounds out of range". *)
Definition slice_to {A} (s : list A) (n : Z) : option (list A) :=
  if (n <? 0) || (len s <? n) then None else Some (take (Z.to_nat n) s).

(** [uint] arithmetic of a 64-bit platform: [x++] wraps around. *)
Definition uint_modulus : Z := 2 ^ 64.
Definition uint_incr (x : Z) : Z := (x + 1) mod uint_modulus.

(** ** The XML tokens of [encoding/xml] *)

Module xml.

Record Name := { Space : string; Local : string }.
Record Attr := { Attr_Name : Name; Attr_Value : string }.
Record StartElement :=
  { StartElement_Name : Name; StartElement_Attr : list Attr }.
Record EndElement := { EndElement_Name : Name }.

(** [xml.Token] is an interface holding one of these six types; [Parse]
    has a case for the first four and ignores the other two. *)
Inductive Token :=
| TStartElement (e : StartElement)
| TEndElement (e : EndElement)
| TCharData (ele : list byte)
| TComment (ele : list byte)
| TProcInst (target : string) (inst : list byte)
| TDirective (ele : list byte).

(** What [Decoder.Token] answers when it has no further token: [io.EOF],
    or another error, of which the message is kept. *)
Inductive error :=
| EOF
| Other (msg : string).

(** The decoder as [Parse] sees it: the tokens it still has to deliver,
    then the error it reports once they are exhausted.  Any tokens and
    any error make such a decoder, so that what is proved of all of them
    holds of those of the library; which of them the decoder of
    [xml.NewDecoder] gives, with its check of the nesting, is what
    [strict.delivers] says below. *)
Record Decoder := { pending : list Token; final : error }.

(** [d.Token()] on such a decoder: the next token, or the final error
    (again on every later call). *)
Definition Token_ (d : Decoder) : (Token + error) * Decoder :=
  match pending d with
  | tok :: rest => (inl tok, {| pending := rest; final := final d |})
  | [] => (inr (final d), d)
  end.

End xml.

(** ** The decoder of [encoding/xml] behind the tokens

    [NewParser] makes its decoder with [xml.NewDecoder], and such a decoder
    is strict: [Decoder.Token] keeps the stack of the elements that are
    open, and it answers a syntax error, instead of the token, for an end
    element that does not close the innermost of them, and instead of
    [io.EOF] at the end of the input while one of them is open.  So
    [Parse] does not see every sequence of tokens.  What [rawToken] reads
    from the bytes is taken as given here, item by item; the stack and the
    checks are those of the library. *)
Module strict.

(** [strconv.Itoa] *)
Definition Itoa (i : Z) : string := NilZero.string_of_int (Z.to_int i).

(** What [rawToken] reads for one token: the token as [Token] hands it
    over, the name spaces of its names translated; the name-space prefix
    the name of a start or end element is written with, by which, with
    the local name, [popElement] compares; and the newline bytes read for
    it, which [d.line] counts. *)
Record Item := { token : xml.Token; prefix : string; newlines : Z }.

(** [Decoder]: the items [rawToken] has still to read and the error it
    answers once they are read, [io.EOF] or a syntax error of its own;
    [d.stk], the names of the open elements as they are written, the
    innermost first; [d.err]; [d.line]. *)
Record Decoder := {
  input : list Item;
  atEnd : xml.error;
  stk : list xml.Name;
  err : option xml.error;
  line : Z
}.

(** [xml.NewDecoder]: no element open, no error, line 1. *)
Definition NewDecoder (input : list Item) (atEnd : xml.error) : Decoder :=
  {| input := input; atEnd := atEnd; stk := []; err := None; line := 1 |}.

(** [d.syntaxError(msg)], as [SyntaxError.Error] prints it. *)
Definition syntaxError (line : Z) (msg : string) : xml.error :=
  xml.Other ("XML syntax error on line " ++ Itoa line ++ ": " ++ msg).

(** The name of an element as it is written: the prefix for its name
    space. *)
Definition written (item : Item) (name : xml.Name) : xml.Name :=
  {| xml.Space := prefix item; xml.Local := xml.Local name |}.

(** The text of two double quotes, which stands for no name space. *)
Definition noSpace : string :=
  String "034"%char (String "034"%char EmptyString).

(** [popElement]: the stack without its top, which the end element
    closes; or what is wrong: no element is open, or the innermost has
    another local name, or another name space.  The theorems use the
    text of the first two messages only. *)
Definition popElement (stk : list xml.Name) (name : xml.Name)
  : string + list xml.Name :=
  match stk with
  | [] => inl ("unexpected end element </" ++ xml.Local name ++ ">")
  | s :: rest =>
      if negb (String.eqb (xml.Local s) (xml.Local name))
      then inl ("element <" ++ xml.Local s ++ "> closed by </"
                ++ xml.Local name ++ ">")
      else if negb (String.eqb (xml.Space s) (xml.Space name))
      then inl ("element <" ++ xml.Local s ++ "> in space " ++ xml.Space s
                ++ " closed by </" ++ xml.Local name ++ "> in space "
                ++ (if String.eqb (xml.Space name) EmptyString then noSpace
                    else xml.Space name))
      else inr rest
  end%string.

(** What [Token] does to the stack for an item: a start element is
    pushed, an end element pops, the other tokens leave it. *)
Definition check (item : Item) (stk : list xml.Name)
  : string + list xml.Name :=
  match token item with
  | xml.TStartElement e => inr (written item (xml.StartElement_Name e) :: stk)
  | xml.TEndElement e => popElement stk (written item (xml.EndElement_Name e))
  | _ => inr stk
  end.

(** The answer of [Token] for an error of [rawToken]: [io.EOF] while an
    element is open is the syntax error [unexpected EOF]. *)
Definition answer (stk : list xml.Name) (line : Z) (e : xml.error)
  : xml.error :=
  match e, stk with
  | xml.EOF, _ :: _ => syntaxError line "unexpected EOF"
  | _, _ => e
  end.

(** [d.Token()]: the error [d.err] once there is one; at the end of the
    input the error of [rawToken], which stays; else the next item, read,
    and handed over unless [popElement] refuses it, in which case the
    syntax error stays. *)
Definition Token (d : Decoder) : (xml.Token + xml.error) * Decoder :=
  match err d with
  | Some e => (inr (answer (stk d) (line d) e), d)
  | None =>
      match input d with
      | [] =>
          (inr (answer (stk d) (line d) (atEnd d)),
           {| input := []; atEnd := atEnd d; stk := stk d;
              err := Some (atEnd d); line := line d |})
      | item :: rest =>
          let line' := line d + newlines item in
          match check item (stk d) with
          | inr stk' =>
              (inl (token item),
               {| input := rest; atEnd := atEnd d; stk := stk';
                  err := None; line := line' |})
          | inl msg =>
              (inr (syntaxError line' msg),
               {| input := rest; atEnd := atEnd d; stk := tail (stk d);
                  err := Some (syntaxError line' msg); line := line' |})
          end
      end
  end.

(** The tokens [Token] hands over, call after call, from the items, the
    stack and the line given, and the error every later call answers. *)
Fixpoint stream (items : list Item) (atEnd : xml.error)
    (stk : list xml.Name) (line : Z) : list xml.Token * xml.error :=
  match items with
  | [] => ([], answer stk line atEnd)
  | item :: rest =>
      let line' := line + newlines item in
      match check item stk with
      | inr stk' =>
          let '(tokens, final) := stream rest atEnd stk' line' in
          (token item :: tokens, final)
      | inl msg => ([], syntaxError line' msg)
      end
  end.

(** The decoder as [Parse] sees it. *)
Definition delivers (d : Decoder) : xml.Decoder :=
  match err d with
  | Some e =>
      {| xml.pending := []; xml.final := answer (stk d) (line d) e |}
  | None =>
      let '(tokens, final) := stream (input d) (atEnd d) (stk d) (line d) in
      {| xml.pending := tokens; xml.final := final |}
  end.

(** The newline bytes read for a sequence of items. *)
Fixpoint lines (items : list Item) : Z :=
  match items with
  | [] => 0
  | item :: rest => newlines item + lines rest
  end.

(** An item written without prefix and on one line. *)
Definition item (token : xml.Token) : Item :=
  {| token := token; prefix := EmptyString; newlines := 0 |}.

End strict.

(** ** The [ast] package *)

Module ast.

(** A pointer to a node: its index in the heap of the nodes. *)
Abbreviation Addr := nat.

(** Modelled from the spec: the two styles of a placeholder, section 3:
    [#{...}] binds a parameter, [${...}] substitutes a string. *)
Inductive Style := Bind | Substitution.

(** Modelled from the spec: the segments of a [Data] node, section 3:
    [Literal(text)] or [Placeholder(rawExpression, style)]. *)
Inductive Segment :=
| Literal (text : list byte)
| Placeholder (rawExpression : list byte) (style : Style).

(** Modelled from the spec: the one failure of the tokenizer, section 7. *)
Inductive ScanError := UnterminatedPlaceholder.

(** Modelled from the spec: the nine variants of a node, section 3, under
    the names of the Go types; [parser.go] names [RootNode] and
    [EmptyNode] and the constructors of the others. *)
Inductive NodeKind :=
| RootNode | MapperNode | QueryNode | IfNode | ChooseNode | WhenNode
| OtherwiseNode | EmptyNode | DataNode.

(** The type switch on a node. *)
Definition NodeKind_eqb (a b : NodeKind) : bool :=
  match a, b with
  | RootNode, RootNode | MapperNode, MapperNode | QueryNode, QueryNode
  | IfNode, IfNode | ChooseNode, ChooseNode | WhenNode, WhenNode
  | OtherwiseNode, OtherwiseNode | EmptyNode, EmptyNode
  | DataNode, DataNode => true
  | _, _ => false
  end.

(** Modelled from the spec: the node types of the [ast] package, which
    [parser.go] imports and which is not part of the sources.  Section 3:
    a node is one of nine variants; every variant but [Data] owns an
    ordered sequence of child nodes; the variants built from an element
    carry that element's attributes (and, for [Query], the operation
    kind, which is the element's name); a [Data] node carries its trimmed
    bytes and, after tokenization, its segments.  Children are pointers,
    here addresses. *)
Record Node := {
  kind : NodeKind;
  element : option xml.StartElement;
  children : list Addr;
  data : list byte;
  segments : list Segment
}.

(** A node that has no child yet, of the given kind, built from the given
    element if from any. *)
Definition mkElementNode (k : NodeKind) (e : option xml.StartElement) : Node :=
  {| kind := k; element := e; children := []; data := []; segments := [] |}.

(** Modelled from the spec: the constructors of the [ast] package, which
    [Parse] and [newNodeByStartElement] call.  Section 3: a node is
    created without children; [Root] and [Empty] have no attributes; the
    others keep the element they are built from. *)
Definition NewRootNode : Node := mkElementNode RootNode None.

(** Modelled from the spec: [ast.NewMapperNode]. *)
Definition NewMapperNode (e : xml.StartElement) : Node :=
  mkElementNode MapperNode (Some e).

(** Modelled from the spec: [ast.NewQueryNode]. *)
Definition NewQueryNode (e : xml.StartElement) : Node :=
  mkElementNode QueryNode (Some e).

(** Modelled from the spec: [ast.NewIfNode]. *)
Definition NewIfNode (e : xml.StartElement) : Node :=
  mkElementNode IfNode (Some e).

(** Modelled from the spec: [ast.NewChooseNode]. *)
Definition NewChooseNode (e : xml.StartElement) : Node :=
  mkElementNode ChooseNode (Some e).

(** Modelled from the spec: [ast.NewWhenNode]. *)
Definition NewWhenNode (e : xml.StartElement) : Node :=
  mkElementNode WhenNode (Some e).

(** Modelled from the spec: [ast.NewOtherwiseNode]. *)
Definition NewOtherwiseNode (e : xml.StartElement) : Node :=
  mkElementNode OtherwiseNode (Some e).

(** Modelled from the spec: [ast.NewEmptyNode]. *)
Definition NewEmptyNode : Node := mkElementNode EmptyNode None.

(** Modelled from the spec: [ast.NewDataNode]: a leaf with the given
    bytes, not tokenized yet. *)
Definition NewDataNode (bytes : list byte) : Node :=
  {| kind := DataNode; element := None; children := [];
     data := bytes; segments := [] |}.

(** Modelled from the spec: [Node.AddChild], of the [ast] package.
    Section 3: children are kept in insertion order and never reordered
    or removed, so a child is added at the end; a [Data] node is a leaf
    and owns no children. *)
Definition AddChild (child : Addr) (n : Node) : Node :=
  match kind n with
  | DataNode => n
  | _ => {| kind := kind n; element := element n;
            children := children n ++ [child];
            data := data n; segments := segments n |}
  end.

(** *** The data-segment tokenizer *)

Definition hash : byte := x23.      (* '#' *)
Definition dollar : byte := x24.    (* '$' *)
Definition lbrace : byte := x7b.    (* '{' *)
Definition rbrace : byte := x7d.    (* '}' *)

(** The first byte of the two openers, with the style it announces. *)
Definition openerStyle (b : byte) : option Style :=
  if Byte.eqb b hash then Some Bind
  else if Byte.eqb b dollar then Some Substitution
  else None.

Definition openerByte (st : Style) : byte :=
  match st with Bind => hash | Substitution => dollar end.

(** Where the scanner is: accumulating a run of plain bytes, or inside a
    placeholder of the given style, accumulating its inner expression. *)
Inductive ScanMode :=
| Plain (run : list byte)
| InPlaceholder (style : Style) (inner : list byte).

(** The accumulated run of plain bytes, if any, as a [Literal]. *)
Definition emitLiteral (run : list byte) : list Segment :=
  match run with
  | [] => []
  | _ => [Literal run]
  end.

Definition emit (segs : list Segment) (r : ScanError + list Segment)
  : ScanError + list Segment :=
  match r with
  | inl e => inl e
  | inr rest => inr (segs ++ rest)
  end.

(** Modelled from the spec: the scanning loop of [DataNode.Scan], of the
    [ast] package.  Section 4.2: a single left-to-right scan; at each
    position the openers [#{] and [${] are detected; on detection the
    accumulated run of plain bytes (if any) is emitted as a [Literal],
    the scanner consumes up to the next [}] and emits a [Placeholder]
    with the raw inner text and the opener's style; the end of the input
    inside a placeholder is [UnterminatedPlaceholder]; a trailing run of
    plain bytes is emitted as a final [Literal]. *)
Fixpoint scanFrom (m : ScanMode) (input : list byte)
  : ScanError + list Segment :=
  match m, input with
  | Plain run, [] => inr (emitLiteral run)
  | Plain run, b :: rest =>
      match openerStyle b, rest with
      | Some st, c :: rest' =>
          if Byte.eqb c lbrace
          then emit (emitLiteral run) (scanFrom (InPlaceholder st []) rest')
          else scanFrom (Plain (run ++ [b])) rest
      | _, _ => scanFrom (Plain (run ++ [b])) rest
      end
  | InPlaceholder st inner, [] => inl UnterminatedPlaceholder
  | InPlaceholder st inner, b :: rest =>
      if Byte.eqb b rbrace
      then emit [Placeholder inner st] (scanFrom (Plain []) rest)
      else scanFrom (InPlaceholder st (inner ++ [b])) rest
  end.

(** Modelled from the spec: the contract of section 4.2,
    [scan(bytes) -> Result<sequence of Segment, ScanError>]. *)
Definition scan (bytes : list byte) : ScanError + list Segment :=
  scanFrom (Plain []) bytes.

(** Modelled from the spec: [DataNode.Scan], of the [ast] package: the
    tokenizer run on the node's bytes; on success the node owns the
    segments. *)
Definition Scan (n : Node) : ScanError + Node :=
  match scan (data n) with
  | inl e => inl e
  | inr segs =>
      inr {| kind := kind n; element := element n; children := children n;
             data := data n; segments := segs |}
  end.

End ast.

(** ** The parser *)

Import ast.

(** The nodes allocated so far; an address is an index. *)
Abbreviation Heap := (list Node).

(** The errors [Parse] returns, one constructor per [errors.Errorf] or
    [errors.Wrapf] of the source, in the order of section 7 of the
    specification and under its names; the last one, of line 88, has no
    name there. *)
Inductive ParseError :=
| MalformedXml (cause : xml.error)
| UnterminatedElement (open : string)
| UnexpectedEndElement (actual : string)
| TagMismatch (expected actual : string)
| DataScanError (cause : ScanError)
| NodeStackEmpty.

(** What [Parse] returns: [(root, nil)], [(nil, err)], or a run-time
    panic.  The heap is what [root] points into. *)
Inductive Result :=
| Ok (root : Addr) (h : Heap)
| Error (e : ParseError)
| Panicked.

(** [Parser]: the decoder and the three other fields of the struct. *)
Record Parser := {
  d : xml.Decoder;
  buf : list Z;
  cursor : Z;
  currentLine : Z
}.

(** [NewParser]: the decoder over the statement, here the tokens it will
    deliver; [currentLine] is left at its zero value. *)
Definition NewParser (d : xml.Decoder) : Parser :=
  {| d := d; buf := []; cursor := 0; currentLine := 0 |}.

(** The variables of the loop of [Parse]: the counter [p.currentLine], the
    nodes allocated so far, and the two stacks. *)
Record State := {
  line : Z;
  heap : Heap;
  startElementStack : list xml.StartElement;
  nodeStack : list Addr
}.

(** One iteration of the loop either goes on to the next token, or returns
    an error, or panics; [p.currentLine] keeps its value in each case. *)
Inductive Outcome :=
| Continue (s : State)
| Fail (line : Z) (e : ParseError)
| Panic (line : Z).

Definition orPanic {A} (l : Z) (o : option A) (k : A -> Outcome) : Outcome :=
  match o with
  | Some a => k a
  | None => Panic l
  end.

Notation "'let!' x ':=' o 'orPanicAt' l 'in' k" :=
  (orPanic l o (fun x => k))
  (at level 10, x name, o at level 100, l at level 9, k at level 200).

(** [root := &ast.RootNode{}]: the first node [Parse] allocates. *)
Definition root : Addr := 0%nat.

(** The byte ['\n']. *)
Definition newline : byte := x0a.

(** [for _, b := range ele { if b == '\n' { p.currentLine++ } }] *)
Definition countLines (ele : list byte) (l : Z) : Z :=
  fold_left (fun l b => if Byte.eqb b newline then uint_incr l else l) ele l.

(** [newNodeByStartElement] *)
Definition newNodeByStartElement (startElement : xml.StartElement) : Node :=
  let name := xml.Local (xml.StartElement_Name startElement) in
  if String.eqb name "mapper" then NewMapperNode startElement
  else if String.eqb name "select" || String.eqb name "update"
          || String.eqb name "insert" || String.eqb name "delete"
       then NewQueryNode startElement
  else if String.eqb name "if" then NewIfNode startElement
  else if String.eqb name "choose" then NewChooseNode startElement
  else if String.eqb name "when" then NewWhenNode startElement
  else if String.eqb name "otherwise" then NewOtherwiseNode startElement
  else NewEmptyNode.

(** [n.AddChild(child)] through the pointer [n]: the node at that address
    is updated in place. *)
Definition addChildAt (h : Heap) (n child : Addr) : option Heap :=
  match h !! n with
  | Some _ => Some (alter (AddChild child) n h)
  | None => None
  end.

(** The type assertion of [popNode] to a pointer to [ast.EmptyNode]: whether
    the node at that address is an [EmptyNode]. *)
Definition isEmptyNode (h : Heap) (a : Addr) : option bool :=
  match h !! a with
  | Some n => Some (NodeKind_eqb (kind n) EmptyNode)
  | None => None
  end.

(** ** Properties of states *)

(** The balance invariant, as the comment at the head of [Parse] has it,
    and the root node at index 0 of the node stack. *)
Definition Balanced (s : State) : Prop :=
  len (nodeStack s) = len (startElementStack s) + 1
  /\ index (nodeStack s) 0 = Some root
  /\ exists n, heap s !! root = Some n /\ kind n = RootNode.

(** [y] has [c] among its children in [h]. *)
Definition childOf (h : Heap) (y c : Addr) : Prop :=
  exists n, h !! y = Some n /\ c ∈ children n.

(** The nodes of the tree under [x]: [x] and whatever a chain of child
    pointers leads to. *)
Inductive reachable (h : Heap) (x : Addr) : Addr -> Prop :=
| reachable_here : reachable h x x
| reachable_child y c : reachable h x y -> childOf h y c -> reachable h x c.

(** No node outside the addresses from [a] to [b - 1] has a child among
    them. *)
Definition Hidden (h : Heap) (a b : Addr) : Prop :=
  forall y c, childOf h y c -> (a <= c < b)%nat -> (a <= y < b)%nat.

(** The addresses from [a] to [b - 1] are out of reach for good: they are
    hidden, all allocated, and none of them is on the node stack. *)
Definition Sealed (h : Heap) (ns : list Addr) (a b : Addr) : Prop :=
  Hidden h a b
  /\ (forall z, z ∈ ns -> ~ (a <= z < b)%nat)
  /\ (b <= length h)%nat.

(** What the loop maintains in the heap: the addresses on the node stack
    are allocated, in increasing order, and are not [Data] nodes; child
    pointers are allocated and never designate an [Empty] node; and a node
    older than a node on the stack has only children older than it. *)
Record WellFormed (h : Heap) (ns : list Addr) : Prop := {
  wf_stack_nodes : forall a, a ∈ ns ->
      exists n, h !! a = Some n /\ kind n <> DataNode;
  wf_stack_sorted : forall i j a b,
      ns !! i = Some a -> ns !! j = Some b -> (i < j)%nat -> (a < b)%nat;
  wf_children : forall y c, childOf h y c ->
      exists m, h !! c = Some m /\ kind m <> EmptyNode;
  wf_older : forall a y c, a ∈ ns -> (y < a)%nat -> childOf h y c -> (c < a)%nat
}.

(** What one iteration of the loop can do to the heap and the node stack:
    push a freshly allocated node; pop an [Empty] node and drop it; pop
    another node and add it to the children of the node below it; allocate
    a [Data] node and add it to the children of the node on top; or
    nothing. *)
Inductive HeapStep : Heap -> list Addr -> Heap -> list Addr -> Prop :=
| hs_push h ns n :
    children n = [] -> kind n <> DataNode ->
    HeapStep h ns (h ++ [n]) (ns ++ [length h])
| hs_discard h ns parent popNode c :
    h !! popNode = Some c -> kind c = EmptyNode ->
    HeapStep h (ns ++ [parent; popNode]) h (ns ++ [parent])
| hs_attach h ns parent popNode c :
    h !! popNode = Some c -> kind c <> EmptyNode ->
    HeapStep h (ns ++ [parent; popNode])
             (alter (AddChild popNode) parent h) (ns ++ [parent])
| hs_data h ns parent n :
    children n = [] -> kind n = DataNode ->
    HeapStep h (ns ++ [parent])
             (alter (AddChild (length h)) parent (h ++ [n])) (ns ++ [parent])
| hs_skip h ns : HeapStep h ns h ns.

(** The invariant of the loop of [Parse]. *)
Definition Inv (s : State) : Prop :=
  Balanced s /\ WellFormed (heap s) (nodeStack s).

(** The number of newline bytes of a chunk. *)
Fixpoint newlines (ele : list byte) : Z :=
  match ele with
  | [] => 0
  | b :: rest => (if Byte.eqb b newline then 1 else 0) + newlines rest
  end.

(** The newline bytes a token shows to the line counter. *)
Definition newlinesOf (token : xml.Token) : Z :=
  match token with
  | xml.TCharData ele | xml.TComment ele => newlines ele
  | _ => 0
  end.

(** The newline bytes of a sequence of tokens. *)
Fixpoint totalNewlines (tokens : list xml.Token) : Z :=
  match tokens with
  | [] => 0
  | token :: rest => newlinesOf token + totalNewlines rest
  end.

(** The bytes of the chunk of a token, for the tokens that have a chunk the
    line counter looks at. *)
Definition chunkBytes (token : xml.Token) : Z :=
  match token with
  | xml.TCharData ele | xml.TComment ele => len ele
  | _ => 0
  end.

Fixpoint totalBytes (tokens : list xml.Token) : Z :=
  match tokens with
  | [] => 0
  | token :: rest => chunkBytes token + totalBytes rest
  end.

(** The largest length a Go string or slice can have: the largest [int]. *)
Definition maxInt : Z := 2 ^ 63 - 1.

(** A space, a tab or a newline. *)
Definition blank (b : byte) : bool :=
  match b with
  | x20 | x09 | x0a => true
  | _ => false
  end.

(** The [Data] node of a chunk: its trimmed bytes and their segments. *)
Definition dataNodeOf (trimmed : list byte) (segs : list Segment) : Node :=
  {| kind := DataNode; element := None; children := [];
     data := trimmed; segments := segs |}.

(** The two bytes of an opener: [#{] or [${]. *)
Definition opener (st : Style) : list byte := [openerByte st; lbrace].

(** Some position of the bytes has an opener. *)
Fixpoint hasOpener (input : list byte) : bool :=
  match input with
  | [] => false
  | b :: rest =>
      match openerStyle b, rest with
      | Some _, c :: _ => Byte.eqb c lbrace || hasOpener rest
      | _, _ => hasOpener rest
      end
  end.

(** One of the bytes is [}]. *)
Definition hasClose (input : list byte) : bool :=
  existsb (fun b => Byte.eqb b rbrace) input.

(** The bytes a segment was read from: the text of a [Literal]; the
    opener, the inner text and the [}] of a [Placeholder]. *)
Definition render (seg : Segment) : list byte :=
  match seg with
  | Literal t => t
  | Placeholder e st => opener st ++ e ++ [rbrace]
  end.

Definition renderAll (segs : list Segment) : list byte :=
  concat (map render segs).

(** The bytes the scanner has read in a mode, and not emitted yet. *)
Definition consumed (m : ScanMode) : list byte :=
  match m with
  | Plain run => run
  | InPlaceholder st acc => opener st ++ acc
  end.

(** The shape of what the tokenizer emits: a [Literal] is not empty, has
    no opener and no [Literal] follows it; the inner text of a
    [Placeholder] has no [}]. *)
Fixpoint shaped (segs : list Segment) : bool :=
  match segs with
  | [] => true
  | Literal t :: rest =>
      negb (len t =? 0) && negb (hasOpener t)
      && match rest with Literal _ :: _ => false | _ => true end
      && shaped rest
  | Placeholder e _ :: rest => negb (hasClose e) && shaped rest
  end.

(** What the scanner has read in a mode is fit for the segment it will
    be part of: a run of plain bytes has no opener, not even with the next
    byte of the input; the inner text read so far has no [}]. *)
Definition modeOk (m : ScanMode) (input : list byte) : Prop :=
  match m with
  | Plain run => hasOpener (run ++ take 1 input) = false
  | InPlaceholder _ acc => hasClose acc = false
  end.

(** What the scanner emits from a mode on: shaped segments, the first of
    which, inside a placeholder, is that placeholder. *)
Definition emitsFrom (m : ScanMode) (segs : list Segment) : Prop :=
  match m with
  | Plain _ => shaped segs = true
  | InPlaceholder st _ =>
      shaped segs = true /\ exists e rest, segs = Placeholder e st :: rest
  end.

(** The name of an element has an entry in the dispatch table. *)
Definition known (name : string) : bool :=
  existsb (String.eqb name)
    ["mapper"; "select"; "update"; "insert"; "delete"; "if"; "choose";
     "when"; "otherwise"]%string.

(** [p.currentLine] once an iteration is over, however it ends. *)
Definition lineOf (o : Outcome) : Z :=
  match o with
  | Continue s => line s
  | Fail l _ | Panic l => l
  end.

(** The table [asciiSpace]: tab, newline, vertical tab, form feed,
    carriage return and space. *)
Definition asciiSpace (c : byte) : bool :=
  match c with
  | x09 | x0a | x0b | x0c | x0d | x20 => true
  | _ => false
  end.

(** [c >= utf8.RuneSelf] *)
Definition notASCII (c : byte) : bool := (128 <=? Z.of_N (Byte.to_N c)).

(** White space trimmed with the ASCII table alone, at the end and on both
    sides: what the two Unicode-aware library functions do on a string
    that has no white space outside ASCII.  They instantiate the two
    parameters of [TrimSpace] where a concrete run is evaluated. *)
Fixpoint dropSpaces (s : list byte) : list byte :=
  match s with
  | [] => []
  | c :: rest => if asciiSpace c then dropSpaces rest else s
  end.

Definition TrimRightASCII (s : list byte) : list byte :=
  rev (dropSpaces (rev s)).

Definition TrimASCII (s : list byte) : list byte :=
  TrimRightASCII (dropSpaces s).

(** The tree under an address of the heap, read off by following the child
    pointers, with the kind of each node; [fuel] bounds the depth. *)
#[warnings="-register-all"]
Inductive Tree := T (k : NodeKind) (subtrees : list Tree).

Fixpoint treeOf (fuel : nat) (h : Heap) (a : Addr) : option Tree :=
  match fuel with
  | O => None
  | S fuel' =>
      match h !! a with
      | None => None
      | Some n => T (kind n) <$> mapM (treeOf fuel' h) (children n)
      end
  end.

(** Elements and text for concrete runs: an element without name space,
    its end, and the bytes of a text. *)
Definition named (name : string) : xml.Name :=
  {| xml.Space := EmptyString; xml.Local := name |}.

Definition startElement (name : string) (attrs : list xml.Attr)
  : xml.StartElement :=
  {| xml.StartElement_Name := named name; xml.StartElement_Attr := attrs |}.

Definition endElement (name : string) : xml.EndElement :=
  {| xml.EndElement_Name := named name |}.

Definition startOf (name : string) (attrs : list xml.Attr) : xml.Token :=
  xml.TStartElement (startElement name attrs).

Definition endOf (name : string) : xml.Token :=
  xml.TEndElement (endElement name).

Definition attr (name value : string) : xml.Attr :=
  {| xml.Attr_Name := named name; xml.Attr_Value := value |}.

Definition text (s : string) : list byte := list_byte_of_string s.

(** The end-to-end scenario of the specification:
    [<mapper namespace="m"><select id="s">SELECT * FROM t WHERE id = #{id}</select></mapper>]. *)
Definition endToEnd : Parser :=
  NewParser
    {| xml.pending :=
         [startOf "mapper" [attr "namespace" "m"];
          startOf "select" [attr "id" "s"];
          xml.TCharData (text "SELECT * FROM t WHERE id = #{id}");
          endOf "select"; endOf "mapper"];
       xml.final := xml.EOF |}.

(** The dynamic-SQL scenario: [choose] with [when] and [otherwise] in a
    [select]. *)
Definition dynamicSQL : Parser :=
  NewParser
    {| xml.pending :=
         [startOf "select" []; startOf "choose" [];
          startOf "when" [attr "test" "a"]; xml.TCharData (text "X");
          endOf "when";
          startOf "otherwise" []; xml.TCharData (text "Y"); endOf "otherwise";
          endOf "choose"; endOf "select"];
       xml.final := xml.EOF |}.

(** An unknown element with content, in a [mapper]. *)
Definition withUnknown : Parser :=
  NewParser
    {| xml.pending :=
         [startOf "mapper" []; startOf "foo" []; startOf "select" [];
          xml.TCharData (text "x"); endOf "select"; endOf "foo";
          startOf "delete" []; endOf "delete"; endOf "mapper"];
       xml.final := xml.EOF |}.

(** A [mapper], a [select] in it, and text in the [select]; all open. *)
Definition mapperSelectText : list xml.Token :=
  [startOf "mapper" []; startOf "select" []; xml.TCharData (text "SELECT 1")].

(** ** The messages of the errors *)

(** [NewParser] on a document: its elements, text and comments in their
    order, each written without prefix and on one line, then the end of
    the input. *)
Definition document (tokens : list xml.Token) : Parser :=
  NewParser
    (strict.delivers (strict.NewDecoder (map strict.item tokens) xml.EOF)).

Section Messages.

(** [%q]: [strconv.Quote], of the Go library. *)
Variable Quote : string -> string.

(** [Error()] of the error [DataNode.Scan] returns; the [ast] package is
    not part of the sources and the specification gives no text. *)
Variable ScanError_Error : ScanError -> string.

Definition xml_error_Error (e : xml.error) : string :=
  match e with
  | xml.EOF => "EOF"
  | xml.Other msg => msg
  end.

(** [err.Error()]: the format strings are those of the source;
    [errors.Wrapf] puts its message, a colon and a space before the
    message of the cause. *)
Definition ParseError_Error (e : ParseError) : string :=
  match e with
  | MalformedXml cause =>
      "failed to get token from xml decoder: " ++ xml_error_Error cause
  | UnterminatedElement open =>
      "expected to read the end element of " ++ Quote open ++ ", but got EOF"
  | UnexpectedEndElement actual =>
      "unexpected end element " ++ Quote actual
  | TagMismatch expected actual =>
      "expected to read the name of end element is " ++ Quote expected
      ++ ", but got " ++ Quote actual
  | DataScanError cause =>
      "cannot parse data node: " ++ ScanError_Error cause
  | NodeStackEmpty =>
      "try to append data node to parent node, but node stack is empty"
  end%string.

End Messages.

Section Parse.

(** ** [strings.TrimSpace]

    The Go library trims ASCII white space itself and hands over to its
    Unicode-aware functions at the first byte that is not ASCII; these
    two are the library's, and parameters here:
    [TrimFunc(s, unicode.IsSpace)] and [TrimRightFunc(s, unicode.IsSpace)]. *)
Variable TrimFunc_IsSpace : list byte -> list byte.
Variable TrimRightFunc_IsSpace : list byte -> list byte.

(** The second loop of [TrimSpace], over the bytes from the end; the
    argument is the reversed string. *)
Fixpoint trimRight (rev_s : list byte) : list byte :=
  match rev_s with
  | [] => []
  | c :: rest =>
      if notASCII c then TrimRightFunc_IsSpace (rev rev_s)
      else if asciiSpace c then trimRight rest
      else rev rev_s
  end.

(** [strings.TrimSpace]: the first loop, over the bytes from the start,
    then the second. *)
Fixpoint TrimSpace (s : list byte) : list byte :=
  match s with
  | [] => []
  | c :: rest =>
      if notASCII c then TrimFunc_IsSpace s
      else if asciiSpace c then TrimSpace rest
      else trimRight (rev s)
  end.

(** ** One iteration of the loop of [Parse], on a token

    The [switch] on the type of the token.  A start element: the new node
    is allocated and both stacks grow.  An end element: the two checks,
    then the element stack is cut, the node on top of the node stack is
    read, added to the children of the node below it unless it is an
    [EmptyNode], and the node stack is cut.  Character data: the lines are
    counted on the raw chunk, the chunk is trimmed; unless nothing is
    left, the [DataNode] is built and tokenized, and only then, the node
    stack not being empty, added to the children of the node on top.  The
    [DataNode] is a local value until then, and enters the heap when it
    is added.  A comment: the lines are counted.  The two other types of
    token have no case. *)
Definition step (token : xml.Token) (s : State) : Outcome :=
  match token with
  | xml.TStartElement ele =>
      let newNode := length (heap s) in
      Continue {| line := line s;
                  heap := heap s ++ [newNodeByStartElement ele];
                  startElementStack := startElementStack s ++ [ele];
                  nodeStack := nodeStack s ++ [newNode] |}
  | xml.TEndElement ele =>
      let l := line s in
      let es := startElementStack s in
      let ns := nodeStack s in
      let actual := xml.Local (xml.EndElement_Name ele) in
      if len es =? 0 then Fail l (UnexpectedEndElement actual)
      else
        let! top := index es (len es - 1) orPanicAt l in
        let expected := xml.Local (xml.StartElement_Name top) in
        if negb (String.eqb actual expected)
        then Fail l (TagMismatch expected actual)
        else
          let! es' := slice_to es (len es - 1) orPanicAt l in
          let! popNode := index ns (len ns - 1) orPanicAt l in
          let! isEmpty := isEmptyNode (heap s) popNode orPanicAt l in
          let! h' :=
            (if isEmpty then Some (heap s)
             else match index ns (len ns - 2) with
                  | Some parent => addChildAt (heap s) parent popNode
                  | None => None
                  end) orPanicAt l in
          let! ns' := slice_to ns (len ns - 1) orPanicAt l in
          Continue {| line := l; heap := h';
                      startElementStack := es'; nodeStack := ns' |}
  | xml.TCharData ele =>
      let l := countLines ele (line s) in
      let trimmed := TrimSpace ele in
      if len trimmed =? 0
      then Continue {| line := l; heap := heap s;
                       startElementStack := startElementStack s;
                       nodeStack := nodeStack s |}
      else
        match Scan (NewDataNode trimmed) with
        | inl err => Fail l (DataScanError err)
        | inr scanned =>
            let ns := nodeStack s in
            if len ns =? 0 then Fail l NodeStackEmpty
            else
              let dataNode := length (heap s) in
              let! parent := index ns (len ns - 1) orPanicAt l in
              let! h' := addChildAt (heap s ++ [scanned]) parent dataNode
                         orPanicAt l in
              Continue {| line := l; heap := h';
                          startElementStack := startElementStack s;
                          nodeStack := ns |}
        end
  | xml.TComment ele =>
      Continue {| line := countLines ele (line s); heap := heap s;
                  startElementStack := startElementStack s;
                  nodeStack := nodeStack s |}
  | xml.TProcInst _ _ | xml.TDirective _ => Continue s
  end.

(** The iterations over a sequence of tokens, stopping at the first that
    does not continue. *)
Fixpoint run (tokens : list xml.Token) (s : State) : Outcome :=
  match tokens with
  | [] => Continue s
  | token :: rest =>
      match step token s with
      | Continue s' => run rest s'
      | stop => stop
      end
  end.

(** The branch [err != nil] of the loop. *)
Definition tokenError (err : xml.error) (s : State) : Result :=
  match err with
  | xml.EOF =>
      let es := startElementStack s in
      if len es =? 0 then Ok root (heap s)
      else match index es (len es - 1) with
           | Some top =>
               Error (UnterminatedElement
                        (xml.Local (xml.StartElement_Name top)))
           | None => Panicked
           end
  | _ => Error (MalformedXml err)
  end.

(** The state in which the loop of [Parse] is entered. *)
Definition initial (l : Z) : State :=
  {| line := l; heap := [NewRootNode];
     startElementStack := []; nodeStack := [root] |}.

(** The loop of [Parse]: the decoder's tokens one by one, then its final
    error.  With the result come the tokens the decoder still holds and
    the value of [p.currentLine]. *)
Fixpoint loop (tokens : list xml.Token) (final : xml.error) (s : State)
  : list xml.Token * Z * Result :=
  match tokens with
  | [] => ([], line s, tokenError final s)
  | token :: rest =>
      match step token s with
      | Continue s' => loop rest final s'
      | Fail l e => (rest, l, Error e)
      | Panic l => (rest, l, Panicked)
      end
  end.

(** [Parse]: the parser after the call, and what the call returns. *)
Definition Parse (p : Parser) : Parser * Result :=
  let '(rest, l, r) :=
    loop (xml.pending (d p)) (xml.final (d p)) (initial (currentLine p)) in
  ({| d := {| xml.pending := rest; xml.final := xml.final (d p) |};
      buf := buf p; cursor := cursor p; currentLine := l |}, r).

(** ** The document a sequence of tokens spells

    What follows describes the tokens themselves, without the loop: which
    sequences are well nested, which elements a sequence leaves open, and
    which tree a well-nested sequence stands for when it is read
    recursively.  The theorems compare the loop of [Parse] with these. *)

(** A chunk of character data of which nothing is left once trimmed:
    the test [len(trimmed) == 0]. *)
Definition blankChunk (ele : list byte) : bool := len (TrimSpace ele) =? 0.

(** A chunk an iteration goes through: nothing is left of it, or the
    tokenizer accepts what is left. *)
Definition accepted (ele : list byte) : bool :=
  blankChunk ele
  || match scan (TrimSpace ele) with inr _ => true | inl _ => false end.

(** A token that opens or closes no element and that an iteration goes
    through. *)
Definition passes (token : xml.Token) : bool :=
  match token with
  | xml.TStartElement _ | xml.TEndElement _ => false
  | xml.TCharData ele => accepted ele
  | xml.TComment _ | xml.TProcInst _ _ | xml.TDirective _ => true
  end.

(** A token that an iteration goes through without a trace in the heap or
    the stacks: a comment, a processing instruction, a directive, or
    character data of which nothing is left once trimmed. *)
Definition skipped (token : xml.Token) : bool :=
  match token with
  | xml.TStartElement _ | xml.TEndElement _ => false
  | xml.TCharData ele => blankChunk ele
  | xml.TComment _ | xml.TProcInst _ _ | xml.TDirective _ => true
  end.

(** A token for which an iteration allocates a node: a start element, or
    character data of which something is left once trimmed. *)
Definition allocates (token : xml.Token) : bool :=
  match token with
  | xml.TStartElement _ => true
  | xml.TCharData ele => negb (blankChunk ele)
  | _ => false
  end.

(** Well-nested tokens: every start element is closed by an end element of
    the same local name, in the order of brackets, and every chunk of
    character data goes through. *)
Inductive Nested : list xml.Token -> Prop :=
| Nested_nil : Nested []
| Nested_leaf token rest :
    passes token = true -> Nested rest -> Nested (token :: rest)
| Nested_element e body e' rest :
    xml.Local (xml.EndElement_Name e') = xml.Local (xml.StartElement_Name e) ->
    Nested body -> Nested rest ->
    Nested (xml.TStartElement e :: body ++ xml.TEndElement e' :: rest).

(** Tokens that are well nested but for the start elements [es], which
    they leave open, the outermost first. *)
Inductive Open : list xml.StartElement -> list xml.Token -> Prop :=
| Open_nil tokens : Nested tokens -> Open [] tokens
| Open_element es pre e body :
    Open es pre -> Nested body ->
    Open (es ++ [e]) (pre ++ xml.TStartElement e :: body).

(** The ways a decoder's tokens and final error are not a well-nested
    document, each with the error that tells it: an end element that
    closes nothing; an end element of another name than the innermost
    open element; character data the tokenizer rejects; the end of the
    input with an element open; an error of the decoder.  In each case the
    tokens before the offending place are well nested but for the
    elements they leave open. *)
Inductive Rejected (tokens : list xml.Token) (final : xml.error)
  : ParseError -> Prop :=
| Rejected_unexpected pre e post :
    tokens = pre ++ xml.TEndElement e :: post ->
    Open [] pre ->
    Rejected tokens final
      (UnexpectedEndElement (xml.Local (xml.EndElement_Name e)))
| Rejected_mismatch es top pre e post :
    tokens = pre ++ xml.TEndElement e :: post ->
    Open (es ++ [top]) pre ->
    xml.Local (xml.EndElement_Name e) <> xml.Local (xml.StartElement_Name top) ->
    Rejected tokens final
      (TagMismatch (xml.Local (xml.StartElement_Name top))
                   (xml.Local (xml.EndElement_Name e)))
| Rejected_data es pre ele post err :
    tokens = pre ++ xml.TCharData ele :: post ->
    Open es pre ->
    blankChunk ele = false ->
    scan (TrimSpace ele) = inl err ->
    Rejected tokens final (DataScanError err)
| Rejected_unterminated es top :
    Open (es ++ [top]) tokens ->
    final = xml.EOF ->
    Rejected tokens final
      (UnterminatedElement (xml.Local (xml.StartElement_Name top)))
| Rejected_malformed es msg :
    Open es tokens ->
    final = xml.Other msg ->
    Rejected tokens final (MalformedXml (xml.Other msg)).

(** The local names of the elements on the element stack, the innermost
    first: the order of the decoder's own stack. *)
Definition opened (es : list xml.StartElement) : list string :=
  rev (map (fun e => xml.Local (xml.StartElement_Name e)) es).

(** ** Trees read off the heap *)

(** A node as its constructor made it: without the children it was given
    since. *)
Definition label (n : Node) : Node :=
  {| kind := kind n; element := element n; children := [];
     data := data n; segments := segments n |}.

(** A tree of nodes, each without its child pointers, the subtrees in
    their place. *)
#[warnings="-register-all"]
Inductive Labelled := L (lab : Node) (subtrees : list Labelled).

(** The tree under an address of the heap, read off by following the child
    pointers; [fuel] bounds the depth. *)
Fixpoint labelledOf (fuel : nat) (h : Heap) (a : Addr) : option Labelled :=
  match fuel with
  | O => None
  | S fuel' =>
      match h !! a with
      | None => None
      | Some n => L (label n) <$> mapM (labelledOf fuel' h) (children n)
      end
  end.

(** The tree under an address; no path of a heap in which children are
    newer than their parents is longer than the heap. *)
Definition treeAt (h : Heap) (a : Addr) : option Labelled :=
  labelledOf (length h) h a.

(** The tree [t] is what is read under the address [a]. *)
Definition Reads (h : Heap) (a : Addr) (t : Labelled) : Prop :=
  exists fuel, labelledOf fuel h a = Some t.

(** The recursive reading of well-nested tokens, which the loop of [Parse]
    replaces by its two stacks: the trees of a sequence of tokens are, in
    order, a [DataNode] for each chunk of character data of which
    something is left once trimmed, with the trimmed bytes and their
    segments, and for each element of a name of the dispatch table the
    node [newNodeByStartElement] makes of it, over the trees of what the
    element contains; an element of another name gives no tree, and
    neither does what it contains. *)
Inductive Forest : list xml.Token -> list Labelled -> Prop :=
| Forest_nil : Forest [] []
| Forest_skip token rest f :
    skipped token = true -> Forest rest f -> Forest (token :: rest) f
| Forest_text ele segs rest f :
    blankChunk ele = false ->
    scan (TrimSpace ele) = inr segs ->
    Forest rest f ->
    Forest (xml.TCharData ele :: rest)
           (L (dataNodeOf (TrimSpace ele) segs) [] :: f)
| Forest_known e body e' rest fb f :
    xml.Local (xml.EndElement_Name e') = xml.Local (xml.StartElement_Name e) ->
    known (xml.Local (xml.StartElement_Name e)) = true ->
    Forest body fb -> Forest rest f ->
    Forest (xml.TStartElement e :: body ++ xml.TEndElement e' :: rest)
           (L (newNodeByStartElement e) fb :: f)
| Forest_unknown e body e' rest fb f :
    xml.Local (xml.EndElement_Name e') = xml.Local (xml.StartElement_Name e) ->
    known (xml.Local (xml.StartElement_Name e)) = false ->
    Forest body fb -> Forest rest f ->
    Forest (xml.TStartElement e :: body ++ xml.TEndElement e' :: rest) f.

(** ** Further properties of states *)

(** The heap is a forest: a child is newer than its parent, the children
    of a node are in the order of their allocation, no node has two
    parents, and a node on the node stack has none yet. *)
Record TreeShaped (h : Heap) (ns : list Addr) : Prop := {
  ts_newer : forall y c, childOf h y c -> (y < c)%nat;
  ts_sorted : forall y (n : Node) i j ci cj,
      h !! y = Some n ->
      children n !! i = Some ci -> children n !! j = Some cj ->
      (i < j)%nat -> (ci < cj)%nat;
  ts_one_parent : forall y y' c, childOf h y c -> childOf h y' c -> y = y';
  ts_open_orphan : forall a y, a ∈ ns -> ~ childOf h y a
}.

(** The two stacks are aligned: the node at index [i + 1] of the node
    stack is the one [newNodeByStartElement] made of the element at index
    [i] of the element stack. *)
Definition Aligned (s : State) : Prop :=
  forall i e,
    startElementStack s !! i = Some e ->
    exists a (n : Node),
      nodeStack s !! S i = Some a
      /\ heap s !! a = Some n
      /\ label n = newNodeByStartElement e.

(** Where a node of the heap comes from: the root, which [Parse] allocates
    first; a start element among the tokens; or a chunk of character data
    among the tokens, of which something was left once trimmed and which
    the tokenizer accepted. *)
Inductive Origin (tokens : list xml.Token) (a : Addr) (n : Node) : Prop :=
| Origin_root :
    a = root -> label n = NewRootNode -> Origin tokens a n
| Origin_element e :
    a <> root -> xml.TStartElement e ∈ tokens ->
    label n = newNodeByStartElement e ->
    Origin tokens a n
| Origin_text ele segs :
    a <> root -> xml.TCharData ele ∈ tokens ->
    blankChunk ele = false ->
    scan (TrimSpace ele) = inr segs ->
    n = dataNodeOf (TrimSpace ele) segs ->
    Origin tokens a n.

(** What an iteration leaves to the next but for the line counter. *)
Definition sameButLine (s s' : State) : Prop :=
  heap s = heap s'
  /\ startElementStack s = startElementStack s'
  /\ nodeStack s = nodeStack s'.

(** Two iterations end alike but for the line counter. *)
Definition sameOutcome (o o' : Outcome) : Prop :=
  match o, o' with
  | Continue s, Continue s' => sameButLine s s'
  | Fail _ e, Fail _ e' => e = e'
  | Panic _, Panic _ => True
  | _, _ => False
  end.

(** What [Parse] returns when its loop ends with an outcome. *)
Definition resultOf (final : xml.error) (o : Outcome) : Result :=
  match o with
  | Continue s => tokenError final s
  | Fail _ e => Error e
  | Panic _ => Panicked
  end.

(** Two results are alike but for the heap: both a tree, or both the same
    error. *)
Definition sameVerdict (r r' : Result) : Prop :=
  match r, r' with
  | Ok _ _, Ok _ _ => True
  | Error e, Error e' => e = e'
  | Panicked, Panicked => True
  | _, _ => False
  end.

(** A token that is not skipped. *)
Definition significant (token : xml.Token) : bool := negb (skipped token).

(** All bytes are ASCII: below [utf8.RuneSelf]. *)
Definition isASCII (ele : list byte) : bool :=
  forallb (fun c => negb (notASCII c)) ele.

(** * Verification *)

(** ** Go slices: facts *)

Section Slices.
Context {A : Type}.
Implicit Types (s : list A) (x y : A).

Lemma len_nonneg s : 0 <= len s.
Proof. unfold len. lia. Qed.

Lemma len_snoc s x : len (s ++ [x]) = len s + 1.
Proof. unfold len. rewrite length_app. simpl. lia. Qed.

Lemma len_zero_iff s : (len s =? 0) = true <-> s = [].
Proof.
  unfold len. rewrite Z.eqb_eq. destruct s; simpl; split; intros; try done; lia.
Qed.

Lemma len_zero_false s x : (len (s ++ [x]) =? 0) = false.
Proof. apply Z.eqb_neq. rewrite len_snoc. pose proof (len_nonneg s). lia. Qed.

Lemma index_top s x : index (s ++ [x]) (len (s ++ [x]) - 1) = Some x.
Proof.
  unfold index. rewrite len_snoc. pose proof (len_nonneg s).
  replace (len s + 1 - 1) with (len s) by lia.
  destruct (Z.ltb_spec (len s) 0); [lia|].
  unfold len. rewrite Nat2Z.id. apply list_lookup_middle. done.
Qed.

Lemma index_below_top s x y :
  index (s ++ [x; y]) (len (s ++ [x; y]) - 2) = Some x.
Proof.
  unfold index, len. rewrite length_app. simpl.
  replace (Z.of_nat (length s + 2) - 2) with (Z.of_nat (length s)) by lia.
  destruct (Z.ltb_spec (Z.of_nat (length s)) 0); [lia|].
  rewrite Nat2Z.id. apply list_lookup_middle. done.
Qed.

Lemma index_nil i : index (@nil A) i = None.
Proof. unfold index. destruct (i <? 0); done. Qed.

Lemma slice_to_pop s x : slice_to (s ++ [x]) (len (s ++ [x]) - 1) = Some s.
Proof.
  unfold slice_to. rewrite len_snoc. pose proof (len_nonneg s).
  replace (len s + 1 - 1) with (len s) by lia.
  destruct (Z.ltb_spec (len s) 0); [lia|].
  destruct (Z.ltb_spec (len s + 1) (len s)); [lia|]. simpl.
  unfold len. rewrite Nat2Z.id. by rewrite take_app_length.
Qed.

(** A slice that is not empty ends with its top element. *)
Lemma snoc_of_nonempty s : s <> [] -> exists s' x, s = s' ++ [x].
Proof.
  destruct s as [|x s' _] using rev_ind; [done|]. intros _. by exists s', x.
Qed.

Lemma two_snoc s : (2 <= length s)%nat -> exists s' x y, s = s' ++ [x; y].
Proof.
  intros Hl. destruct s as [|y s' _] using rev_ind; [simpl in Hl; lia|].
  destruct s' as [|x s'' _] using rev_ind.
  - simpl in Hl. lia.
  - exists s'', x, y. by rewrite <- app_assoc.
Qed.

Lemma len_nonempty s : s <> [] -> (len s =? 0) = false.
Proof.
  intros Hne. destruct (len s =? 0) eqn:E; [|done].
  by apply len_zero_iff in E.
Qed.

Lemma nil_or_not s : s = [] \/ s <> [].
Proof. destruct s; [by left|by right]. Qed.

End Slices.


Implicit Types (s : State) (h : Heap) (a x y c : Addr) (n : Node).

(** *** Nodes in the heap *)

Lemma kind_AddChild c n : kind (AddChild c n) = kind n.
Proof. unfold AddChild. by destruct (kind n) eqn:E; simpl. Qed.

Lemma children_AddChild c n :
  kind n <> DataNode -> children (AddChild c n) = children n ++ [c].
Proof. unfold AddChild. by destruct (kind n). Qed.

Lemma children_AddChild_cases c n :
  children (AddChild c n) = children n
  \/ children (AddChild c n) = children n ++ [c].
Proof. unfold AddChild. destruct (kind n); auto. Qed.

Lemma NodeKind_eqb_eq k1 k2 : NodeKind_eqb k1 k2 = true <-> k1 = k2.
Proof. destruct k1, k2; simpl; split; intros; congruence. Qed.

Lemma childOf_alloc h n y c :
  children n = [] ->
  childOf (h ++ [n]) y c -> childOf h y c.
Proof.
  intros Hn (m & Hm & Hc).
  destruct (lookup_app_Some h [n] y m) as [H _]. destruct (H Hm) as [Hy|[_ Hy]].
  - by exists m.
  - destruct (y - length h)%nat; simpl in Hy; [|done].
    injection Hy as <-. rewrite Hn in Hc. by apply elem_of_nil in Hc.
Qed.

Lemma childOf_addChild h p d y c :
  childOf (alter (AddChild d) p h) y c ->
  childOf h y c \/ (y = p /\ c = d).
Proof.
  intros (m & Hm & Hc).
  destruct (decide (p = y)) as [->|Hne].
  - rewrite list_lookup_alter_eq in Hm.
    destruct (h !! y) as [n|] eqn:Hy; simpl in Hm; [|done].
    injection Hm as <-.
    destruct (children_AddChild_cases d n) as [E|E]; rewrite E in Hc.
    + left. by exists n.
    + apply elem_of_app in Hc as [Hc|Hc].
      * left. by exists n.
      * apply list_elem_of_singleton in Hc. by right.
  - rewrite list_lookup_alter_ne in Hm by done. left. by exists m.
Qed.

Lemma lookup_addChild_kind h p d a (k : NodeKind -> Prop) :
  (exists n, h !! a = Some n /\ k (kind n)) ->
  exists n, alter (AddChild d) p h !! a = Some n /\ k (kind n).
Proof.
  intros (n & Hn & Hk).
  destruct (decide (p = a)) as [->|Hne].
  - rewrite list_lookup_alter_eq, Hn. simpl. eexists. split; [done|].
    by rewrite kind_AddChild.
  - rewrite list_lookup_alter_ne by done. by exists n.
Qed.

(** *** What an iteration does, case by case *)

Lemma step_StartElement ele s :
  step (xml.TStartElement ele) s
  = Continue {| line := line s;
                heap := heap s ++ [newNodeByStartElement ele];
                startElementStack := startElementStack s ++ [ele];
                nodeStack := nodeStack s ++ [length (heap s)] |}.
Proof. reflexivity. Qed.

Lemma step_EndElement_unexpected ele s :
  startElementStack s = [] ->
  step (xml.TEndElement ele) s
  = Fail (line s) (UnexpectedEndElement (xml.Local (xml.EndElement_Name ele))).
Proof. intros Hes. unfold step. by rewrite Hes. Qed.

Lemma step_EndElement_mismatch ele s es top :
  startElementStack s = es ++ [top] ->
  xml.Local (xml.EndElement_Name ele) <> xml.Local (xml.StartElement_Name top) ->
  step (xml.TEndElement ele) s
  = Fail (line s) (TagMismatch (xml.Local (xml.StartElement_Name top))
                               (xml.Local (xml.EndElement_Name ele))).
Proof.
  intros Hes Hne. unfold step. rewrite Hes, len_zero_false, index_top.
  unfold orPanic. apply String.eqb_neq in Hne. by rewrite Hne.
Qed.

Lemma step_EndElement_match ele s es top ns parent popNode (c : Node) :
  startElementStack s = es ++ [top] ->
  xml.Local (xml.EndElement_Name ele) = xml.Local (xml.StartElement_Name top) ->
  nodeStack s = ns ++ [parent; popNode] ->
  heap s !! popNode = Some c ->
  is_Some (heap s !! parent) ->
  step (xml.TEndElement ele) s
  = Continue {| line := line s;
                heap := if NodeKind_eqb (kind c) EmptyNode then heap s
                        else alter (AddChild popNode) parent (heap s);
                startElementStack := es;
                nodeStack := ns ++ [parent] |}.
Proof.
  intros Hes Heq Hns Hc [pn Hp]. unfold step.
  rewrite Hes, len_zero_false, index_top, slice_to_pop. unfold orPanic.
  rewrite Heq, String.eqb_refl. simpl negb. cbv iota.
  rewrite Hns. replace (ns ++ [parent; popNode]) with ((ns ++ [parent]) ++ [popNode])
    by (by rewrite <- app_assoc).
  rewrite index_top, slice_to_pop. unfold isEmptyNode. rewrite Hc.
  destruct (NodeKind_eqb (kind c) EmptyNode); [done|].
  rewrite <- app_assoc. simpl app. rewrite index_below_top.
  unfold addChildAt. by rewrite Hp.
Qed.

Lemma step_CharData_blank ele s :
  TrimSpace ele = [] ->
  step (xml.TCharData ele) s
  = Continue {| line := countLines ele (line s); heap := heap s;
                startElementStack := startElementStack s;
                nodeStack := nodeStack s |}.
Proof. intros Ht. unfold step. by rewrite Ht. Qed.

Lemma step_CharData_scan_error ele s err :
  TrimSpace ele <> [] ->
  Scan (NewDataNode (TrimSpace ele)) = inl err ->
  step (xml.TCharData ele) s
  = Fail (countLines ele (line s)) (DataScanError err).
Proof.
  intros Ht Hscan. unfold step. by rewrite (len_nonempty _ Ht), Hscan.
Qed.

Lemma step_CharData_data ele s scanned ns parent :
  TrimSpace ele <> [] ->
  Scan (NewDataNode (TrimSpace ele)) = inr scanned ->
  nodeStack s = ns ++ [parent] ->
  is_Some (heap s !! parent) ->
  step (xml.TCharData ele) s
  = Continue {| line := countLines ele (line s);
                heap := alter (AddChild (length (heap s))) parent
                          (heap s ++ [scanned]);
                startElementStack := startElementStack s;
                nodeStack := nodeStack s |}.
Proof.
  intros Ht Hscan Hns [pn Hp]. unfold step.
  rewrite (len_nonempty _ Ht), Hscan, Hns, len_zero_false, index_top.
  unfold orPanic, addChildAt. by rewrite (lookup_app_l_Some _ _ _ _ Hp).
Qed.

Lemma step_CharData_no_stack ele s scanned :
  TrimSpace ele <> [] ->
  Scan (NewDataNode (TrimSpace ele)) = inr scanned ->
  nodeStack s = [] ->
  step (xml.TCharData ele) s
  = Fail (countLines ele (line s)) NodeStackEmpty.
Proof.
  intros Ht Hscan Hns. unfold step.
  by rewrite (len_nonempty _ Ht), Hscan, Hns.
Qed.

(** [NewDataNode] then [Scan]: the tokenizer on the bytes. *)
Lemma scan_Scan trimmed :
  Scan (NewDataNode trimmed)
  = match scan trimmed with
    | inl err => inl err
    | inr segs => inr (dataNodeOf trimmed segs)
    end.
Proof. reflexivity. Qed.

(** *** The heap under the four operations of the loop *)

Lemma stack_node_allocated h ns a :
  WellFormed h ns -> a ∈ ns -> (a < length h)%nat.
Proof.
  intros Hwf Ha. destruct (wf_stack_nodes _ _ Hwf a Ha) as (n & Hn & _).
  by apply lookup_lt_Some in Hn.
Qed.

Lemma stack_below_top h ns p a :
  WellFormed h (ns ++ [p]) -> a ∈ ns ++ [p] -> (a <= p)%nat.
Proof.
  intros Hwf Ha. apply list_elem_of_lookup in Ha as [i Hi].
  assert (Hp : (ns ++ [p]) !! length ns = Some p) by by apply list_lookup_middle.
  pose proof (lookup_lt_Some _ _ _ Hi) as Hlt. rewrite length_app in Hlt. simpl in Hlt.
  destruct (decide (i = length ns)) as [->|Hne].
  - rewrite Hp in Hi. injection Hi as ->. lia.
  - pose proof (wf_stack_sorted _ _ Hwf i (length ns) a p Hi Hp). lia.
Qed.

(** [append(nodeStack, newNode)] with a freshly allocated node. *)
Lemma WellFormed_push h ns n :
  WellFormed h ns -> children n = [] -> kind n <> DataNode ->
  WellFormed (h ++ [n]) (ns ++ [length h]).
Proof.
  intros Hwf Hch Hk. split.
  - intros a Ha. apply elem_of_app in Ha as [Ha|Ha].
    + destruct (wf_stack_nodes _ _ Hwf a Ha) as (m & Hm & Hkm).
      exists m. split; [by apply lookup_app_l_Some|done].
    + apply list_elem_of_singleton in Ha as ->. exists n. split; [|done].
      by apply list_lookup_middle.
  - intros i j a b Hi Hj Hij.
    pose proof (lookup_lt_Some _ _ _ Hj) as Hlt. rewrite length_app in Hlt. simpl in Hlt.
    rewrite lookup_app_l in Hi by lia.
    destruct (decide (j = length ns)) as [->|Hne].
    + rewrite list_lookup_middle in Hj by done. injection Hj as <-.
      eapply stack_node_allocated; [done|]. by eapply list_elem_of_lookup_2.
    + rewrite lookup_app_l in Hj by lia. by eapply (wf_stack_sorted _ _ Hwf i j).
  - intros y c Hyc. apply childOf_alloc in Hyc; [|done].
    destruct (wf_children _ _ Hwf y c Hyc) as (m & Hm & Hkm).
    exists m. split; [by apply lookup_app_l_Some|done].
  - intros a y c Ha Hya Hyc. apply childOf_alloc in Hyc; [|done].
    apply elem_of_app in Ha as [Ha|Ha].
    + by eapply (wf_older _ _ Hwf a y c).
    + apply list_elem_of_singleton in Ha as ->.
      destruct (wf_children _ _ Hwf y c Hyc) as (m & Hm & _).
      by apply lookup_lt_Some in Hm.
Qed.

(** A freshly allocated node that is not pushed. *)
Lemma WellFormed_alloc h ns n :
  WellFormed h ns -> children n = [] -> WellFormed (h ++ [n]) ns.
Proof.
  intros Hwf Hch. split.
  - intros a Ha. destruct (wf_stack_nodes _ _ Hwf a Ha) as (m & Hm & Hkm).
    exists m. split; [by apply lookup_app_l_Some|done].
  - apply (wf_stack_sorted _ _ Hwf).
  - intros y c Hyc. apply childOf_alloc in Hyc; [|done].
    destruct (wf_children _ _ Hwf y c Hyc) as (m & Hm & Hkm).
    exists m. split; [by apply lookup_app_l_Some|done].
  - intros a y c Ha Hya Hyc. apply childOf_alloc in Hyc; [|done].
    by eapply (wf_older _ _ Hwf a y c).
Qed.

(** [nodeStack[:len(nodeStack)-1]] *)
Lemma WellFormed_pop h ns p :
  WellFormed h (ns ++ [p]) -> WellFormed h ns.
Proof.
  intros Hwf. split.
  - intros a Ha. apply (wf_stack_nodes _ _ Hwf). apply elem_of_app. by left.
  - intros i j a b Hi Hj. apply (wf_stack_sorted _ _ Hwf); by apply lookup_app_l_Some.
  - apply (wf_children _ _ Hwf).
  - intros a y c Ha. apply (wf_older _ _ Hwf). apply elem_of_app. by left.
Qed.

(** [AddChild] on the node on top of the stack, with a child that is
    allocated and not an [Empty] node. *)
Lemma WellFormed_attach h ns p d :
  WellFormed h (ns ++ [p]) ->
  (exists m, h !! d = Some m /\ kind m <> EmptyNode) ->
  WellFormed (alter (AddChild d) p h) (ns ++ [p]).
Proof.
  intros Hwf Hd. split.
  - intros a Ha. apply (lookup_addChild_kind _ _ _ _ (fun k => k <> DataNode)).
    by apply (wf_stack_nodes _ _ Hwf).
  - apply (wf_stack_sorted _ _ Hwf).
  - intros y c Hyc. apply (lookup_addChild_kind _ _ _ _ (fun k => k <> EmptyNode)).
    apply childOf_addChild in Hyc as [Hyc|[-> ->]]; [|done].
    by apply (wf_children _ _ Hwf y c).
  - intros a y c Ha Hya Hyc.
    apply childOf_addChild in Hyc as [Hyc|[-> ->]].
    + by eapply (wf_older _ _ Hwf a y c).
    + pose proof (stack_below_top _ _ _ _ Hwf Ha). lia.
Qed.

(** *** The invariant of the loop *)

Lemma newNodeByStartElement_fresh ele :
  children (newNodeByStartElement ele) = []
  /\ kind (newNodeByStartElement ele) <> DataNode
  /\ kind (newNodeByStartElement ele) <> RootNode.
Proof.
  unfold newNodeByStartElement.
  repeat match goal with |- context [if ?b then _ else _] => destruct b end;
    by repeat split.
Qed.

Lemma Inv_initial l : Inv (initial l).
Proof.
  split.
  - repeat split. by exists NewRootNode.
  - split; simpl.
    + intros a Ha. apply list_elem_of_singleton in Ha as ->. by exists NewRootNode.
    + intros [|i] [|j] a b Hi Hj Hij; try done; lia.
    + intros y c (n & Hn & Hc). destruct y; [|done].
      injection Hn as <-. by apply elem_of_nil in Hc.
    + intros a y c Ha Hya. apply list_elem_of_singleton in Ha as ->.
      unfold root in Hya. lia.
Qed.

(** Under the balance the two stacks have one of two shapes. *)
Lemma Balanced_shape s :
  Balanced s ->
  (startElementStack s = [] /\ nodeStack s = [root])
  \/ (exists es top ns parent popNode,
        startElementStack s = es ++ [top]
        /\ nodeStack s = ns ++ [parent; popNode]).
Proof.
  intros (Hlen & Hroot & _). unfold len in Hlen.
  destruct (startElementStack s) as [|top es _] using rev_ind.
  - left. split; [done|]. simpl in Hlen.
    destruct (nodeStack s) as [|a [|b ns]]; simpl in Hlen; try lia.
    unfold index in Hroot. simpl in Hroot. by injection Hroot as ->.
  - right. rewrite length_app in Hlen. simpl in Hlen.
    destruct (two_snoc (nodeStack s)) as (ns & parent & popNode & Hns); [lia|].
    by exists es, top, ns, parent, popNode.
Qed.

Lemma Balanced_push s ele n :
  Balanced s ->
  Balanced {| line := line s; heap := heap s ++ [n];
              startElementStack := startElementStack s ++ [ele];
              nodeStack := nodeStack s ++ [length (heap s)] |}.
Proof.
  intros (Hlen & Hroot & (r & Hr & Hk)). repeat split; simpl.
  - rewrite !len_snoc. lia.
  - unfold index in *. simpl in *. by apply lookup_app_l_Some.
  - exists r. split; [by apply lookup_app_l_Some|done].
Qed.

Lemma Balanced_pop s l h es top ns parent popNode :
  Balanced s ->
  startElementStack s = es ++ [top] ->
  nodeStack s = ns ++ [parent; popNode] ->
  (exists r, h !! root = Some r /\ kind r = RootNode) ->
  Balanced {| line := l; heap := h; startElementStack := es;
              nodeStack := ns ++ [parent] |}.
Proof.
  intros (Hlen & Hroot & _) Hes Hns Hr. rewrite Hes, Hns in *.
  repeat split; simpl; [| |done].
  - unfold len in *. rewrite !length_app in *. simpl in *. lia.
  - unfold index in *. simpl in *.
    replace (ns ++ [parent; popNode]) with ((ns ++ [parent]) ++ [popNode]) in Hroot
      by (by rewrite <- app_assoc).
    rewrite lookup_app_l in Hroot; [done|]. rewrite length_app. simpl. lia.
Qed.

Lemma root_kept_by_alloc_attach h p d n :
  (exists r, h !! root = Some r /\ kind r = RootNode) ->
  exists r, alter (AddChild d) p (h ++ [n]) !! root = Some r /\ kind r = RootNode.
Proof.
  intros (r & Hr & Hk).
  apply (lookup_addChild_kind _ _ _ _ (fun k => k = RootNode)).
  exists r. split; [by apply lookup_app_l_Some|done].
Qed.

Lemma HeapStep_WellFormed h ns h' ns' :
  WellFormed h ns -> HeapStep h ns h' ns' -> WellFormed h' ns'.
Proof.
  intros Hwf Hstep. destruct Hstep as
    [h ns n Hch Hk|h ns parent popNode c Hc Hk|h ns parent popNode c Hc Hk
    |h ns parent n Hch Hk|h ns].
  - by apply WellFormed_push.
  - replace (ns ++ [parent; popNode]) with ((ns ++ [parent]) ++ [popNode]) in Hwf
      by (by rewrite <- app_assoc).
    by apply WellFormed_pop in Hwf.
  - replace (ns ++ [parent; popNode]) with ((ns ++ [parent]) ++ [popNode]) in Hwf
      by (by rewrite <- app_assoc).
    apply WellFormed_pop in Hwf. apply WellFormed_attach; [done|]. by exists c.
  - apply WellFormed_attach; [by apply WellFormed_alloc|].
    exists n. split; [by apply list_lookup_middle|]. by rewrite Hk.
  - done.
Qed.

(** An iteration never panics under the invariant; when it goes on, the
    balance holds again and the heap has made one of its five moves. *)
Lemma step_spec token s :
  Inv s ->
  match step token s with
  | Continue s' =>
      Balanced s' /\ HeapStep (heap s) (nodeStack s) (heap s') (nodeStack s')
  | Fail _ _ => True
  | Panic _ => False
  end.
Proof.
  intros [Hbal Hwf]. destruct token as [ele|ele|ele|ele|target inst|ele].
  - rewrite step_StartElement.
    destruct (newNodeByStartElement_fresh ele) as (Hch & Hk & _). split.
    + by apply Balanced_push.
    + by apply hs_push.
  - destruct (Balanced_shape s Hbal)
      as [[Hes Hns]|(es & top & ns & parent & popNode & Hes & Hns)].
    { by rewrite step_EndElement_unexpected. }
    destruct (string_dec (xml.Local (xml.EndElement_Name ele))
                (xml.Local (xml.StartElement_Name top))) as [Heq|Hne];
      [|by erewrite step_EndElement_mismatch].
    rewrite Hns in Hwf.
    destruct (wf_stack_nodes _ _ Hwf popNode) as (c & Hc & _).
    { apply elem_of_app. right. apply list_elem_of_In. simpl. auto. }
    destruct (wf_stack_nodes _ _ Hwf parent) as (pn & Hp & _).
    { apply elem_of_app. right. apply list_elem_of_In. simpl. auto. }
    erewrite step_EndElement_match by eauto.
    pose proof Hbal as (Hlen & Hroot & Hr). simpl. rewrite Hns.
    destruct (NodeKind_eqb (kind c) EmptyNode) eqn:Hempty.
    + split; [by eapply Balanced_pop|].
      apply NodeKind_eqb_eq in Hempty. by eapply hs_discard.
    + split.
      * eapply Balanced_pop; [done..|].
        by apply (lookup_addChild_kind _ _ _ _ (fun k => k = RootNode)).
      * eapply hs_attach; [done|].
        intros Hk. apply NodeKind_eqb_eq in Hk. congruence.
  - destruct (nil_or_not (TrimSpace ele)) as [Hblank|Hdata].
    { rewrite step_CharData_blank by done. destruct Hbal as (? & ? & ?).
      split; [by repeat split|apply hs_skip]. }
    destruct (Scan (NewDataNode (TrimSpace ele))) as [err|scanned] eqn:Hscan.
    { by erewrite step_CharData_scan_error. }
    assert (Hsc : children scanned = [] /\ kind scanned = DataNode).
    { rewrite scan_Scan in Hscan.
      destruct (scan (TrimSpace ele)); [done|]. by injection Hscan as <-. }
    destruct Hsc as [Hch Hk].
    assert (exists ns parent, nodeStack s = ns ++ [parent]) as (ns & parent & Hns).
    { destruct (Balanced_shape s Hbal)
        as [[_ Hns]|(_ & _ & ns & parent & popNode & _ & Hns)].
      - by exists [], root.
      - exists (ns ++ [parent]), popNode. by rewrite <- app_assoc. }
    destruct (wf_stack_nodes _ _ Hwf parent) as (pn & Hp & _).
    { rewrite Hns. apply elem_of_app. right. by apply list_elem_of_singleton. }
    erewrite step_CharData_data by eauto. split.
    + destruct Hbal as (Hlen & Hroot & Hr). repeat split; [done..|].
      by apply root_kept_by_alloc_attach.
    + simpl. rewrite Hns. by apply hs_data.
  - destruct Hbal as (? & ? & ?). split; [by repeat split|apply hs_skip].
  - split; [done|apply hs_skip].
  - split; [done|apply hs_skip].
Qed.

Lemma step_Inv token s s' : Inv s -> step token s = Continue s' -> Inv s'.
Proof.
  intros Hinv Hstep. pose proof (step_spec token s Hinv) as H.
  rewrite Hstep in H. destruct H as [Hbal Hhs]. split; [done|].
  destruct Hinv as [_ Hwf]. by eapply HeapStep_WellFormed.
Qed.

Lemma step_no_panic token s l : Inv s -> step token s <> Panic l.
Proof.
  intros Hinv Hstep. pose proof (step_spec token s Hinv) as H.
  by rewrite Hstep in H.
Qed.

(** *** Sequences of iterations *)

Lemma run_cons token rest s :
  run (token :: rest) s
  = match step token s with
    | Continue s' => run rest s'
    | stop => stop
    end.
Proof. reflexivity. Qed.

Lemma run_app t1 t2 s :
  run (t1 ++ t2) s
  = match run t1 s with
    | Continue s' => run t2 s'
    | stop => stop
    end.
Proof.
  revert s. induction t1 as [|token t1 IH]; intros s; simpl; [done|].
  destruct (step token s); [apply IH|done..].
Qed.

Lemma run_Inv tokens s s' : Inv s -> run tokens s = Continue s' -> Inv s'.
Proof.
  revert s. induction tokens as [|token tokens IH]; intros s Hinv Hrun; simpl in Hrun.
  - by injection Hrun as <-.
  - destruct (step token s) as [s1| |] eqn:Hstep; [|done..].
    eapply IH; [|done]. by eapply step_Inv.
Qed.

Lemma run_no_panic tokens s l : Inv s -> run tokens s <> Panic l.
Proof.
  revert s. induction tokens as [|token tokens IH]; intros s Hinv; simpl; [done|].
  destruct (step token s) as [s1| |] eqn:Hstep.
  - apply IH. by eapply step_Inv.
  - done.
  - by apply step_no_panic in Hstep.
Qed.

(** One turn of [for { token, err := p.d.Token(); ... }]: the decoder is
    asked for a token; on an error the loop returns through the branch
    [err != nil]; on a token the iteration runs and, unless it returns, the
    loop goes on with the decoder as the call left it. *)
Lemma loop_Token dec s :
  loop (xml.pending dec) (xml.final dec) s
  = match xml.Token_ dec with
    | (inr err, _) => ([], line s, tokenError err s)
    | (inl token, dec') =>
        match step token s with
        | Continue s' => loop (xml.pending dec') (xml.final dec') s'
        | Fail l e => (xml.pending dec', l, Error e)
        | Panic l => (xml.pending dec', l, Panicked)
        end
    end.
Proof. unfold xml.Token_. by destruct (xml.pending dec). Qed.

(** The loop of [Parse] is the sequence of iterations, then the branch of
    the final error. *)
Lemma loop_run tokens final s :
  snd (loop tokens final s)
  = match run tokens s with
    | Continue s' => tokenError final s'
    | Fail _ e => Error e
    | Panic _ => Panicked
    end
  /\ snd (fst (loop tokens final s)) = lineOf (run tokens s).
Proof.
  revert s. induction tokens as [|token tokens IH]; intros s; simpl; [done|].
  destruct (step token s); [apply IH|done..].
Qed.

(** In-place update of the node a pointer designates. *)
Lemma alter_as_insert (f : Node -> Node) h a n :
  h !! a = Some n -> alter f a h = <[a := f n]> h.
Proof.
  intros Hn. rewrite list_insert_alter. apply list_alter_ext; [|done].
  intros m Hm. congruence.
Qed.

(** ** The balance of the two stacks *)

(** C1. For every sequence of tokens, after each of them the node stack is
    one longer than the element stack, and index 0 of the node stack is
    the pointer [root], which designates the [RootNode]. *)
Theorem balance_invariant l tokens s :
  run tokens (initial l) = Continue s ->
  len (nodeStack s) = len (startElementStack s) + 1
  /\ index (nodeStack s) 0 = Some root
  /\ exists n, heap s !! root = Some n /\ kind n = RootNode.
Proof.
  intros Hrun. by destruct (run_Inv tokens _ s (Inv_initial l) Hrun) as [Hbal _].
Qed.

(** ** The node stack is never empty *)

Lemma run_stops tokens s :
  match run tokens s with
  | Continue _ => True
  | stop => exists pre token post s1,
      tokens = pre ++ token :: post
      /\ run pre s = Continue s1 /\ step token s1 = stop
  end.
Proof.
  revert s. induction tokens as [|token tokens IH]; intros s; simpl; [done|].
  destruct (step token s) as [s1|l e|l] eqn:Hstep.
  - specialize (IH s1). destruct (run tokens s1) as [s2|l e|l]; [done|..];
      destruct IH as (pre & token' & post & s2 & -> & Hpre & Hstop);
      exists (token :: pre), token', post, s2; simpl; by rewrite Hstep.
  - by exists [], token, tokens, s.
  - by exists [], token, tokens, s.
Qed.

Lemma step_never_NodeStackEmpty token s l :
  Inv s -> step token s <> Fail l NodeStackEmpty.
Proof.
  intros Hinv Hfail. pose proof Hinv as [Hbal Hwf].
  destruct token as [ele|ele|ele|ele|target inst|ele]; try done.
  - destruct (Balanced_shape s Hbal)
      as [[Hes Hns]|(es & top & ns & parent & popNode & Hes & Hns)].
    { by rewrite step_EndElement_unexpected in Hfail. }
    destruct (string_dec (xml.Local (xml.EndElement_Name ele))
                (xml.Local (xml.StartElement_Name top))) as [Heq|Hne];
      [|by erewrite step_EndElement_mismatch in Hfail].
    rewrite Hns in Hwf.
    destruct (wf_stack_nodes _ _ Hwf popNode) as (popped & Hc & _).
    { apply elem_of_app. right. apply list_elem_of_In. simpl. auto. }
    destruct (wf_stack_nodes _ _ Hwf parent) as (pn & Hp & _).
    { apply elem_of_app. right. apply list_elem_of_In. simpl. auto. }
    by erewrite step_EndElement_match in Hfail by eauto.
  - destruct (nil_or_not (TrimSpace ele)) as [Hblank|Hdata].
    { by rewrite step_CharData_blank in Hfail. }
    destruct (Scan (NewDataNode (TrimSpace ele))) as [err|scanned] eqn:Hscan.
    { by erewrite step_CharData_scan_error in Hfail. }
    assert (exists ns parent, nodeStack s = ns ++ [parent]) as (ns & parent & Hns).
    { destruct (Balanced_shape s Hbal)
        as [[_ Hns]|(_ & _ & ns & parent & popNode & _ & Hns)].
      - by exists [], root.
      - exists (ns ++ [parent]), popNode. by rewrite <- app_assoc. }
    destruct (wf_stack_nodes _ _ Hwf parent) as (pn & Hp & _).
    { rewrite Hns. apply elem_of_app. right. by apply list_elem_of_singleton. }
    by erewrite step_CharData_data in Hfail by eauto.
Qed.

Lemma tokenError_no_panic final s : Inv s -> tokenError final s <> Panicked.
Proof.
  intros [Hbal _]. destruct final; [|done]. unfold tokenError.
  destruct (Balanced_shape s Hbal)
    as [[Hes _]|(es & top & _ & _ & _ & Hes & _)]; rewrite Hes; [done|].
  by rewrite len_zero_false, index_top.
Qed.

Lemma tokenError_not_NodeStackEmpty final s :
  tokenError final s <> Error NodeStackEmpty.
Proof.
  destruct final; [|done]. unfold tokenError.
  destruct (len (startElementStack s) =? 0); [done|].
  by destruct (index _ _).
Qed.

Lemma Parse_result p :
  snd (Parse p)
  = match run (xml.pending (d p)) (initial (currentLine p)) with
    | Continue s => tokenError (xml.final (d p)) s
    | Fail _ e => Error e
    | Panic _ => Panicked
    end.
Proof.
  pose proof (loop_run (xml.pending (d p)) (xml.final (d p))
                (initial (currentLine p))) as [Hr _].
  rewrite <- Hr. unfold Parse. by destruct (loop _ _ _) as [[rest l'] r].
Qed.

(** C9. [Parse] never returns the error of the branch "node stack is
    empty": in every state the loop reaches, the node stack has [root] at
    its bottom, so that no character data finds it empty; nor does
    [Parse] ever index a stack out of its range. *)
Theorem node_stack_never_empty p :
  snd (Parse p) <> Error NodeStackEmpty
  /\ snd (Parse p) <> Panicked
  /\ forall tokens s,
       run tokens (initial (currentLine p)) = Continue s ->
       index (nodeStack s) 0 = Some root
       /\ nodeStack s <> []
       /\ forall ele l, step (xml.TCharData ele) s <> Fail l NodeStackEmpty.
Proof.
  split; [|split].
  - rewrite Parse_result.
    pose proof (run_stops (xml.pending (d p)) (initial (currentLine p))) as Hstop.
    destruct (run (xml.pending (d p)) (initial (currentLine p))) as [s|l e|l];
      [apply tokenError_not_NodeStackEmpty| |done].
    destruct Hstop as (pre & token & post & s1 & _ & Hpre & Hfail).
    apply run_Inv in Hpre; [|apply Inv_initial].
    intros [= ->]. by apply step_never_NodeStackEmpty in Hfail.
  - rewrite Parse_result.
    destruct (run (xml.pending (d p)) (initial (currentLine p))) as [s|l e|l] eqn:Hrun;
      [|done|].
    + apply tokenError_no_panic. eapply run_Inv; [apply Inv_initial|done].
    + by apply run_no_panic in Hrun; [|apply Inv_initial].
  - intros tokens s Hrun.
    pose proof (run_Inv tokens _ s (Inv_initial _) Hrun) as Hinv.
    pose proof Hinv as [(_ & Hroot & _) _].
    split; [done|]. split.
    + intros E. rewrite E in Hroot. by rewrite index_nil in Hroot.
    + intros ele l. by apply step_never_NodeStackEmpty.
Qed.

(** ** Character data *)

Lemma TrimSpace_asciiSpace ele :
  forallb asciiSpace ele = true -> TrimSpace ele = [].
Proof.
  induction ele as [|c ele IH]; simpl; [done|].
  intros H. apply andb_prop in H as [Hc Hele]. rewrite Hc.
  destruct (notASCII c) eqn:Hn; [by destruct c|by apply IH].
Qed.

Lemma blank_asciiSpace ele :
  forallb blank ele = true -> forallb asciiSpace ele = true.
Proof.
  induction ele as [|c ele IH]; simpl; [done|].
  intros H. apply andb_prop in H as [Hc Hele]. rewrite (IH Hele).
  by destruct c.
Qed.

(** The node on top of the node stack, in a state of the invariant. *)
Lemma Inv_top s :
  Inv s ->
  exists ns parent (pn : Node),
    nodeStack s = ns ++ [parent] /\ heap s !! parent = Some pn
    /\ kind pn <> DataNode.
Proof.
  intros [Hbal Hwf].
  assert (exists ns parent, nodeStack s = ns ++ [parent]) as (ns & parent & Hns).
  { destruct (Balanced_shape s Hbal)
      as [[_ Hns]|(_ & _ & ns & parent & popNode & _ & Hns)].
    - by exists [], root.
    - exists (ns ++ [parent]), popNode. by rewrite <- app_assoc. }
  destruct (wf_stack_nodes _ _ Hwf parent) as (pn & Hp & Hk).
  { rewrite Hns. apply elem_of_app. right. by apply list_elem_of_singleton. }
  by exists ns, parent, pn.
Qed.

(** What character data that is not blank does, in a state of the
    invariant. *)
Lemma step_CharData_Inv ele s :
  Inv s -> TrimSpace ele <> [] ->
  exists ns parent (pn : Node),
    nodeStack s = ns ++ [parent] /\ heap s !! parent = Some pn
    /\ children (AddChild (length (heap s)) pn)
       = children pn ++ [length (heap s)]
    /\ step (xml.TCharData ele) s
       = match scan (TrimSpace ele) with
         | inl err => Fail (countLines ele (line s)) (DataScanError err)
         | inr segs =>
             Continue
               {| line := countLines ele (line s);
                  heap := <[parent := AddChild (length (heap s)) pn]>
                            (heap s ++ [dataNodeOf (TrimSpace ele) segs]);
                  startElementStack := startElementStack s;
                  nodeStack := nodeStack s |}
         end.
Proof.
  intros Hinv Hdata. destruct (Inv_top s Hinv) as (ns & parent & pn & Hns & Hp & Hk).
  exists ns, parent, pn. split; [done|]. split; [done|].
  split; [by apply children_AddChild|].
  pose proof (scan_Scan (TrimSpace ele)) as Hscan.
  destruct (scan (TrimSpace ele)) as [err|segs].
  - by apply step_CharData_scan_error.
  - erewrite step_CharData_data by eauto.
    by rewrite (alter_as_insert _ _ _ pn) by by apply lookup_app_l_Some.
Qed.


(** ** The line counter *)

Lemma newlines_nonneg ele : 0 <= newlines ele.
Proof. induction ele as [|b ele IH]; simpl; [done|]. destruct (Byte.eqb _ _); lia. Qed.

Lemma newlinesOf_nonneg token : 0 <= newlinesOf token.
Proof. destruct token; simpl; try done; apply newlines_nonneg. Qed.

Lemma totalNewlines_nonneg tokens : 0 <= totalNewlines tokens.
Proof.
  induction tokens as [|token tokens IH]; simpl; [done|].
  pose proof (newlinesOf_nonneg token). lia.
Qed.

Lemma totalNewlines_app t1 t2 :
  totalNewlines (t1 ++ t2) = totalNewlines t1 + totalNewlines t2.
Proof. induction t1 as [|token t1 IH]; simpl; lia. Qed.

(** The loop over the bytes of a chunk does [p.currentLine++] once for
    each newline byte. *)
Lemma countLines_iter ele l :
  countLines ele l = Nat.iter (Z.to_nat (newlines ele)) uint_incr l.
Proof.
  unfold countLines. revert l.
  induction ele as [|b ele IH]; intros l; simpl; [done|].
  rewrite IH. pose proof (newlines_nonneg ele).
  destruct (Byte.eqb b newline).
  - replace (Z.to_nat (1 + newlines ele)) with (S (Z.to_nat (newlines ele))) by lia.
    by rewrite Nat.iter_succ_r.
  - done.
Qed.

Lemma iter_uint_incr (k : nat) l :
  0 <= l -> l + Z.of_nat k < uint_modulus ->
  Nat.iter k uint_incr l = l + Z.of_nat k.
Proof.
  induction k as [|k IH]; intros Hl Hk; simpl; [lia|].
  rewrite IH by lia. unfold uint_incr. rewrite Z.mod_small; lia.
Qed.

Lemma countLines_exact ele l :
  0 <= l -> l + newlines ele < uint_modulus ->
  countLines ele l = l + newlines ele.
Proof.
  intros Hl Hn. pose proof (newlines_nonneg ele).
  rewrite countLines_iter, iter_uint_incr; lia.
Qed.

(** [p.currentLine] after an iteration, however it ends. *)
Lemma step_line token s :
  lineOf (step token s)
  = match token with
    | xml.TCharData ele | xml.TComment ele => countLines ele (line s)
    | _ => line s
    end.
Proof.
  destruct token as [ele|ele|ele|ele|target inst|ele]; try done.
  - unfold step, orPanic.
    repeat match goal with
           | |- context [match ?x with _ => _ end] => destruct x; simpl; try done
           end.
  - unfold step, orPanic.
    repeat match goal with
           | |- context [match ?x with _ => _ end] => destruct x; simpl; try done
           end.
Qed.

Lemma step_line_exact token s :
  0 <= line s -> line s + newlinesOf token < uint_modulus ->
  lineOf (step token s) = line s + newlinesOf token.
Proof.
  intros Hl Hn. rewrite step_line.
  destruct token; simpl in *; try lia; by apply countLines_exact.
Qed.

Lemma run_line tokens s :
  0 <= line s -> line s + totalNewlines tokens < uint_modulus ->
  line s <= lineOf (run tokens s) <= line s + totalNewlines tokens
  /\ forall s', run tokens s = Continue s' ->
                line s' = line s + totalNewlines tokens.
Proof.
  revert s. induction tokens as [|token tokens IH]; intros s Hl Hn; simpl in *.
  - split; [lia|]. intros s' [= <-]. lia.
  - pose proof (newlinesOf_nonneg token). pose proof (totalNewlines_nonneg tokens).
    pose proof (step_line_exact token s Hl ltac:(lia)) as Hstep.
    destruct (step token s) as [s1|l e|l]; simpl in Hstep.
    + destruct (IH s1) as [Hb Hc]; [lia..|]. split; [lia|].
      intros s' Hrun. rewrite (Hc s' Hrun). lia.
    + simpl. split; [lia|done].
    + simpl. split; [lia|done].
Qed.

Lemma Parse_line p :
  currentLine (fst (Parse p))
  = lineOf (run (xml.pending (d p)) (initial (currentLine p))).
Proof.
  pose proof (loop_run (xml.pending (d p)) (xml.final (d p))
                (initial (currentLine p))) as [_ Hl].
  rewrite <- Hl. unfold Parse. by destruct (loop _ _ _) as [[rest l'] r].
Qed.

Lemma newlines_le_len ele : newlines ele <= len ele.
Proof.
  induction ele as [|b ele IH]; simpl; [done|].
  change (len (b :: ele)) with (Z.of_nat (S (length ele))).
  unfold len in IH. destruct (Byte.eqb b newline); lia.
Qed.

Lemma totalNewlines_le_totalBytes tokens :
  totalNewlines tokens <= totalBytes tokens.
Proof.
  induction tokens as [|token tokens IH]; simpl; [done|].
  assert (newlinesOf token <= chunkBytes token).
  { destruct token; simpl; try done; apply newlines_le_len. }
  lia.
Qed.

(** C8. An iteration on character data or on a comment does
    [p.currentLine++] once for each newline byte of the raw chunk,
    whether or not the chunk is blank and however the iteration ends; an
    iteration on any other token leaves the counter as it is.  The counter
    being a [uint], it never decreases as long as it does not wrap around:
    over tokens whose newline bytes, added to the counter, stay below
    2^64, the counter after more tokens is at least the counter after
    fewer, and after all of them it has grown by their number of newline
    bytes.  That is so for a parser of [NewParser] on any tokens whose
    chunks are, together, no longer than a Go string can be. *)
Theorem line_counter :
  (forall token s,
     lineOf (step token s)
     = Nat.iter (Z.to_nat (newlinesOf token)) uint_incr (line s))
  /\ (forall token s,
        (forall ele, token <> xml.TCharData ele /\ token <> xml.TComment ele) ->
        lineOf (step token s) = line s)
  /\ (forall t1 t2 s,
        0 <= line s ->
        line s + totalNewlines (t1 ++ t2) < uint_modulus ->
        line s <= lineOf (run t1 s) <= lineOf (run (t1 ++ t2) s)
        /\ forall s', run (t1 ++ t2) s = Continue s' ->
                      line s' = line s + totalNewlines (t1 ++ t2))
  /\ (forall p,
        0 <= currentLine p ->
        currentLine p + totalNewlines (xml.pending (d p)) < uint_modulus ->
        currentLine p <= currentLine (fst (Parse p)))
  /\ (forall dec t1 t2,
        totalBytes (xml.pending dec) <= maxInt ->
        xml.pending dec = t1 ++ t2 ->
        0 <= lineOf (run t1 (initial 0)) <= lineOf (run (t1 ++ t2) (initial 0))
        /\ lineOf (run (t1 ++ t2) (initial 0))
           = currentLine (fst (Parse (NewParser dec)))).
Proof.
  assert (Hmono : forall t1 t2 s,
             0 <= line s ->
             line s + totalNewlines (t1 ++ t2) < uint_modulus ->
             line s <= lineOf (run t1 s) <= lineOf (run (t1 ++ t2) s)
             /\ forall s', run (t1 ++ t2) s = Continue s' ->
                           line s' = line s + totalNewlines (t1 ++ t2)).
  { intros t1 t2 s Hl Hn. pose proof Hn as Hn'. rewrite totalNewlines_app in Hn.
    pose proof (totalNewlines_nonneg t1). pose proof (totalNewlines_nonneg t2).
    destruct (run_line t1 s Hl ltac:(lia)) as [Hb1 Hc1]. split.
    - split; [lia|]. rewrite run_app.
      destruct (run t1 s) as [s1|l e|l] eqn:Hrun1; [|done..].
      specialize (Hc1 s1 eq_refl). simpl.
      destruct (run_line t2 s1) as [Hb2 _]; lia.
    - intros s' Hrun. destruct (run_line (t1 ++ t2) s Hl Hn') as [_ Hc].
      by apply Hc. }
  split; [|split; [|split; [|split]]].
  - intros token s. rewrite step_line.
    destruct token; simpl; try done; apply countLines_iter.
  - intros token s Hother. rewrite step_line.
    destruct token as [ele|ele|ele|ele|target inst|ele]; try done.
    + by destruct (Hother ele) as [H _].
    + by destruct (Hother ele) as [_ H].
  - done.
  - intros p Hl Hn. rewrite Parse_line.
    by destruct (run_line (xml.pending (d p)) (initial (currentLine p)) Hl Hn)
      as [[Hlo _] _].
  - intros dec t1 t2 Hsize Hdec.
    pose proof (totalNewlines_le_totalBytes (xml.pending dec)) as Hle.
    rewrite Hdec in Hle, Hsize.
    destruct (Hmono t1 t2 (initial 0)) as [Hbounds _]; [done| |].
    { simpl. unfold maxInt, uint_modulus in *. lia. }
    split; [done|]. by rewrite Parse_line, <- Hdec.
Qed.

(** ** The data-segment tokenizer *)

Lemma openerStyle_openerByte st : openerStyle (openerByte st) = Some st.
Proof. by destruct st. Qed.

Lemma openerByte_not_lbrace st : Byte.eqb (openerByte st) lbrace = false.
Proof. by destruct st. Qed.

Lemma emit_emit (sa sb : list Segment) r :
  emit sa (emit sb r) = emit (sa ++ sb) r.
Proof. destruct r; simpl; [done|]. by rewrite app_assoc. Qed.

(** In plain mode, bytes without an opener only lengthen the run. *)
Lemma scanFrom_plain run pre rest :
  hasOpener pre = false ->
  (forall b rest', rest = b :: rest' -> Byte.eqb b lbrace = false) ->
  scanFrom (Plain run) (pre ++ rest) = scanFrom (Plain (run ++ pre)) rest.
Proof.
  revert run. induction pre as [|b pre IH]; intros run Hno Hrest; simpl.
  - by rewrite app_nil_r.
  - simpl in Hno.
    replace (run ++ b :: pre) with ((run ++ [b]) ++ pre) by (by rewrite <- app_assoc).
    destruct (openerStyle b) as [st|].
    + destruct pre as [|c pre']; simpl in *.
      * rewrite app_nil_r. destruct rest as [|c rest']; [done|].
        by rewrite (Hrest c rest' eq_refl).
      * apply orb_false_elim in Hno as [Hc Hno]. rewrite Hc.
        by apply (IH (run ++ [b])).
    + destruct (pre ++ rest); by apply (IH (run ++ [b])).
Qed.

Lemma scanFrom_plain_end run input :
  hasOpener input = false ->
  scanFrom (Plain run) input = inr (emitLiteral (run ++ input)).
Proof.
  intros Hno. rewrite <- (app_nil_r input) at 1.
  by rewrite scanFrom_plain.
Qed.

(** In plain mode, an opener ends the run and enters the placeholder. *)
Lemma scanFrom_opener run st rest :
  scanFrom (Plain run) (opener st ++ rest)
  = emit (emitLiteral run) (scanFrom (InPlaceholder st []) rest).
Proof. by destruct st. Qed.

(** Inside a placeholder, the bytes up to the first [}] are its inner
    text. *)
Lemma scanFrom_placeholder st acc inner rest :
  hasClose inner = false ->
  scanFrom (InPlaceholder st acc) (inner ++ rbrace :: rest)
  = emit [Placeholder (acc ++ inner) st] (scanFrom (Plain []) rest).
Proof.
  revert acc. induction inner as [|b inner IH]; intros acc Hno; simpl.
  - by rewrite app_nil_r.
  - simpl in Hno. apply orb_false_elim in Hno as [Hb Hno]. rewrite Hb.
    rewrite IH by done. by rewrite <- app_assoc.
Qed.

Lemma scanFrom_unterminated st acc inner :
  hasClose inner = false ->
  scanFrom (InPlaceholder st acc) inner = inl UnterminatedPlaceholder.
Proof.
  revert acc. induction inner as [|b inner IH]; intros acc Hno; simpl; [done|].
  simpl in Hno. apply orb_false_elim in Hno as [Hb Hno]. rewrite Hb.
  by apply IH.
Qed.

Lemma emit_inl segs r e : r = inl e -> emit segs r = inl e.
Proof. by intros ->. Qed.

Lemma emit_inr_inv segs r out :
  emit segs r = inr out -> exists rest, r = inr rest.
Proof. destruct r as [e|rest]; [done|]. by exists rest. Qed.

(** The four moves of the scanner on a byte. *)
Lemma scanFrom_plain_opener run b st (c : byte) rest :
  openerStyle b = Some st -> Byte.eqb c lbrace = true ->
  scanFrom (Plain run) (b :: c :: rest)
  = emit (emitLiteral run) (scanFrom (InPlaceholder st []) rest).
Proof. intros Hb Hc. simpl. by rewrite Hb, Hc. Qed.

Lemma scanFrom_plain_other run b rest :
  (forall st (c : byte) rest', openerStyle b = Some st -> rest = c :: rest' ->
                      Byte.eqb c lbrace = false) ->
  scanFrom (Plain run) (b :: rest) = scanFrom (Plain (run ++ [b])) rest.
Proof.
  intros Hother. simpl. destruct (openerStyle b) as [st|]; [|by destruct rest].
  destruct rest as [|c rest']; [done|]. by rewrite (Hother st c rest').
Qed.

Lemma scanFrom_placeholder_close st acc b rest :
  Byte.eqb b rbrace = true ->
  scanFrom (InPlaceholder st acc) (b :: rest)
  = emit [Placeholder acc st] (scanFrom (Plain []) rest).
Proof. intros Hb. simpl. by rewrite Hb. Qed.

Lemma scanFrom_placeholder_other st acc b rest :
  Byte.eqb b rbrace = false ->
  scanFrom (InPlaceholder st acc) (b :: rest)
  = scanFrom (InPlaceholder st (acc ++ [b])) rest.
Proof. intros Hb. simpl. by rewrite Hb. Qed.

(** After bytes the scanner accepts, an opener that no [}] follows is an
    unterminated placeholder. *)
Lemma scanFrom_accepts_then_unterminated (k : nat) :
  forall m pre segs st inner,
    length pre = k ->
    scanFrom m pre = inr segs ->
    hasClose inner = false ->
    scanFrom m (pre ++ opener st ++ inner) = inl UnterminatedPlaceholder.
Proof.
  induction k as [k IH] using lt_wf_ind.
  intros m pre segs st inner Hk Hpre Hno.
  destruct pre as [|b pre].
  { destruct m as [run|st' acc]; [|done]. rewrite app_nil_l.
    rewrite (scanFrom_opener run st inner).
    by apply emit_inl, scanFrom_unterminated. }
  simpl in Hk. rewrite <- app_comm_cons. destruct m as [run|st' acc].
  - assert (Hcases :
      (exists st' (c : byte) pre', openerStyle b = Some st' /\ pre = c :: pre'
                          /\ Byte.eqb c lbrace = true)
      \/ (forall st' (c : byte) rest', openerStyle b = Some st' ->
            pre ++ opener st ++ inner = c :: rest' ->
            Byte.eqb c lbrace = false)).
    { destruct (openerStyle b) as [st'|]; [|by right].
      destruct pre as [|c pre'].
      - right. intros ? c rest' _ [= <- _]. apply openerByte_not_lbrace.
      - destruct (Byte.eqb c lbrace) eqn:Hc.
        + left. by exists st', c, pre'.
        + right. by intros ? ? ? _ [= <- _]. }
    destruct Hcases as [(st' & c & pre' & Hb & -> & Hc)|Hother].
    + rewrite <- app_comm_cons.
      rewrite (scanFrom_plain_opener _ _ st') in Hpre |- * by done.
      apply emit_inr_inv in Hpre as [out Hout]. apply emit_inl.
      simpl in Hk. by apply (IH (length pre') ltac:(lia) _ pre' out).
    + rewrite scanFrom_plain_other in Hpre.
      2: { intros st' c rest' Hb ->. apply (Hother st' c (rest' ++ opener st ++ inner) Hb).
           by rewrite <- app_comm_cons. }
      rewrite scanFrom_plain_other by done.
      by apply (IH (length pre) ltac:(lia) _ pre segs).
  - destruct (Byte.eqb b rbrace) eqn:Hb.
    + rewrite scanFrom_placeholder_close in Hpre |- * by done.
      apply emit_inr_inv in Hpre as [out Hout]. apply emit_inl.
      by apply (IH (length pre) ltac:(lia) _ pre out).
    + rewrite scanFrom_placeholder_other in Hpre |- * by done.
      by apply (IH (length pre) ltac:(lia) _ pre segs).
Qed.

(** *** What the tokenizer emits, read back *)

Lemma openerStyle_Some b st : openerStyle b = Some st -> b = openerByte st.
Proof.
  unfold openerStyle. destruct (Byte.eqb b hash) eqn:Hh.
  - intros [= <-]. by apply Byte.byte_dec_bl in Hh.
  - destruct (Byte.eqb b dollar) eqn:Hd; [|done].
    intros [= <-]. by apply Byte.byte_dec_bl in Hd.
Qed.

Lemma emit_inr segs r out :
  emit segs r = inr out -> exists rest, r = inr rest /\ out = segs ++ rest.
Proof. destruct r as [e|rest]; [done|]. intros [= <-]. by exists rest. Qed.

(** The segments of an accepted input, rendered, are the input. *)
Lemma scanFrom_render (k : nat) :
  forall m input segs,
    length input = k ->
    scanFrom m input = inr segs ->
    renderAll segs = consumed m ++ input.
Proof.
  induction k as [k IH] using lt_wf_ind.
  intros m input segs Hk Hscan. destruct input as [|b input].
  { destruct m as [run|st acc]; [|done]. injection Hscan as <-.
    rewrite app_nil_r. unfold renderAll. destruct run; simpl; [done|].
    by rewrite app_nil_r. }
  simpl in Hk. destruct m as [run|st acc].
  - assert (Hcases :
      (exists st (c : byte) rest, openerStyle b = Some st /\ input = c :: rest
                                  /\ Byte.eqb c lbrace = true)
      \/ (forall st (c : byte) rest, openerStyle b = Some st ->
            input = c :: rest -> Byte.eqb c lbrace = false)).
    { destruct (openerStyle b) as [st|]; [|by right].
      destruct input as [|c rest]; [by right|].
      destruct (Byte.eqb c lbrace) eqn:Hc.
      - left. by exists st, c, rest.
      - right. by intros ? ? ? _ [= <- _]. }
    destruct Hcases as [(st & c & rest & Hb & -> & Hc)|Hother].
    + rewrite (scanFrom_plain_opener _ _ st) in Hscan by done.
      apply emit_inr in Hscan as (segs' & Hscan & ->). simpl in Hk.
      apply (IH (length rest) ltac:(lia)) in Hscan; [|done].
      apply openerStyle_Some in Hb as ->. apply Byte.byte_dec_bl in Hc as ->.
      unfold renderAll in *. rewrite map_app, concat_app, Hscan.
      by destruct run; simpl; rewrite ?app_nil_r.
    + rewrite scanFrom_plain_other in Hscan by done.
      apply (IH (length input) ltac:(lia)) in Hscan; [|done].
      rewrite Hscan. simpl. by rewrite <- app_assoc.
  - destruct (Byte.eqb b rbrace) eqn:Hb.
    + rewrite scanFrom_placeholder_close in Hscan by done.
      apply emit_inr in Hscan as (segs' & Hscan & ->).
      apply (IH (length input) ltac:(lia)) in Hscan; [|done].
      apply Byte.byte_dec_bl in Hb as ->.
      unfold renderAll in *. simpl. rewrite Hscan. simpl.
      by rewrite <- !app_assoc.
    + rewrite scanFrom_placeholder_other in Hscan by done.
      apply (IH (length input) ltac:(lia)) in Hscan; [|done].
      rewrite Hscan. simpl. by rewrite <- !app_assoc.
Qed.

Lemma hasOpener_single b : hasOpener [b] = false.
Proof. simpl. by destruct (openerStyle b). Qed.

Lemma hasOpener_cons_cons b (c : byte) rest :
  hasOpener (b :: c :: rest)
  = match openerStyle b with
    | Some _ => Byte.eqb c lbrace || hasOpener (c :: rest)
    | None => hasOpener (c :: rest)
    end.
Proof. reflexivity. Qed.

Lemma hasOpener_app_l pre post :
  hasOpener (pre ++ post) = false -> hasOpener pre = false.
Proof.
  induction pre as [|b pre IH]; [done|]. destruct pre as [|c pre].
  - intros _. apply hasOpener_single.
  - simpl app in *. rewrite !hasOpener_cons_cons.
    destruct (openerStyle b); [|done].
    intros H. apply orb_false_elim in H as [-> H]. by apply IH.
Qed.

Lemma hasOpener_snoc pre b (c : byte) :
  hasOpener (pre ++ [b]) = false ->
  (forall st, openerStyle b = Some st -> Byte.eqb c lbrace = false) ->
  hasOpener (pre ++ [b; c]) = false.
Proof.
  intros Hpre Hbc. induction pre as [|a pre IH].
  - simpl app. rewrite hasOpener_cons_cons, hasOpener_single.
    destruct (openerStyle b) as [st|] eqn:Hb; [|done]. by rewrite (Hbc st).
  - destruct pre as [|a' pre].
    + simpl app in *. rewrite hasOpener_cons_cons in Hpre |- *.
      destruct (openerStyle a).
      * apply orb_false_elim in Hpre as [-> Hpre]. by apply IH.
      * by apply IH.
    + simpl app in *. rewrite hasOpener_cons_cons in Hpre |- *.
      destruct (openerStyle a).
      * apply orb_false_elim in Hpre as [-> Hpre]. by apply IH.
      * by apply IH.
Qed.

Lemma hasClose_snoc acc b :
  hasClose acc = false -> Byte.eqb b rbrace = false ->
  hasClose (acc ++ [b]) = false.
Proof.
  intros Hacc Hb. unfold hasClose in *. rewrite existsb_app, Hacc. simpl.
  by rewrite Hb.
Qed.

Lemma shaped_emitLiteral run segs :
  hasOpener run = false ->
  shaped segs = true ->
  (exists e st rest, segs = Placeholder e st :: rest) \/ segs = [] ->
  shaped (emitLiteral run ++ segs) = true.
Proof.
  intros Hrun Hsegs Hfirst. destruct run as [|b run]; [done|].
  change (emitLiteral (b :: run) ++ segs) with (Literal (b :: run) :: segs).
  cbn [shaped]. rewrite Hrun, Hsegs.
  by destruct Hfirst as [(e & st & rest & ->)| ->].
Qed.

(** The segments of an accepted input have the shape of [shaped]. *)
Lemma scanFrom_shaped (k : nat) :
  forall m input segs,
    length input = k ->
    modeOk m input ->
    scanFrom m input = inr segs ->
    emitsFrom m segs.
Proof.
  induction k as [k IH] using lt_wf_ind.
  intros m input segs Hk Hok Hscan. destruct input as [|b input].
  { destruct m as [run|st acc]; [|done]. injection Hscan as <-.
    simpl in Hok. rewrite app_nil_r in Hok. unfold emitsFrom.
    rewrite <- (app_nil_r (emitLiteral run)).
    apply shaped_emitLiteral; [done..|by right]. }
  simpl in Hk. destruct m as [run|st acc].
  - simpl in Hok.
    assert (Hcases :
      (exists st (c : byte) rest, openerStyle b = Some st /\ input = c :: rest
                                  /\ Byte.eqb c lbrace = true)
      \/ (forall st (c : byte) rest, openerStyle b = Some st ->
            input = c :: rest -> Byte.eqb c lbrace = false)).
    { destruct (openerStyle b) as [st|]; [|by right].
      destruct input as [|c rest]; [by right|].
      destruct (Byte.eqb c lbrace) eqn:Hc.
      - left. by exists st, c, rest.
      - right. by intros ? ? ? _ [= <- _]. }
    destruct Hcases as [(st & c & rest & Hb & -> & Hc)|Hother].
    + rewrite (scanFrom_plain_opener _ _ st) in Hscan by done.
      apply emit_inr in Hscan as (segs' & Hscan & ->). simpl in Hk.
      apply (IH (length rest) ltac:(lia)) in Hscan; [|done..].
      destruct Hscan as [Hshaped (e & rest' & ->)]. unfold emitsFrom.
      apply shaped_emitLiteral; [by eapply hasOpener_app_l|done|].
      left. by exists e, st, rest'.
    + rewrite scanFrom_plain_other in Hscan by done.
      apply (IH (length input) ltac:(lia)) in Hscan; [done..|].
      simpl. rewrite <- app_assoc. destruct input as [|c rest]; [done|].
      simpl. apply hasOpener_snoc; [done|].
      intros st Hb. by apply (Hother st c rest).
  - simpl in Hok. destruct (Byte.eqb b rbrace) eqn:Hb.
    + rewrite scanFrom_placeholder_close in Hscan by done.
      apply emit_inr in Hscan as (segs' & Hscan & ->).
      apply (IH (length input) ltac:(lia)) in Hscan; [|done|].
      * unfold emitsFrom in *. split; [|by exists acc, segs'].
        simpl. by rewrite Hok, Hscan.
      * simpl. destruct input; [done|apply hasOpener_single].
    + rewrite scanFrom_placeholder_other in Hscan by done.
      apply (IH (length input) ltac:(lia)) in Hscan; [done..|].
      simpl. by apply hasClose_snoc.
Qed.

Lemma emit_nil_l r : emit [] r = r.
Proof. by destruct r. Qed.

(** Shaped segments are what the tokenizer emits on their rendering. *)
Lemma scan_renderAll segs :
  shaped segs = true -> scan (renderAll segs) = inr segs.
Proof.
  induction segs as [|seg segs IH]; [done|]. intros Hshaped.
  destruct seg as [t|e st].
  - cbn [shaped] in Hshaped.
    apply andb_prop in Hshaped as [Hshaped Hrest].
    apply andb_prop in Hshaped as [Hshaped Hnext].
    apply andb_prop in Hshaped as [Hlen Hopener].
    apply negb_true_iff in Hopener. apply negb_true_iff in Hlen.
    specialize (IH Hrest). unfold renderAll in *. cbn [map concat render].
    destruct segs as [|[t'|e st] segs]; [|done|].
    + simpl. rewrite app_nil_r. unfold scan. rewrite scanFrom_plain_end by done.
      destruct t; [done|]. done.
    + unfold scan in *. rewrite scanFrom_plain.
      * cbn [map concat render] in *. rewrite <- app_assoc in *.
        rewrite scanFrom_opener in *. rewrite emit_nil_l in IH.
        rewrite IH. simpl. by destruct t.
      * done.
      * cbn [map concat render]. intros b rest' [= <- _].
        apply openerByte_not_lbrace.
  - cbn [shaped] in Hshaped. apply andb_prop in Hshaped as [Hclose Hrest].
    apply negb_true_iff in Hclose. specialize (IH Hrest).
    unfold renderAll in *. cbn [map concat render]. unfold scan in *.
    rewrite <- !app_assoc. rewrite scanFrom_opener. simpl app.
    rewrite scanFrom_placeholder by done. by rewrite IH.
Qed.

(** C5.  At an opener that follows bytes [pre] without opener and that
    a [}] closes after the bytes [inner], the tokenizer emits [pre] as a
    [Literal], unless [pre] is empty, then a [Placeholder] with [inner]
    and the style of the opener, bind for [#{] and substitution for
    [${], and goes on with what follows the [}]; an opener that nothing
    closes is the failure of C6.  So it does at each opener of an input
    it accepts: the segments it returns are the one way to cut the input
    into [Literal]s without opener and [Placeholder]s, no two [Literal]s
    in a row.  Bytes without opener, if there is one byte at least,
    yield the one [Literal] of these bytes.  No bytes yield no
    segment. *)
Theorem scan_segments :
  (forall pre st inner rest,
     hasOpener pre = false ->
     hasClose inner = false ->
     scan (pre ++ opener st ++ inner ++ rbrace :: rest)
     = emit (emitLiteral pre ++ [Placeholder inner st]) (scan rest))
  /\ (opener Bind = text "#{" /\ opener Substitution = text "${")
  /\ (forall input segs,
        scan input = inr segs
        <-> renderAll segs = input /\ shaped segs = true)
  /\ (forall input,
        hasOpener input = false -> input <> [] ->
        scan input = inr [Literal input])
  /\ scan [] = inr [].
Proof.
  split; [|split; [|split; [|split]]].
  - intros pre st inner rest Hpre Hinner. unfold scan.
    rewrite scanFrom_plain.
    + simpl app at 1. rewrite scanFrom_opener, scanFrom_placeholder by done.
      simpl app at 2. by rewrite emit_emit.
    + done.
    + intros b rest' [= <- _]. apply openerByte_not_lbrace.
  - done.
  - intros input segs. split.
    + intros Hscan. split.
      * by apply (scanFrom_render (length input) (Plain [])).
      * apply (scanFrom_shaped (length input) (Plain []) input); [done| |done].
        simpl. destruct input; [done|apply hasOpener_single].
    + intros [<- Hshaped]. by apply scan_renderAll.
  - intros input Hno Hne. unfold scan. rewrite scanFrom_plain_end by done.
    by destruct input.
  - done.
Qed.

Lemma scan_accepts_then_unterminated pre segs st inner :
  scan pre = inr segs ->
  hasClose inner = false ->
  scan (pre ++ opener st ++ inner) = inl UnterminatedPlaceholder.
Proof.
  intros Hpre Hno.
  by apply (scanFrom_accepts_then_unterminated (length pre) _ pre segs).
Qed.

(** C6. An opener that comes after bytes the tokenizer accepts, and that
    no [}] follows before the chunk ends, makes the tokenizer fail with
    [UnterminatedPlaceholder]; and a failure of the tokenizer on the
    trimmed text of character data makes the iteration, and [Parse] with
    it, return a [DataScanError] that has the tokenizer's error as its
    cause. *)
Theorem unterminated_placeholder_aborts :
  (forall pre segs st inner,
     scan pre = inr segs ->
     hasClose inner = false ->
     scan (pre ++ opener st ++ inner) = inl UnterminatedPlaceholder)
  /\ (forall ele s err,
        scan (TrimSpace ele) = inl err ->
        step (xml.TCharData ele) s
        = Fail (countLines ele (line s)) (DataScanError err))
  /\ (forall p pre ele post s err,
        xml.pending (d p) = pre ++ xml.TCharData ele :: post ->
        run pre (initial (currentLine p)) = Continue s ->
        scan (TrimSpace ele) = inl err ->
        snd (Parse p) = Error (DataScanError err)).
Proof.
  assert (Hstep : forall ele s err,
             scan (TrimSpace ele) = inl err ->
             step (xml.TCharData ele) s
             = Fail (countLines ele (line s)) (DataScanError err)).
  { intros ele s err Hscan. apply step_CharData_scan_error.
    - intros Hblank. by rewrite Hblank in Hscan.
    - by rewrite scan_Scan, Hscan. }
  split; [apply scan_accepts_then_unterminated|]. split; [done|].
  intros p pre ele post s err Hp Hrun Hscan.
  rewrite Parse_result, Hp, run_app, Hrun, run_cons.
  by rewrite (Hstep ele s err).
Qed.

(** ** Pruning *)

Lemma newNodeByStartElement_unknown ele :
  known (xml.Local (xml.StartElement_Name ele)) = false ->
  newNodeByStartElement ele = NewEmptyNode.
Proof.
  unfold known, newNodeByStartElement. simpl. intros H.
  repeat (apply orb_false_elim in H as [? H]).
  repeat match goal with E : String.eqb _ _ = false |- _ => rewrite E; clear E end.
  done.
Qed.

Lemma newNodeByStartElement_known ele :
  known (xml.Local (xml.StartElement_Name ele)) = true ->
  kind (newNodeByStartElement ele) <> EmptyNode.
Proof.
  unfold known, newNodeByStartElement. simpl. intros H.
  repeat match goal with |- context [String.eqb ?a ?b] =>
           destruct (String.eqb a b); simpl in *; try done end.
Qed.

Lemma Hidden_unreachable h a b x :
  Hidden h a b -> ~ (a <= root < b)%nat ->
  reachable h root x -> ~ (a <= x < b)%nat.
Proof.
  intros Hh Hroot Hreach. induction Hreach as [|y c _ IH Hyc]; [done|].
  intros Hc. by apply IH, (Hh y c).
Qed.

(** While [a] is on the node stack, whatever is not older than [a] is
    hidden. *)
Lemma open_Hidden h ns a :
  WellFormed h ns -> a ∈ ns -> Hidden h a (length h).
Proof.
  intros Hwf Ha y c Hyc [Hac Hc]. split.
  - destruct (decide (a <= y)%nat) as [|Hlt]; [done|].
    pose proof (wf_older _ _ Hwf a y c Ha ltac:(lia) Hyc). lia.
  - destruct Hyc as (n & Hn & _). by apply lookup_lt_Some in Hn.
Qed.

Lemma HeapStep_length h ns h' ns' :
  HeapStep h ns h' ns' -> (length h <= length h')%nat.
Proof.
  intros Hstep. destruct Hstep; rewrite ?length_alter, ?length_app; simpl; lia.
Qed.

Lemma HeapStep_kind h ns h' ns' a (k : NodeKind) :
  HeapStep h ns h' ns' ->
  (exists n, h !! a = Some n /\ kind n = k) ->
  exists n, h' !! a = Some n /\ kind n = k.
Proof.
  intros Hstep (n & Hn & Hk). destruct Hstep.
  - exists n. split; [by apply lookup_app_l_Some|done].
  - by exists n.
  - apply (lookup_addChild_kind _ _ _ _ (fun k' => k' = k)). by exists n.
  - apply (lookup_addChild_kind _ _ _ _ (fun k' => k' = k)).
    exists n. split; [by apply lookup_app_l_Some|done].
  - by exists n.
Qed.

Lemma HeapStep_Sealed h ns h' ns' a b :
  Sealed h ns a b -> HeapStep h ns h' ns' -> Sealed h' ns' a b.
Proof.
  intros (Hh & Hns & Hb) Hstep.
  destruct Hstep as
    [h ns n Hch Hk|h ns parent popNode c Hc Hk|h ns parent popNode c Hc Hk
    |h ns parent n Hch Hk|h ns].
  - split; [|split].
    + intros y c Hyc. apply childOf_alloc in Hyc; [|done]. by apply Hh.
    + intros z Hz. apply elem_of_app in Hz as [Hz|Hz]; [by apply Hns|].
      apply list_elem_of_singleton in Hz as ->. lia.
    + rewrite length_app. lia.
  - split; [done|]. split; [|done].
    intros z Hz. apply Hns. apply elem_of_app in Hz as [Hz|Hz];
      apply elem_of_app; [by left|right].
    apply list_elem_of_singleton in Hz as ->. apply list_elem_of_In. simpl. auto.
  - split; [|split].
    + intros y c' Hyc Hc'. apply childOf_addChild in Hyc as [Hyc|[-> ->]];
        [by apply (Hh y c')|].
      exfalso. apply (Hns popNode); [|done].
      apply elem_of_app. right. apply list_elem_of_In. simpl. auto.
    + intros z Hz. apply Hns. apply elem_of_app in Hz as [Hz|Hz];
        apply elem_of_app; [by left|right].
      apply list_elem_of_singleton in Hz as ->. apply list_elem_of_In. simpl. auto.
    + by rewrite length_alter.
  - split; [|split].
    + intros y c Hyc Hc. apply childOf_addChild in Hyc as [Hyc|[-> ->]].
      * apply childOf_alloc in Hyc; [|done]. by apply (Hh y c).
      * lia.
    + done.
    + rewrite length_alter, length_app. lia.
  - done.
Qed.

(** An iteration leaves an [Empty] node on the node stack, or pops it and
    seals whatever is not older than it. *)
Lemma HeapStep_open h ns h' ns' a :
  WellFormed h ns -> HeapStep h ns h' ns' ->
  (exists n, h !! a = Some n /\ kind n = EmptyNode) ->
  a ∈ ns ->
  a ∈ ns' \/ (Sealed h' ns' a (length h) /\ length h' = length h).
Proof.
  intros Hwf Hstep (n & Hn & Hk) Ha.
  destruct Hstep as
    [h ns m Hch Hkm|h ns parent popNode c Hc Hkc|h ns parent popNode c Hc Hkc
    |h ns parent m Hch Hkm|h ns].
  - left. apply elem_of_app. by left.
  - replace (ns ++ [parent; popNode]) with ((ns ++ [parent]) ++ [popNode]) in *
      by (by rewrite <- app_assoc).
    apply elem_of_app in Ha as [Ha|Ha]; [by left|].
    apply list_elem_of_singleton in Ha as ->. right. split; [|done].
    split; [|split].
    + eapply open_Hidden; [done|]. apply elem_of_app. right.
      by apply list_elem_of_singleton.
    + intros z Hz [Hle _]. apply list_elem_of_lookup in Hz as [i Hi].
      pose proof (lookup_lt_Some _ _ _ Hi) as Hlt.
      assert (Hpop : ((ns ++ [parent]) ++ [popNode]) !! length (ns ++ [parent])
                     = Some popNode) by by apply list_lookup_middle.
      pose proof (wf_stack_sorted _ _ Hwf i (length (ns ++ [parent])) z popNode
                    (lookup_app_l_Some _ _ _ _ Hi) Hpop Hlt). lia.
    + done.
  - replace (ns ++ [parent; popNode]) with ((ns ++ [parent]) ++ [popNode]) in *
      by (by rewrite <- app_assoc).
    apply elem_of_app in Ha as [Ha|Ha]; [by left|].
    apply list_elem_of_singleton in Ha as ->. congruence.
  - by left.
  - by left.
Qed.

(** What is not older than an [Empty] node, and was allocated while that
    node was on the node stack or before it was sealed, is never in the
    tree under [root]. *)
Lemma pruned_stays_unreachable tokens :
  forall s sf a x,
    Inv s ->
    (exists n, heap s !! a = Some n /\ kind n = EmptyNode) ->
    (a <= x)%nat ->
    (a ∈ nodeStack s /\ (x < length (heap s))%nat)
    \/ (exists b, (x < b)%nat /\ Sealed (heap s) (nodeStack s) a b) ->
    run tokens s = Continue sf ->
    ~ reachable (heap sf) root x.
Proof.
  induction tokens as [|token tokens IH]; intros s sf a x Hinv Ha Hax Hcase Hrun;
    simpl in Hrun.
  - injection Hrun as <-. destruct Hinv as [(_ & _ & (r & Hr & Hkr)) Hwf].
    assert (Hroot : forall b, ~ (a <= root < b)%nat).
    { intros b [Hle _]. destruct Ha as (n & Hn & Hk).
      assert (a = root) as -> by (unfold root in *; lia). congruence. }
    intros Hreach. destruct Hcase as [[Hin Hx]|(b & Hx & (Hh & _ & _))].
    + eapply Hidden_unreachable; [by eapply open_Hidden|apply Hroot|done|lia].
    + eapply Hidden_unreachable; [done|apply Hroot|done|lia].
  - destruct (step token s) as [s1|l e|l] eqn:Hstep; [|done..].
    pose proof (step_spec token s Hinv) as Hspec. rewrite Hstep in Hspec.
    destruct Hspec as [_ Hhs]. pose proof (step_Inv _ _ _ Hinv Hstep) as Hinv1.
    apply (IH s1 sf a x Hinv1); [by eapply HeapStep_kind|done| |done].
    pose proof (HeapStep_length _ _ _ _ Hhs) as Hlen.
    destruct Hcase as [[Hin Hx]|(b & Hx & Hsealed)].
    + destruct Hinv as [_ Hwf].
      destruct (HeapStep_open _ _ _ _ a Hwf Hhs Ha Hin) as [Hin1|[Hsealed _]].
      * left. split; [done|lia].
      * right. by exists (length (heap s)).
    + right. exists b. split; [done|]. by eapply HeapStep_Sealed.
Qed.

Lemma run_split pre token post s0 sf :
  run (pre ++ token :: post) s0 = Continue sf ->
  exists s s1,
    run pre s0 = Continue s /\ step token s = Continue s1
    /\ run post s1 = Continue sf.
Proof.
  rewrite run_app. destruct (run pre s0) as [s| |]; [|done..].
  rewrite run_cons. destruct (step token s) as [s1| |] eqn:Hstep; [|done..].
  intros Hpost. by exists s, s1.
Qed.

(** When [Parse] returns a tree, it is the one under [root] in the heap of
    the state after all the tokens, and no element is open. *)
Lemma Parse_Ok p r h :
  snd (Parse p) = Ok r h ->
  r = root
  /\ exists sf,
       run (xml.pending (d p)) (initial (currentLine p)) = Continue sf
       /\ h = heap sf /\ startElementStack sf = []
       /\ xml.final (d p) = xml.EOF.
Proof.
  rewrite Parse_result.
  destruct (run (xml.pending (d p)) (initial (currentLine p))) as [sf| |];
    [|done..].
  unfold tokenError. destruct (xml.final (d p)); [|done].
  destruct (len (startElementStack sf) =? 0) eqn:Hlen.
  - intros [= <- <-]. split; [done|]. exists sf.
    by apply len_zero_iff in Hlen.
  - by destruct (index _ _).
Qed.

(** C2. In an input that [Parse] accepts, an element whose name has no
    entry in the dispatch table is built as an [EmptyNode]; that node is
    not in the returned tree, nor is any node allocated while it is on
    the node stack, that is, any node of an element or of character data
    nested in the element at any depth; and no child pointer designates
    an [EmptyNode], in the returned heap or in any state the loop
    reaches. *)
Theorem unknown_elements_are_pruned p pre ele post r h :
  xml.pending (d p) = pre ++ xml.TStartElement ele :: post ->
  known (xml.Local (xml.StartElement_Name ele)) = false ->
  snd (Parse p) = Ok r h ->
  exists s s1,
    run pre (initial (currentLine p)) = Continue s
    /\ step (xml.TStartElement ele) s = Continue s1
    /\ heap s1 = heap s ++ [NewEmptyNode]
    /\ nodeStack s1 = nodeStack s ++ [length (heap s)]
    /\ (exists n, h !! length (heap s) = Some n /\ kind n = EmptyNode)
    /\ ~ reachable h r (length (heap s))
    /\ (forall mid token rest smid smid' x,
          post = mid ++ token :: rest ->
          run mid s1 = Continue smid ->
          length (heap s) ∈ nodeStack smid ->
          step token smid = Continue smid' ->
          (length (heap smid) <= x < length (heap smid'))%nat ->
          ~ reachable h r x)
    /\ (forall y c, childOf h y c ->
                    exists m, h !! c = Some m /\ kind m <> EmptyNode)
    /\ (forall l tokens s',
          run tokens (initial l) = Continue s' ->
          forall y c, childOf (heap s') y c ->
                      exists m, heap s' !! c = Some m /\ kind m <> EmptyNode).
Proof.
  intros Hp Hunknown Hok.
  apply Parse_Ok in Hok as (-> & sf & Hrun & -> & _ & _).
  rewrite Hp in Hrun. apply run_split in Hrun as (s & s1 & Hpre & Hstep & Hpost).
  pose proof (run_Inv _ _ _ (Inv_initial _) Hpre) as Hinv.
  pose proof (step_Inv _ _ _ Hinv Hstep) as Hinv1.
  pose proof (run_Inv _ _ _ Hinv1 Hpost) as Hinvf.
  set (a := length (heap s)).
  assert (heap s1 = heap s ++ [NewEmptyNode]
          /\ nodeStack s1 = nodeStack s ++ [a]) as [Hh1 Hns1].
  { rewrite step_StartElement, (newNodeByStartElement_unknown _ Hunknown) in Hstep.
    by injection Hstep as <-. }
  assert (Ha1 : exists n, heap s1 !! a = Some n /\ kind n = EmptyNode).
  { exists NewEmptyNode. split; [|done]. rewrite Hh1. by apply list_lookup_middle. }
  assert (Hin1 : a ∈ nodeStack s1).
  { rewrite Hns1. apply elem_of_app. right. by apply list_elem_of_singleton. }
  assert (Hkind : forall tokens s' s'',
             Inv s' -> run tokens s' = Continue s'' ->
             (exists n, heap s' !! a = Some n /\ kind n = EmptyNode) ->
             exists n, heap s'' !! a = Some n /\ kind n = EmptyNode).
  { induction tokens as [|token tokens IH]; intros s' s'' Hinv' Hrun Ha; simpl in Hrun.
    - by injection Hrun as <-.
    - destruct (step token s') as [s2| |] eqn:Hstep2; [|done..].
      pose proof (step_spec token s' Hinv') as Hspec. rewrite Hstep2 in Hspec.
      destruct Hspec as [_ Hhs].
      apply (IH s2 s''); [by eapply step_Inv|done|by eapply HeapStep_kind]. }
  exists s, s1. split; [done|]. split; [done|]. split; [done|]. split; [done|].
  split; [by apply (Hkind post s1 sf)|]. split; [|split; [|split]].
  - apply (pruned_stays_unreachable post s1 sf a a); [done..| |done].
    left. split; [done|]. rewrite Hh1, length_app. simpl. lia.
  - intros mid token rest smid smid' x -> Hmid Hin Htoken Hx.
    rewrite run_app, Hmid, run_cons, Htoken in Hpost.
    pose proof (run_Inv _ _ _ Hinv1 Hmid) as Hinvm.
    pose proof (Hkind mid s1 smid Hinv1 Hmid Ha1) as Ham.
    pose proof (step_spec token smid Hinvm) as Hspec. rewrite Htoken in Hspec.
    destruct Hspec as [_ Hhs]. pose proof Hinvm as [_ Hwfm].
    assert (Halloc : (a < length (heap smid))%nat).
    { destruct Ham as (n & Hn & _). by apply lookup_lt_Some in Hn. }
    apply (pruned_stays_unreachable rest smid' sf a x);
      [by eapply step_Inv|by eapply HeapStep_kind|lia| |done].
    destruct (HeapStep_open _ _ _ _ a Hwfm Hhs Ham Hin) as [Hin'|[_ Hlen]].
    + left. split; [done|lia].
    + lia.
  - destruct Hinvf as [_ Hwf]. apply (wf_children _ _ Hwf).
  - intros l tokens s' Hrun'.
    destruct (run_Inv _ _ _ (Inv_initial l) Hrun') as [_ Hwf].
    apply (wf_children _ _ Hwf).
Qed.

(** * The loop and the nesting of the tokens *)

(** An address is among those of a stack that is written out. *)
Ltac on_stack :=
  apply list_elem_of_In; rewrite ?in_app_iff; simpl; tauto.

Lemma blankChunk_true ele : blankChunk ele = true <-> TrimSpace ele = [].
Proof. apply len_zero_iff. Qed.

Lemma blankChunk_false ele : blankChunk ele = false <-> TrimSpace ele <> [].
Proof.
  rewrite <- blankChunk_true. destruct (blankChunk ele); split; congruence.
Qed.

(** What an iteration on an end element has found and done when it goes
    on. *)
Lemma step_EndElement_Continue ele s s' :
  Inv s -> step (xml.TEndElement ele) s = Continue s' ->
  exists es top ns parent popNode (popped : Node),
    startElementStack s = es ++ [top]
    /\ xml.Local (xml.EndElement_Name ele) = xml.Local (xml.StartElement_Name top)
    /\ nodeStack s = ns ++ [parent; popNode]
    /\ heap s !! popNode = Some popped
    /\ s' = {| line := line s;
               heap := if NodeKind_eqb (kind popped) EmptyNode then heap s
                       else alter (AddChild popNode) parent (heap s);
               startElementStack := es;
               nodeStack := ns ++ [parent] |}.
Proof.
  intros [Hb Hwf] Hstep.
  destruct (Balanced_shape _ Hb)
    as [[Hes _]|(es & top & ns & parent & popNode & Hes & Hns)].
  - rewrite (step_EndElement_unexpected _ _ Hes) in Hstep. discriminate.
  - destruct (string_dec (xml.Local (xml.EndElement_Name ele))
                         (xml.Local (xml.StartElement_Name top))) as [Heq|Hne].
    + destruct (wf_stack_nodes _ _ Hwf popNode) as (popped & Hpop & _).
      { rewrite Hns. on_stack. }
      destruct (wf_stack_nodes _ _ Hwf parent) as (pn & Hpar & _).
      { rewrite Hns. on_stack. }
      rewrite (step_EndElement_match _ _ _ _ _ _ _ _ Hes Heq Hns Hpop) in Hstep
        by (by rewrite Hpar).
      exists es, top, ns, parent, popNode, popped.
      repeat split; try done. congruence.
    + rewrite (step_EndElement_mismatch _ _ _ _ Hes Hne) in Hstep. discriminate.
Qed.

(** An end element of the name of the innermost open element goes
    through. *)
Lemma step_EndElement_closes ele s es top :
  Inv s ->
  startElementStack s = es ++ [top] ->
  xml.Local (xml.EndElement_Name ele) = xml.Local (xml.StartElement_Name top) ->
  exists ns parent popNode (popped : Node),
    nodeStack s = ns ++ [parent; popNode]
    /\ heap s !! popNode = Some popped
    /\ step (xml.TEndElement ele) s
       = Continue {| line := line s;
                     heap := if NodeKind_eqb (kind popped) EmptyNode then heap s
                             else alter (AddChild popNode) parent (heap s);
                     startElementStack := es;
                     nodeStack := ns ++ [parent] |}.
Proof.
  intros [Hb Hwf] Hes Heq.
  destruct (Balanced_shape _ Hb)
    as [[Hes' _]|(es' & top' & ns & parent & popNode & Hes' & Hns)].
  - rewrite Hes in Hes'. by destruct es.
  - rewrite Hes in Hes'. apply app_inj_tail in Hes' as [-> ->].
    destruct (wf_stack_nodes _ _ Hwf popNode) as (popped & Hpop & _).
    { rewrite Hns. on_stack. }
    destruct (wf_stack_nodes _ _ Hwf parent) as (pn & Hpar & _).
    { rewrite Hns. on_stack. }
    exists ns, parent, popNode, popped. split; [done|]. split; [done|].
    apply (step_EndElement_match _ _ _ _ _ _ _ _ Hes Heq Hns Hpop).
    by rewrite Hpar.
Qed.

(** What an iteration on character data does, in a state of the loop. *)
Lemma step_CharData_cases ele s :
  Inv s ->
  (blankChunk ele = true
   /\ step (xml.TCharData ele) s
      = Continue {| line := countLines ele (line s); heap := heap s;
                    startElementStack := startElementStack s;
                    nodeStack := nodeStack s |})
  \/ (blankChunk ele = false
      /\ exists err,
           scan (TrimSpace ele) = inl err
           /\ step (xml.TCharData ele) s
              = Fail (countLines ele (line s)) (DataScanError err))
  \/ (blankChunk ele = false
      /\ exists segs ns parent (pn : Node),
           scan (TrimSpace ele) = inr segs
           /\ nodeStack s = ns ++ [parent]
           /\ heap s !! parent = Some pn
           /\ kind pn <> DataNode
           /\ step (xml.TCharData ele) s
              = Continue
                  {| line := countLines ele (line s);
                     heap := alter (AddChild (length (heap s))) parent
                               (heap s ++ [dataNodeOf (TrimSpace ele) segs]);
                     startElementStack := startElementStack s;
                     nodeStack := nodeStack s |}).
Proof.
  intros HI.
  destruct (nil_or_not (TrimSpace ele)) as [Hnil|Hne].
  - left. split; [by apply blankChunk_true|]. by apply step_CharData_blank.
  - right. pose proof (scan_Scan (TrimSpace ele)) as HScan.
    destruct (scan (TrimSpace ele)) as [err|segs] eqn:Hscan.
    + left. split; [by apply blankChunk_false|]. exists err. split; [done|].
      by apply step_CharData_scan_error.
    + right. split; [by apply blankChunk_false|].
      destruct (Inv_top _ HI) as (ns & parent & pn & Hns & Hpar & Hk).
      exists segs, ns, parent, pn. repeat split; try done.
      apply (step_CharData_data _ _ _ ns parent Hne HScan Hns).
      by rewrite Hpar.
Qed.

(** A token that opens or closes no element and goes through leaves both
    stacks as they are. *)
Lemma step_passes token s :
  Inv s -> passes token = true ->
  exists s', step token s = Continue s'
             /\ startElementStack s' = startElementStack s
             /\ nodeStack s' = nodeStack s.
Proof.
  intros HI Hp. destruct token as [e|e|ele|ele|t i|ele]; try discriminate.
  - destruct (step_CharData_cases ele s HI)
      as [[_ Hs]|[(Hb & err & Hscan & _)|(_ & segs & ns & parent & pn & _ & _ & _ & _ & Hs)]].
    + eexists. split; [exact Hs|]. done.
    + simpl in Hp. unfold accepted in Hp. rewrite Hb, Hscan in Hp. discriminate.
    + eexists. split; [exact Hs|]. done.
  - eexists. split; [reflexivity|]. done.
  - exists s. done.
  - exists s. done.
Qed.

(** A token that opens or closes no element and on which the iteration
    goes on is one that goes through. *)
Lemma step_Continue_passes token s s' :
  Inv s -> step token s = Continue s' ->
  match token with
  | xml.TStartElement _ | xml.TEndElement _ => True
  | _ => passes token = true
         /\ startElementStack s' = startElementStack s
         /\ nodeStack s' = nodeStack s
  end.
Proof.
  intros HI Hstep. destruct token as [e|e|ele|ele|t i|ele]; try done.
  - destruct (step_CharData_cases ele s HI)
      as [[Hb Hs]|[(Hb & err & Hscan & Hs)|(Hb & segs & ns & parent & pn & Hscan & _ & _ & _ & Hs)]];
      rewrite Hs in Hstep; try discriminate;
      injection Hstep as <-; simpl; unfold accepted; rewrite Hb; try done.
    by rewrite Hscan.
  - simpl in Hstep. injection Hstep as <-. done.
  - simpl in Hstep. injection Hstep as <-. done.
  - simpl in Hstep. injection Hstep as <-. done.
Qed.

Lemma Nested_app t1 t2 : Nested t1 -> Nested t2 -> Nested (t1 ++ t2).
Proof.
  induction 1 as [|token rest Hp _ IH|e body e' rest Hn Hb _ _ IH]; intros H2.
  - done.
  - simpl. apply Nested_leaf; auto.
  - simpl. rewrite <- app_assoc. simpl. apply Nested_element; auto.
Qed.

Lemma Open_app es pre t : Open es pre -> Nested t -> Open es (pre ++ t).
Proof.
  intros Ho Ht. destruct Ho as [tokens Hn|es pre e body Ho Hb].
  - apply Open_nil. by apply Nested_app.
  - rewrite <- app_assoc. simpl. apply Open_element; [done|].
    by apply Nested_app.
Qed.

Lemma Open_nil_inv tokens : Open [] tokens -> Nested tokens.
Proof.
  inversion 1 as [|es pre e body _ _ Hes]; [done|]. by destruct es.
Qed.

Lemma Open_snoc_inv es top tokens :
  Open (es ++ [top]) tokens ->
  exists pre body,
    tokens = pre ++ xml.TStartElement top :: body
    /\ Open es pre /\ Nested body.
Proof.
  inversion 1 as [? ? Hes|es' pre e body Ho Hb Hes].
  - by destruct es.
  - apply app_inj_tail in Hes as [-> ->]. by exists pre, body.
Qed.

(** Well-nested tokens go through, from any state of the loop, and leave
    both stacks as they found them. *)
Lemma Nested_run tokens :
  Nested tokens ->
  forall s, Inv s ->
    exists s', run tokens s = Continue s'
               /\ startElementStack s' = startElementStack s
               /\ nodeStack s' = nodeStack s.
Proof.
  induction 1 as [|token rest Hp _ IH|e body e' rest Hn _ IHb _ IHr];
    intros s HI.
  - by exists s.
  - destruct (step_passes token s HI Hp) as (s1 & Hs & Hes & Hns).
    destruct (IH s1 (step_Inv _ _ _ HI Hs)) as (s' & Hr & Hes' & Hns').
    exists s'. rewrite run_cons, Hs. split; [done|]. split; congruence.
  - pose proof (step_StartElement e s) as Hs1.
    set (s1 := {| line := line s;
                  heap := heap s ++ [newNodeByStartElement e];
                  startElementStack := startElementStack s ++ [e];
                  nodeStack := nodeStack s ++ [length (heap s)] |}) in *.
    pose proof (step_Inv _ _ _ HI Hs1) as HI1.
    destruct (IHb s1 HI1) as (s2 & Hr2 & Hes2 & Hns2).
    pose proof (run_Inv _ _ _ HI1 Hr2) as HI2.
    destruct (step_EndElement_closes e' s2 (startElementStack s) e HI2 Hes2 Hn)
      as (ns & parent & popNode & popped & Hns2' & _ & Hs3).
    match type of Hs3 with _ = Continue ?t => set (s3 := t) in * end.
    pose proof (step_Inv _ _ _ HI2 Hs3) as HI3.
    destruct (IHr s3 HI3) as (s' & Hr' & Hes' & Hns').
    exists s'. rewrite run_cons, Hs1, run_app, Hr2, run_cons, Hs3.
    split; [done|]. split; [by rewrite Hes'|].
    rewrite Hns'. simpl. rewrite Hns2 in Hns2'. simpl in Hns2'.
    replace (ns ++ [parent; popNode]) with ((ns ++ [parent]) ++ [popNode])
      in Hns2' by (by rewrite <- app_assoc).
    by apply app_inj_tail in Hns2' as [-> _].
Qed.

(** The element stack after tokens that go through holds the start
    elements these tokens leave open. *)
Lemma run_Open tokens :
  forall l s, run tokens (initial l) = Continue s ->
              Open (startElementStack s) tokens.
Proof.
  induction tokens as [|token tokens IH] using rev_ind; intros l s Hrun.
  - injection Hrun as <-. apply Open_nil, Nested_nil.
  - rewrite run_app in Hrun.
    destruct (run tokens (initial l)) as [s0| |] eqn:Hr0; try discriminate.
    pose proof (run_Inv _ _ _ (Inv_initial l) Hr0) as HI0.
    specialize (IH l s0 Hr0).
    rewrite run_cons in Hrun.
    destruct (step token s0) as [s1| |] eqn:Hs; try discriminate.
    injection Hrun as ->.
    destruct token as [e|e|ele|ele|t i|ele].
    + rewrite step_StartElement in Hs. injection Hs as <-. simpl.
      apply Open_element; [done|apply Nested_nil].
    + destruct (step_EndElement_Continue _ _ _ HI0 Hs)
        as (es & top & ns & parent & popNode & popped & Hes & Hn & _ & _ & ->).
      simpl. rewrite Hes in IH.
      destruct (Open_snoc_inv _ _ _ IH) as (pre & body & -> & Ho & Hb).
      rewrite <- app_assoc. simpl. apply Open_app; [done|].
      apply Nested_element; [done|done|apply Nested_nil].
    + destruct (step_Continue_passes _ _ _ HI0 Hs) as (Hp & -> & _).
      apply Open_app; [done|]. apply Nested_leaf; [done|apply Nested_nil].
    + destruct (step_Continue_passes _ _ _ HI0 Hs) as (Hp & -> & _).
      apply Open_app; [done|]. apply Nested_leaf; [done|apply Nested_nil].
    + destruct (step_Continue_passes _ _ _ HI0 Hs) as (Hp & -> & _).
      apply Open_app; [done|]. apply Nested_leaf; [done|apply Nested_nil].
    + destruct (step_Continue_passes _ _ _ HI0 Hs) as (Hp & -> & _).
      apply Open_app; [done|]. apply Nested_leaf; [done|apply Nested_nil].
Qed.

(** Tokens that are well nested but for the elements they leave open go
    through, and leave these elements on the element stack. *)
Lemma Open_run es tokens :
  Open es tokens ->
  forall l, exists s, run tokens (initial l) = Continue s
                      /\ startElementStack s = es.
Proof.
  induction 1 as [tokens Hn|es pre e body _ IH Hb]; intros l.
  - destruct (Nested_run _ Hn (initial l) (Inv_initial l)) as (s & Hr & Hes & _).
    by exists s.
  - destruct (IH l) as (s1 & Hr1 & Hes1).
    pose proof (run_Inv _ _ _ (Inv_initial l) Hr1) as HI1.
    pose proof (step_StartElement e s1) as Hs2.
    match type of Hs2 with _ = Continue ?t => set (s2 := t) in * end.
    destruct (Nested_run _ Hb s2 (step_Inv _ _ _ HI1 Hs2)) as (s & Hr & Hes & _).
    exists s. rewrite run_app, Hr1, run_cons, Hs2. split; [done|].
    rewrite Hes. simpl. by rewrite Hes1.
Qed.

(** X1. The element stack holds the elements the tokens read so far leave
    open: tokens go through the loop and leave [es] on the element stack
    if, and only if, they are well nested but for the start elements
    [es], which they leave open in this order.  These elements are
    determined by the tokens. *)
Theorem element_stack_is_open_elements l tokens es :
  ((exists s, run tokens (initial l) = Continue s /\ startElementStack s = es)
   <-> Open es tokens)
  /\ forall es', Open es tokens -> Open es' tokens -> es = es'.
Proof.
  split; [split|].
  - intros (s & Hr & <-). by apply (run_Open _ l).
  - intros Ho. by apply Open_run.
  - intros es' Ho Ho'.
    destruct (Open_run _ _ Ho l) as (s & Hr & <-).
    destruct (Open_run _ _ Ho' l) as (s' & Hr' & <-).
    congruence.
Qed.

(** X2. [Parse] returns a tree if, and only if, the decoder ends with
    [io.EOF] and its tokens are well nested: every start element closed by
    an end element of the same local name, and every chunk of character
    data blank or accepted by the tokenizer.  The tree is then [root]. *)
Theorem accepts_well_nested p :
  ((exists r h, snd (Parse p) = Ok r h)
   <-> xml.final (d p) = xml.EOF /\ Nested (xml.pending (d p)))
  /\ forall r h, snd (Parse p) = Ok r h -> r = root.
Proof.
  split; [split|].
  - intros (r & h & HOk).
    destruct (Parse_Ok _ _ _ HOk) as (_ & sf & Hr & _ & Hes & Hf).
    split; [done|]. apply Open_nil_inv. rewrite <- Hes.
    by apply (run_Open _ (currentLine p)).
  - intros [Hf Hn].
    destruct (Nested_run _ Hn (initial (currentLine p)) (Inv_initial _))
      as (s & Hr & Hes & _).
    exists root, (heap s). rewrite Parse_result, Hr, Hf. simpl.
    simpl in Hes. by rewrite Hes.
  - intros r h HOk. by destruct (Parse_Ok _ _ _ HOk) as [-> _].
Qed.

(** What the branch [err != nil] returns when it returns an error. *)
Lemma tokenError_Error final s e :
  tokenError final s = Error e ->
  (final = xml.EOF
   /\ exists es top, startElementStack s = es ++ [top]
        /\ e = UnterminatedElement (xml.Local (xml.StartElement_Name top)))
  \/ (exists msg, final = xml.Other msg /\ e = MalformedXml (xml.Other msg)).
Proof.
  destruct final as [|msg]; simpl.
  - intros H. left. split; [done|].
    destruct (nil_or_not (startElementStack s)) as [Hnil|Hne].
    + rewrite Hnil in H. discriminate.
    + destruct (snoc_of_nonempty _ Hne) as (es & top & Hes).
      rewrite Hes in H. rewrite len_zero_false, index_top in H.
      exists es, top. split; [done|]. congruence.
  - intros H. right. exists msg. split; [done|]. congruence.
Qed.

(** X3. The error [Parse] returns tells what is wrong with the document,
    and every document that is not well nested has its error: [Parse]
    returns the error [e] if, and only if, the tokens and the final error
    of the decoder are rejected with [e], which reads: the tokens before
    the first offending place are well nested but for the elements they
    leave open, and there an end element closes nothing
    ([UnexpectedEndElement]), or has another local name than the
    innermost open element ([TagMismatch]), or the tokenizer rejects the
    trimmed character data ([DataScanError]), or the input ends with an
    element open ([UnterminatedElement]), or the decoder fails
    ([MalformedXml]). *)
Theorem errors_tell_the_document p e :
  snd (Parse p) = Error e
  <-> Rejected (xml.pending (d p)) (xml.final (d p)) e.
Proof.
  rewrite Parse_result. split.
  - intros H.
    pose proof (run_stops (xml.pending (d p)) (initial (currentLine p))) as Hst.
    destruct (run (xml.pending (d p)) (initial (currentLine p)))
      as [s|l e'|l] eqn:Hr.
    + pose proof (run_Open _ _ _ Hr) as Ho.
      destruct (tokenError_Error _ _ _ H)
        as [(Hf & es & top & Hes & ->)|(msg & Hf & ->)].
      * rewrite Hes in Ho. by eapply Rejected_unterminated.
      * by eapply Rejected_malformed.
    + injection H as ->.
      destruct Hst as (pre & token & post & s1 & Htok & Hr1 & Hs).
      pose proof (run_Inv _ _ _ (Inv_initial _) Hr1) as HI1.
      pose proof (run_Open _ _ _ Hr1) as Ho.
      destruct token as [el|el|ele|ele|t i|ele]; try discriminate.
      * destruct (Balanced_shape _ (proj1 HI1))
          as [[Hes _]|(es & top & ns & parent & popNode & Hes & Hns)].
        -- rewrite (step_EndElement_unexpected _ _ Hes) in Hs.
           injection Hs as _ <-. rewrite Hes in Ho.
           by eapply Rejected_unexpected.
        -- destruct (string_dec (xml.Local (xml.EndElement_Name el))
                       (xml.Local (xml.StartElement_Name top))) as [Heq|Hne].
           ++ destruct (step_EndElement_closes _ _ _ _ HI1 Hes Heq)
                as (? & ? & ? & ? & _ & _ & Hc).
              rewrite Hc in Hs. discriminate.
           ++ rewrite (step_EndElement_mismatch _ _ _ _ Hes Hne) in Hs.
              injection Hs as _ <-. rewrite Hes in Ho.
              by eapply Rejected_mismatch.
      * destruct (step_CharData_cases ele s1 HI1)
          as [[Hb Hc]|[(Hb & err & Hscan & Hc)|(Hb & segs & ns & parent & pn & Hscan & _ & _ & _ & Hc)]];
          rewrite Hc in Hs; try discriminate.
        injection Hs as _ <-. by eapply Rejected_data.
    + by destruct (run_no_panic _ _ l (Inv_initial (currentLine p)) Hr).
  - intros [pre el post Htok Ho|es top pre el post Htok Ho Hne
            |es pre ele post err Htok Ho Hb Hscan|es top Ho Hf|es msg Ho Hf].
    + destruct (Open_run _ _ Ho (currentLine p)) as (s & Hr & Hes).
      rewrite Htok, run_app, Hr, run_cons.
      by rewrite (step_EndElement_unexpected _ _ Hes).
    + destruct (Open_run _ _ Ho (currentLine p)) as (s & Hr & Hes).
      rewrite Htok, run_app, Hr, run_cons.
      by rewrite (step_EndElement_mismatch _ _ _ _ Hes Hne).
    + destruct (Open_run _ _ Ho (currentLine p)) as (s & Hr & Hes).
      pose proof (run_Inv _ _ _ (Inv_initial _) Hr) as HI.
      rewrite Htok, run_app, Hr, run_cons.
      destruct (step_CharData_cases ele s HI)
        as [[Hb' _]|[(_ & err' & Hscan' & Hc)|(_ & segs & ns & parent & pn & Hscan' & _)]];
        [congruence| |congruence].
      rewrite Hc. congruence.
    + destruct (Open_run _ _ Ho (currentLine p)) as (s & Hr & Hes).
      rewrite Hr, Hf. simpl. rewrite Hes.
      by rewrite len_zero_false, index_top.
    + destruct (Open_run _ _ Ho (currentLine p)) as (s & Hr & Hes).
      by rewrite Hr, Hf.
Qed.

(** * The shape of the heap *)

Lemma label_AddChild c n : label (AddChild c n) = label n.
Proof. destruct n as [k e cs dt sg]. unfold AddChild, label. by destruct k. Qed.

Lemma label_fresh n : children n = [] -> label n = n.
Proof. destruct n as [k e cs dt sg]. simpl. by intros ->. Qed.

Lemma label_newNodeByStartElement e :
  label (newNodeByStartElement e) = newNodeByStartElement e.
Proof. apply label_fresh, newNodeByStartElement_fresh. Qed.

Lemma childOf_allocated h y c : childOf h y c -> (y < length h)%nat.
Proof. intros (n & Hy & _). by eapply lookup_lt_Some. Qed.

Lemma child_allocated h ns y c :
  WellFormed h ns -> childOf h y c -> (c < length h)%nat.
Proof.
  intros Hwf Hc. destruct (wf_children _ _ Hwf _ _ Hc) as (m & Hm & _).
  by eapply lookup_lt_Some.
Qed.

Lemma childOf_alloc_addChild h n p d y c :
  children n = [] ->
  childOf (alter (AddChild d) p (h ++ [n])) y c ->
  childOf h y c \/ (y = p /\ c = d).
Proof.
  intros Hn Hc. apply childOf_addChild in Hc as [Hc|Hc]; [|by right].
  left. by eapply childOf_alloc.
Qed.

(** The children of a node to which a child is added, newer than all it
    has, stay in the order of their allocation. *)
Lemma sorted_snoc (cs : list Addr) d i j ci cj :
  (forall i j ci cj, cs !! i = Some ci -> cs !! j = Some cj ->
                     (i < j)%nat -> (ci < cj)%nat) ->
  (forall ci, ci ∈ cs -> (ci < d)%nat) ->
  (cs ++ [d]) !! i = Some ci -> (cs ++ [d]) !! j = Some cj ->
  (i < j)%nat -> (ci < cj)%nat.
Proof.
  intros Hs Hd Hi Hj Hij.
  apply lookup_snoc_Some in Hi as [[Hil Hi]|[Hil ->]];
    apply lookup_snoc_Some in Hj as [[Hjl Hj]|[Hjl ->]].
  - by eapply Hs.
  - apply Hd. by eapply list_elem_of_lookup_2.
  - lia.
  - lia.
Qed.

Lemma sorted_AddChild (n : Node) d i j ci cj :
  (forall i j ci cj, children n !! i = Some ci -> children n !! j = Some cj ->
                     (i < j)%nat -> (ci < cj)%nat) ->
  (forall ci, ci ∈ children n -> (ci < d)%nat) ->
  children (AddChild d n) !! i = Some ci ->
  children (AddChild d n) !! j = Some cj ->
  (i < j)%nat -> (ci < cj)%nat.
Proof.
  intros Hs Hd. destruct (children_AddChild_cases d n) as [->| ->].
  - apply Hs.
  - by apply sorted_snoc.
Qed.

Lemma TreeShaped_initial : TreeShaped [NewRootNode] [root].
Proof.
  assert (forall y c, ~ childOf [NewRootNode] y c) as Hno.
  { intros y c (n & Hy & Hc). apply list_lookup_singleton_Some in Hy as [_ <-].
    by apply elem_of_nil in Hc. }
  split.
  - intros y c Hc. by destruct (Hno _ _ Hc).
  - intros y n i j ci cj Hy Hi. apply list_lookup_singleton_Some in Hy as [_ <-].
    done.
  - intros y y' c Hc. by destruct (Hno _ _ Hc).
  - intros a y _. apply Hno.
Qed.

Lemma HeapStep_TreeShaped h ns h' ns' :
  WellFormed h ns -> TreeShaped h ns -> HeapStep h ns h' ns' ->
  TreeShaped h' ns'.
Proof.
  intros Hwf Hts Hstep.
  destruct Hstep as [h ns n Hn Hk|h ns parent popNode pc Hpop Hk
                    |h ns parent popNode pc Hpop Hk|h ns parent n Hn Hk|h ns].
  - (* a node is pushed *)
    split.
    + intros y c Hc. apply (ts_newer _ _ Hts). by eapply childOf_alloc.
    + intros y n0 i j ci cj Hy Hi Hj.
      apply lookup_app_Some in Hy as [Hy|[_ Hy]].
      * by apply (ts_sorted _ _ Hts y n0).
      * apply list_lookup_singleton_Some in Hy as [_ <-].
        rewrite Hn in Hi. done.
    + intros y y' c Hc Hc'.
      apply (ts_one_parent _ _ Hts _ _ c); by eapply childOf_alloc.
    + intros a y Ha Hc. apply (childOf_alloc _ _ _ _ Hn) in Hc.
      apply elem_of_app in Ha as [Ha|Ha].
      * by apply (ts_open_orphan _ _ Hts a y).
      * apply list_elem_of_singleton in Ha as ->.
        pose proof (child_allocated _ _ _ _ Hwf Hc). lia.
  - (* an [EmptyNode] is popped and dropped *)
    split; try apply Hts.
    intros a y Ha. apply (ts_open_orphan _ _ Hts). revert Ha.
    rewrite !elem_of_app, !list_elem_of_In. simpl. tauto.
  - (* a node is popped and added to the children of the next *)
    assert (parent < popNode)%nat as Hlt.
    { apply (wf_stack_sorted _ _ Hwf (length ns) (S (length ns))); [| |lia].
      - by apply list_lookup_middle.
      - replace (ns ++ [parent; popNode]) with ((ns ++ [parent]) ++ [popNode])
          by (by rewrite <- app_assoc).
        apply list_lookup_middle. rewrite length_app. simpl. lia. }
    assert (popNode ∈ ns ++ [parent; popNode]) as Hin by on_stack.
    split.
    + intros y c Hc. apply childOf_addChild in Hc as [Hc|[-> ->]]; [|done].
      by apply (ts_newer _ _ Hts).
    + intros y n0 i j ci cj Hy.
      destruct (decide (parent = y)) as [<-|Hne].
      * rewrite list_lookup_alter_eq in Hy.
        destruct (h !! parent) as [pn|] eqn:Hpar; [|done].
        injection Hy as <-. apply sorted_AddChild.
        -- intros ? ? ? ?. by apply (ts_sorted _ _ Hts parent pn).
        -- intros ci' Hci. apply (wf_older _ _ Hwf popNode parent ci' Hin Hlt).
           by exists pn.
      * rewrite list_lookup_alter_ne in Hy by done.
        by apply (ts_sorted _ _ Hts y n0).
    + intros y y' c Hc Hc'.
      apply childOf_addChild in Hc as [Hc|[-> ->]];
        apply childOf_addChild in Hc' as [Hc'|[-> Hcp]]; subst.
      * by apply (ts_one_parent _ _ Hts _ _ c).
      * by destruct (ts_open_orphan _ _ Hts popNode y Hin).
      * by destruct (ts_open_orphan _ _ Hts popNode y' Hin).
      * done.
    + intros a y Ha Hc. apply childOf_addChild in Hc as [Hc|[-> ->]].
      * apply (ts_open_orphan _ _ Hts a y); [|done]. revert Ha.
        rewrite !elem_of_app, !list_elem_of_In. simpl. tauto.
      * assert (WellFormed h (ns ++ [parent])) as Hwf'.
        { apply (WellFormed_pop _ _ popNode).
          by rewrite <- app_assoc. }
        pose proof (stack_below_top _ _ _ _ Hwf' Ha). lia.
  - (* a [DataNode] is allocated and added to the children of the top *)
    assert (parent < length h)%nat as Hlt.
    { apply (stack_node_allocated _ _ _ Hwf). on_stack. }
    assert (forall y, ~ childOf h y (length h)) as Hfresh.
    { intros y Hc. pose proof (child_allocated _ _ _ _ Hwf Hc). lia. }
    split.
    + intros y c Hc.
      apply (childOf_alloc_addChild _ _ _ _ _ _ Hn) in Hc as [Hc|[-> ->]];
        [|done].
      by apply (ts_newer _ _ Hts).
    + intros y n0 i j ci cj Hy.
      destruct (decide (parent = y)) as [<-|Hne].
      * rewrite list_lookup_alter_eq, lookup_app_l in Hy by done.
        destruct (h !! parent) as [pn|] eqn:Hpar; [|done].
        injection Hy as <-. apply sorted_AddChild.
        -- intros ? ? ? ?. by apply (ts_sorted _ _ Hts parent pn).
        -- intros ci' Hci. apply (child_allocated _ _ parent _ Hwf).
           by exists pn.
      * rewrite list_lookup_alter_ne in Hy by done.
        apply lookup_app_Some in Hy as [Hy|[_ Hy]].
        -- by apply (ts_sorted _ _ Hts y n0).
        -- apply list_lookup_singleton_Some in Hy as [_ <-].
           rewrite Hn. done.
    + intros y y' c Hc Hc'.
      apply (childOf_alloc_addChild _ _ _ _ _ _ Hn) in Hc as [Hc|[-> ->]];
        apply (childOf_alloc_addChild _ _ _ _ _ _ Hn) in Hc' as [Hc'|[-> Hcp]];
        subst.
      * by apply (ts_one_parent _ _ Hts _ _ c).
      * by destruct (Hfresh y).
      * by destruct (Hfresh y').
      * done.
    + intros a y Ha Hc.
      apply (childOf_alloc_addChild _ _ _ _ _ _ Hn) in Hc as [Hc|[-> ->]].
      * by apply (ts_open_orphan _ _ Hts a y).
      * pose proof (stack_node_allocated _ _ _ Hwf Ha). lia.
  - done.
Qed.

Lemma step_TreeShaped token s s' :
  Inv s -> TreeShaped (heap s) (nodeStack s) ->
  step token s = Continue s' ->
  TreeShaped (heap s') (nodeStack s').
Proof.
  intros HI Hts Hs. pose proof (step_spec token s HI) as Hsp.
  rewrite Hs in Hsp. destruct Hsp as [_ Hh].
  eapply HeapStep_TreeShaped; [apply HI|done|done].
Qed.

Lemma run_TreeShaped tokens :
  forall s s', Inv s -> TreeShaped (heap s) (nodeStack s) ->
               run tokens s = Continue s' ->
               TreeShaped (heap s') (nodeStack s').
Proof.
  induction tokens as [|token rest IH]; intros s s' HI Hts Hr.
  - by injection Hr as <-.
  - rewrite run_cons in Hr.
    destruct (step token s) as [s1| |] eqn:Hs; try discriminate.
    apply (IH s1 s'); [by eapply step_Inv|by eapply step_TreeShaped|done].
Qed.

Lemma reachable_newer h ns x y :
  TreeShaped h ns -> reachable h x y -> (x <= y)%nat.
Proof.
  intros Hts. induction 1 as [|y c _ IH Hc]; [done|].
  pose proof (ts_newer _ _ Hts _ _ Hc). lia.
Qed.

(** X4. The heap [Parse] returns is a forest, and what hangs under [root]
    a tree: a child is a node of the heap newer than its parent, so that no
    chain of child pointers comes back to where it started; the children
    of a node are in the order of their allocation, none twice; no node
    is the child of two nodes; and [root] is the child of none. *)
Theorem returned_heap_is_a_forest p r h :
  snd (Parse p) = Ok r h ->
  (forall y c, childOf h y c -> (y < c < length h)%nat)
  /\ (forall y (n : Node) i j ci cj,
        h !! y = Some n ->
        children n !! i = Some ci -> children n !! j = Some cj ->
        (i < j)%nat -> (ci < cj)%nat)
  /\ (forall y y' c, childOf h y c -> childOf h y' c -> y = y')
  /\ (forall y, ~ childOf h y r)
  /\ (forall x y, reachable h x y -> reachable h y x -> x = y).
Proof.
  intros HOk. destruct (Parse_Ok _ _ _ HOk) as (-> & sf & Hr & -> & _ & _).
  pose proof (run_Inv _ _ _ (Inv_initial _) Hr) as [Hb Hwf].
  assert (TreeShaped (heap sf) (nodeStack sf)) as Hts.
  { eapply run_TreeShaped; [apply Inv_initial|apply TreeShaped_initial|done]. }
  split; [|split; [|split; [|split]]].
  - intros y c Hc. split; [by apply (ts_newer _ _ Hts)|].
    by eapply child_allocated.
  - apply Hts.
  - apply Hts.
  - intros y. apply (ts_open_orphan _ _ Hts).
    destruct Hb as (_ & Hroot & _). unfold index in Hroot. simpl in Hroot.
    by eapply list_elem_of_lookup_2.
  - intros x y Hxy Hyx.
    pose proof (reachable_newer _ _ _ _ Hts Hxy).
    pose proof (reachable_newer _ _ _ _ Hts Hyx). lia.
Qed.

(** * The nodes of the heap *)

(** What an iteration that goes on has done to the heap and the stacks,
    token by token, in a state of the loop. *)
Lemma step_Continue_cases token s s' :
  Inv s -> step token s = Continue s' ->
  (exists e, token = xml.TStartElement e
        /\ heap s' = heap s ++ [newNodeByStartElement e]
        /\ startElementStack s' = startElementStack s ++ [e]
        /\ nodeStack s' = nodeStack s ++ [length (heap s)])
  \/ (exists e es top ns parent popNode (popped : Node),
        token = xml.TEndElement e
        /\ startElementStack s = es ++ [top]
        /\ xml.Local (xml.EndElement_Name e)
           = xml.Local (xml.StartElement_Name top)
        /\ nodeStack s = ns ++ [parent; popNode]
        /\ heap s !! popNode = Some popped
        /\ heap s' = (if NodeKind_eqb (kind popped) EmptyNode then heap s
                      else alter (AddChild popNode) parent (heap s))
        /\ startElementStack s' = es
        /\ nodeStack s' = ns ++ [parent])
  \/ (exists ele segs ns parent (pn : Node),
        token = xml.TCharData ele
        /\ blankChunk ele = false
        /\ scan (TrimSpace ele) = inr segs
        /\ nodeStack s = ns ++ [parent]
        /\ heap s !! parent = Some pn
        /\ kind pn <> DataNode
        /\ heap s' = alter (AddChild (length (heap s))) parent
                       (heap s ++ [dataNodeOf (TrimSpace ele) segs])
        /\ startElementStack s' = startElementStack s
        /\ nodeStack s' = nodeStack s)
  \/ (skipped token = true
      /\ heap s' = heap s
      /\ startElementStack s' = startElementStack s
      /\ nodeStack s' = nodeStack s).
Proof.
  intros HI Hs. destruct token as [e|e|ele|ele|t i|ele].
  - left. rewrite step_StartElement in Hs. injection Hs as <-. by exists e.
  - right; left.
    destruct (step_EndElement_Continue _ _ _ HI Hs)
      as (es & top & ns & parent & popNode & popped & Hes & Hn & Hns & Hp & ->).
    by exists e, es, top, ns, parent, popNode, popped.
  - destruct (step_CharData_cases ele s HI)
      as [[Hb Hc]|[(Hb & err & Hscan & Hc)|(Hb & segs & ns & parent & pn & Hscan & Hns & Hpar & Hk & Hc)]];
      rewrite Hc in Hs; try discriminate; injection Hs as <-.
    + by repeat right.
    + right; right; left. by exists ele, segs, ns, parent, pn.
  - repeat right. simpl in Hs. by injection Hs as <-.
  - repeat right. simpl in Hs. by injection Hs as <-.
  - repeat right. simpl in Hs. by injection Hs as <-.
Qed.

Lemma lookup_addChild_label h p d a n :
  h !! a = Some n ->
  exists n', alter (AddChild d) p h !! a = Some n'
             /\ label n' = label n
             /\ exists added, children n' = children n ++ added.
Proof.
  intros Ha. destruct (decide (p = a)) as [->|Hne].
  - rewrite list_lookup_alter_eq, Ha. simpl. eexists. split; [done|].
    split; [apply label_AddChild|].
    destruct (children_AddChild_cases d n) as [->| ->].
    + exists []. by rewrite app_nil_r.
    + by exists [d].
  - rewrite list_lookup_alter_ne, Ha by done. exists n. split; [done|].
    split; [done|]. exists []. by rewrite app_nil_r.
Qed.

(** An iteration takes no node away and changes no node but by adding
    children after those it has. *)
Lemma step_keeps token s s' a n :
  Inv s -> step token s = Continue s' ->
  heap s !! a = Some n ->
  exists n', heap s' !! a = Some n'
             /\ label n' = label n
             /\ exists added, children n' = children n ++ added.
Proof.
  intros HI Hs Ha.
  assert (exists n', heap s !! a = Some n' /\ label n' = label n
                     /\ exists added, children n' = children n ++ added)
    as Hsame.
  { exists n. split; [done|]. split; [done|]. exists []. by rewrite app_nil_r. }
  destruct (step_Continue_cases _ _ _ HI Hs)
    as [(e & _ & -> & _)
       |[(e & es & top & ns & parent & popNode & popped & _ & _ & _ & _ & _
          & -> & _)
        |[(ele & segs & ns & parent & pn & _ & _ & _ & _ & _ & _ & -> & _)
         |(_ & -> & _)]]].
  - exists n. split; [by apply lookup_app_l_Some|]. split; [done|].
    exists []. by rewrite app_nil_r.
  - destruct (NodeKind_eqb (kind popped) EmptyNode); [done|].
    by apply lookup_addChild_label.
  - apply lookup_addChild_label. by apply lookup_app_l_Some.
  - done.
Qed.

Lemma step_length token s s' :
  Inv s -> step token s = Continue s' ->
  length (heap s')
  = (length (heap s) + (if allocates token then 1 else 0))%nat.
Proof.
  intros HI Hs.
  destruct (step_Continue_cases _ _ _ HI Hs)
    as [(e & -> & -> & _)
       |[(e & es & top & ns & parent & popNode & popped & -> & _ & _ & _ & _
          & -> & _)
        |[(ele & segs & ns & parent & pn & -> & Hb & _ & _ & _ & _ & -> & _)
         |(Hsk & -> & _)]]].
  - by rewrite length_app.
  - simpl. destruct (NodeKind_eqb (kind popped) EmptyNode);
      rewrite ?length_alter; lia.
  - simpl. rewrite Hb. simpl. by rewrite length_alter, length_app.
  - destruct token as [e|e|ele|ele|t i|ele]; try discriminate; simpl;
      try lia.
    simpl in Hsk. rewrite Hsk. simpl. lia.
Qed.

Lemma run_keeps tokens :
  forall s s' a n,
    Inv s -> run tokens s = Continue s' ->
    heap s !! a = Some n ->
    length (heap s')
    = (length (heap s) + length (List.filter allocates tokens))%nat
    /\ exists n', heap s' !! a = Some n'
                  /\ label n' = label n
                  /\ exists added, children n' = children n ++ added.
Proof.
  induction tokens as [|token rest IH]; intros s s' a n HI Hr Ha.
  - injection Hr as <-. simpl. split; [lia|]. exists n. split; [done|].
    split; [done|]. exists []. by rewrite app_nil_r.
  - rewrite run_cons in Hr.
    destruct (step token s) as [s1| |] eqn:Hs; try discriminate.
    destruct (step_keeps _ _ _ _ _ HI Hs Ha) as (n1 & Ha1 & Hl1 & ad1 & Hc1).
    destruct (IH s1 s' a n1 (step_Inv _ _ _ HI Hs) Hr Ha1)
      as (Hlen & n' & Ha' & Hl' & ad' & Hc').
    split.
    + rewrite Hlen, (step_length _ _ _ HI Hs). simpl.
      destruct (allocates token); simpl; lia.
    + exists n'. split; [done|]. split; [congruence|].
      exists (ad1 ++ ad'). by rewrite Hc', Hc1, <- app_assoc.
Qed.

(** X5. The loop allocates one node for each start element and for each
    chunk of character data of which something is left once trimmed, and
    no other: a state has one node more than the tokens read have such
    start elements and chunks.  It takes no node away, and changes a node
    it has allocated in one way only: children are added after those the
    node has.  So the nodes of every state of the loop are there, with
    their kind, element, bytes and segments, and with the children they
    had first in their order, in every later state. *)
Theorem nodes_are_only_added l t1 t2 s1 s2 :
  run t1 (initial l) = Continue s1 ->
  run t2 s1 = Continue s2 ->
  length (heap s2)
  = (length (heap s1) + length (List.filter allocates t2))%nat
  /\ length (heap s1) = S (length (List.filter allocates t1))
  /\ forall a (n : Node),
       heap s1 !! a = Some n ->
       exists n' : Node,
         heap s2 !! a = Some n'
         /\ kind n' = kind n /\ element n' = element n
         /\ data n' = data n /\ segments n' = segments n
         /\ exists added, children n' = children n ++ added.
Proof.
  intros Hr1 Hr2.
  pose proof (run_Inv _ _ _ (Inv_initial l) Hr1) as HI1.
  destruct (run_keeps t1 (initial l) s1 root NewRootNode (Inv_initial l) Hr1
              eq_refl) as [Hlen1 _].
  destruct (proj1 HI1) as (_ & _ & r & Hroot & _).
  destruct (run_keeps t2 s1 s2 root r HI1 Hr2 Hroot) as [Hlen2 _].
  split; [done|]. split; [by rewrite Hlen1|].
  intros a n Ha.
  destruct (run_keeps t2 s1 s2 a n HI1 Hr2 Ha) as (_ & n' & Ha' & Hl & Hc).
  exists n'. split; [done|].
  unfold label in Hl. injection Hl as Hk He Hd Hsg. done.
Qed.

(** * Where the nodes come from *)

Lemma Origin_mono tokens more a n :
  Origin tokens a n -> Origin (tokens ++ more) a n.
Proof.
  intros [Ha Hl|e Ha Hin Hl|ele segs Ha Hin Hb Hscan Hn].
  - by apply Origin_root.
  - apply (Origin_element _ _ _ e); [done| |done]. apply elem_of_app. by left.
  - apply (Origin_text _ _ _ ele segs); try done. apply elem_of_app. by left.
Qed.

Lemma Origin_AddChild tokens a n c :
  Origin tokens a n -> Origin tokens a (AddChild c n).
Proof.
  intros [Ha Hl|e Ha Hin Hl|ele segs Ha Hin Hb Hscan Hn].
  - apply Origin_root; [done|]. by rewrite label_AddChild.
  - apply (Origin_element _ _ _ e); [done|done|]. by rewrite label_AddChild.
  - apply (Origin_text _ _ _ ele segs); try done. by rewrite Hn.
Qed.

Lemma Origin_alter tokens h p d a n :
  (forall a n, h !! a = Some n -> Origin tokens a n) ->
  alter (AddChild d) p h !! a = Some n -> Origin tokens a n.
Proof.
  intros Hh Ha. destruct (decide (p = a)) as [->|Hne].
  - rewrite list_lookup_alter_eq in Ha.
    destruct (h !! a) as [n0|] eqn:Hn0; [|done]. injection Ha as <-.
    apply Origin_AddChild. by apply Hh.
  - rewrite list_lookup_alter_ne in Ha by done. by apply Hh.
Qed.

(** Every node of a state of the loop comes from the root or from a token
    read so far. *)
Lemma run_Origin tokens :
  forall l s a n,
    run tokens (initial l) = Continue s ->
    heap s !! a = Some n -> Origin tokens a n.
Proof.
  induction tokens as [|token tokens IH] using rev_ind; intros l s a n Hrun.
  - injection Hrun as <-. simpl. intros Ha.
    apply list_lookup_singleton_Some in Ha as [-> <-]. by apply Origin_root.
  - rewrite run_app in Hrun.
    destruct (run tokens (initial l)) as [s0| |] eqn:Hr0; try discriminate.
    pose proof (run_Inv _ _ _ (Inv_initial l) Hr0) as HI0.
    specialize (IH l s0).
    rewrite run_cons in Hrun.
    destruct (step token s0) as [s1| |] eqn:Hs; try discriminate.
    injection Hrun as ->.
    assert (forall a n, heap s0 !! a = Some n ->
                        Origin (tokens ++ [token]) a n) as Hold.
    { intros a' n' Ha'. apply Origin_mono. by apply IH. }
    assert (length (heap s0) <> root) as Hfresh.
    { destruct (proj1 HI0) as (_ & _ & r & Hroot & _).
      apply lookup_lt_Some in Hroot. unfold root in *. lia. }
    destruct (step_Continue_cases _ _ _ HI0 Hs)
      as [(e & -> & -> & _)
         |[(e & es & top & ns & parent & popNode & popped & -> & _ & _ & _ & _
            & -> & _)
          |[(ele & segs & ns & parent & pn & -> & Hb & Hscan & _ & _ & _ & ->
             & _)
           |(_ & -> & _)]]].
    + intros Ha. apply lookup_app_Some in Ha as [Ha|[Hge Ha]]; [by apply Hold|].
      apply list_lookup_singleton_Some in Ha as [Hi <-].
      assert (a = length (heap s0)) as -> by lia.
      apply (Origin_element _ _ _ e); [done| |apply label_newNodeByStartElement].
      apply elem_of_app. right. by apply list_elem_of_singleton.
    + destruct (NodeKind_eqb (kind popped) EmptyNode); [apply Hold|].
      by apply Origin_alter.
    + apply Origin_alter. intros a' n' Ha.
      apply lookup_app_Some in Ha as [Ha|[Hge Ha]]; [by apply Hold|].
      apply list_lookup_singleton_Some in Ha as [Hi <-].
      assert (a' = length (heap s0)) as -> by lia.
      apply (Origin_text _ _ _ ele segs); try done.
      apply elem_of_app. right. by apply list_elem_of_singleton.
    + apply Hold.
Qed.

Lemma newNodeByStartElement_no_data e :
  element (newNodeByStartElement e)
  = (if known (xml.Local (xml.StartElement_Name e)) then Some e else None)
  /\ data (newNodeByStartElement e) = []
  /\ segments (newNodeByStartElement e) = [].
Proof.
  unfold newNodeByStartElement, known. simpl.
  repeat match goal with |- context [String.eqb ?a ?b] =>
           destruct (String.eqb a b) end; by repeat split.
Qed.

(** X6. Every node of the heap [Parse] returns comes from the input: it is
    the root, or the node [newNodeByStartElement] makes of a start element
    among the tokens, or the [DataNode] of a chunk of character data among
    the tokens, with the trimmed bytes of the chunk, which are not empty,
    and the segments the tokenizer reads from these bytes; in each case
    with the children it was given since, and a [DataNode] with none.  The
    root is the one [RootNode], and a node that is not a [DataNode] has
    neither bytes nor segments. *)
Theorem every_node_has_an_origin p r h a (n : Node) :
  snd (Parse p) = Ok r h ->
  h !! a = Some n ->
  Origin (xml.pending (d p)) a n
  /\ (kind n = RootNode <-> a = r)
  /\ (kind n = DataNode ->
      children n = [] /\ data n <> []
      /\ scan (data n) = inr (segments n))
  /\ (kind n <> DataNode -> data n = [] /\ segments n = []).
Proof.
  intros HOk Ha. destruct (Parse_Ok _ _ _ HOk) as (-> & sf & Hr & -> & _ & _).
  pose proof (run_Origin _ _ _ _ _ Hr Ha) as Ho. split; [done|].
  destruct Ho as [Hroot Hl|e Hroot Hin Hl|ele segs Hroot Hin Hb Hscan Hn].
  - unfold label in Hl. injection Hl as Hk He Hd Hsg.
    split; [done|]. split; [by rewrite Hk|]. done.
  - destruct (newNodeByStartElement_fresh e) as (_ & HnD & HnR).
    destruct (newNodeByStartElement_no_data e) as (_ & Hd0 & Hs0).
    unfold label in Hl. rewrite <- Hl in HnD, HnR, Hd0, Hs0. simpl in *.
    split; [done|]. split; [done|]. done.
  - subst n. simpl. split; [done|]. split; [|done]. intros _.
    split; [done|]. split; [|done]. by apply blankChunk_false.
Qed.

(** * The two stacks, side by side *)

Lemma Balanced_length s :
  Balanced s -> length (nodeStack s) = S (length (startElementStack s)).
Proof. intros (Hlen & _). unfold len in Hlen. lia. Qed.

Lemma run_Aligned tokens :
  forall l s, run tokens (initial l) = Continue s -> Aligned s.
Proof.
  induction tokens as [|token tokens IH] using rev_ind; intros l s Hrun.
  - injection Hrun as <-. intros i e Hi. done.
  - rewrite run_app in Hrun.
    destruct (run tokens (initial l)) as [s0| |] eqn:Hr0; try discriminate.
    pose proof (run_Inv _ _ _ (Inv_initial l) Hr0) as HI0.
    specialize (IH l s0 Hr0).
    rewrite run_cons in Hrun.
    destruct (step token s0) as [s1| |] eqn:Hs; try discriminate.
    injection Hrun as ->.
    pose proof (Balanced_length _ (proj1 HI0)) as Hlen.
    destruct (step_Continue_cases _ _ _ HI0 Hs)
      as [(e & -> & Hh & Hes & Hns)
         |[(e & es & top & ns & parent & popNode & popped & -> & Hes0 & _
            & Hns0 & _ & Hh & Hes & Hns)
          |[(ele & segs & ns & parent & pn & -> & _ & _ & _ & _ & _ & Hh & Hes
             & Hns)
           |(_ & Hh & Hes & Hns)]]];
      intros i e0 Hi; rewrite Hes in Hi; rewrite Hns, Hh.
    + apply lookup_snoc_Some in Hi as [[Hil Hi]|[-> ->]].
      * destruct (IH i e0 Hi) as (a & n & Ha & Hn & Hl).
        exists a, n. split; [by apply lookup_app_l_Some|].
        split; [by apply lookup_app_l_Some|done].
      * exists (length (heap s0)), (newNodeByStartElement e0).
        split; [|split].
        -- rewrite <- Hlen. by apply list_lookup_middle.
        -- by apply list_lookup_middle.
        -- apply label_newNodeByStartElement.
    + assert (i < length es)%nat as Hil by (by eapply lookup_lt_Some).
      destruct (IH i e0) as (a & n & Ha & Hn & Hl).
      { rewrite Hes0. by apply lookup_app_l_Some. }
      rewrite Hns0, Hes0, !length_app in Hlen. simpl in Hlen.
      rewrite Hns0 in Ha.
      replace (ns ++ [parent; popNode]) with ((ns ++ [parent]) ++ [popNode])
        in Ha by (by rewrite <- app_assoc).
      rewrite lookup_app_l in Ha by (rewrite length_app; simpl; lia).
      destruct (NodeKind_eqb (kind popped) EmptyNode).
      * by exists a, n.
      * destruct (lookup_addChild_label (heap s0) parent popNode a n Hn)
          as (n' & Hn' & Hl' & _).
        exists a, n'. split; [done|]. split; [done|]. congruence.
    + destruct (IH i e0 Hi) as (a & n & Ha & Hn & Hl).
      destruct (lookup_addChild_label
                  (heap s0 ++ [dataNodeOf (TrimSpace ele) segs]) parent
                  (length (heap s0)) a n) as (n' & Hn' & Hl' & _).
      { by apply lookup_app_l_Some. }
      exists a, n'. split; [done|]. split; [done|]. congruence.
    + by apply IH.
Qed.

(** X7. The two stacks go side by side: in every state of the loop, the
    node at index [i + 1] of the node stack is the node
    [newNodeByStartElement] made of the start element at index [i] of the
    element stack, with the children it was given since; so that the node
    an end element pops is the node of the start element it closes. *)
Theorem stacks_are_aligned l tokens s :
  run tokens (initial l) = Continue s ->
  (forall i e,
     startElementStack s !! i = Some e ->
     exists a (n : Node),
       nodeStack s !! S i = Some a
       /\ heap s !! a = Some n
       /\ kind n = kind (newNodeByStartElement e)
       /\ element n = element (newNodeByStartElement e))
  /\ (forall es top,
        startElementStack s = es ++ [top] ->
        exists ns a (n : Node),
          nodeStack s = ns ++ [a]
          /\ heap s !! a = Some n
          /\ kind n = kind (newNodeByStartElement top)
          /\ element n = element (newNodeByStartElement top)).
Proof.
  intros Hr. pose proof (run_Aligned _ _ _ Hr) as Hal.
  pose proof (run_Inv _ _ _ (Inv_initial l) Hr) as HI.
  split.
  - intros i e Hi. destruct (Hal i e Hi) as (a & n & Ha & Hn & Hl).
    exists a, n. split; [done|]. split; [done|].
    rewrite <- Hl. done.
  - intros es top Hes.
    destruct (Hal (length es) top) as (a & n & Ha & Hn & Hl).
    { rewrite Hes. by apply list_lookup_middle. }
    pose proof (Balanced_length _ (proj1 HI)) as Hlen.
    rewrite Hes, length_app in Hlen. simpl in Hlen.
    destruct (Inv_top _ HI) as (ns & top' & pn & Hns & _).
    rewrite Hns, length_app in Hlen. simpl in Hlen.
    rewrite Hns in Ha. rewrite list_lookup_middle in Ha by lia.
    injection Ha as ->.
    exists ns, a, n. split; [done|]. split; [done|]. rewrite <- Hl. done.
Qed.

(** * What the result does not depend on *)

Lemma sameButLine_refl s : sameButLine s s.
Proof. by repeat split. Qed.

Lemma sameButLine_trans s1 s2 s3 :
  sameButLine s1 s2 -> sameButLine s2 s3 -> sameButLine s1 s3.
Proof. intros (? & ? & ?) (? & ? & ?). repeat split; congruence. Qed.

(** An iteration looks at the line counter to count, and for nothing
    else. *)
Lemma step_sameButLine token s t :
  sameButLine s t -> sameOutcome (step token s) (step token t).
Proof.
  destruct s as [l h es ns], t as [l' h' es' ns'].
  intros (Hh & Hes & Hns). simpl in Hh, Hes, Hns. subst h' es' ns'.
  destruct token as [e|e|ele|ele|ta i|ele]; unfold step, orPanic; simpl;
    repeat (case_match; simpl; try done).
  all: by repeat split.
Qed.

(** A skipped token leaves the heap and both stacks as they are, in any
    state. *)
Lemma step_skipped token s :
  skipped token = true ->
  exists s', step token s = Continue s' /\ sameButLine s s'.
Proof.
  intros Hsk. destruct token as [e|e|ele|ele|ta i|ele]; try discriminate.
  - eexists. split; [apply step_CharData_blank; by apply blankChunk_true|].
    done.
  - eexists. split; [reflexivity|done].
  - exists s. split; [reflexivity|apply sameButLine_refl].
  - exists s. split; [reflexivity|apply sameButLine_refl].
Qed.

Lemma run_significant tokens :
  forall s t,
    sameButLine s t ->
    sameOutcome (run tokens s) (run (List.filter significant tokens) t).
Proof.
  induction tokens as [|token rest IH]; intros s t Hst; [done|].
  rewrite run_cons.
  change (List.filter significant (token :: rest))
    with (if significant token then token :: List.filter significant rest
          else List.filter significant rest).
  unfold significant at 1. destruct (skipped token) eqn:Hsk; cbn [negb].
  - destruct (step_skipped token s Hsk) as (s1 & -> & Hs1).
    apply IH. apply (sameButLine_trans _ s); [|done].
    destruct Hs1 as (? & ? & ?). by repeat split.
  - rewrite run_cons. pose proof (step_sameButLine token s t Hst) as Hstep.
    destruct (step token s) as [s1| |], (step token t) as [t1| |]; try done.
    by apply IH.
Qed.

Lemma tokenError_sameButLine final s t :
  sameButLine s t -> tokenError final s = tokenError final t.
Proof.
  intros (Hh & Hes & _). unfold tokenError. by rewrite Hh, Hes.
Qed.


(** * The loop and the recursive reading *)

Lemma Forall2_impl_elem {A B} (P Q : A -> B -> Prop) (l : list A) (k : list B) :
  Forall2 P l k ->
  (forall u v, u ∈ l -> P u v -> Q u v) ->
  Forall2 Q l k.
Proof.
  induction 1 as [|u v l k Hp _ IH]; intros Himp; constructor.
  - apply Himp; [apply list_elem_of_In; by left|done].
  - apply IH. intros u' v' Hin. apply Himp.
    apply list_elem_of_In. right. by apply list_elem_of_In.
Qed.

Lemma labelledOf_S fuel h a :
  labelledOf (S fuel) h a
  = match h !! a with
    | None => None
    | Some n => L (label n) <$> mapM (labelledOf fuel h) (children n)
    end.
Proof. reflexivity. Qed.

Lemma labelledOf_Some fuel h a t :
  labelledOf (S fuel) h a = Some t
  <-> exists (n : Node) ts,
        h !! a = Some n /\ t = L (label n) ts
        /\ Forall2 (fun c t' => labelledOf fuel h c = Some t') (children n) ts.
Proof.
  rewrite labelledOf_S. split.
  - destruct (h !! a) as [n|]; [|done]. intros H.
    apply fmap_Some in H as (ts & Hm & ->). exists n, ts.
    split; [done|]. split; [done|]. by apply mapM_Some.
  - intros (n & ts & -> & -> & Hf). apply fmap_Some. exists ts.
    split; [|done]. by apply mapM_Some.
Qed.

(** More fuel reads the same tree. *)
Lemma labelledOf_mono h :
  forall fuel fuel' a t,
    (fuel <= fuel')%nat ->
    labelledOf fuel h a = Some t -> labelledOf fuel' h a = Some t.
Proof.
  induction fuel as [|fuel IH]; intros fuel' a t Hle H; [done|].
  destruct fuel' as [|fuel']; [lia|].
  apply labelledOf_Some in H as (n & ts & Ha & -> & Hf).
  apply labelledOf_Some. exists n, ts. split; [done|]. split; [done|].
  eapply Forall2_impl; [exact Hf|]. intros c t' Hc. apply (IH fuel'); [lia|done].
Qed.

(** Where children are newer than their parents, the tree under an
    address is that of any heap with the same nodes from this address
    on. *)
Lemma labelledOf_agree h h' :
  (forall y c, childOf h y c -> (y < c)%nat) ->
  forall fuel a t,
    (forall x, (a <= x)%nat -> (x < length h)%nat -> h' !! x = h !! x) ->
    labelledOf fuel h a = Some t -> labelledOf fuel h' a = Some t.
Proof.
  intros Hnew. induction fuel as [|fuel IH]; intros a t Hag H; [done|].
  apply labelledOf_Some in H as (n & ts & Ha & -> & Hf).
  apply labelledOf_Some. exists n, ts.
  split; [rewrite Hag; [done|lia|by eapply lookup_lt_Some]|]. split; [done|].
  eapply Forall2_impl_elem; [exact Hf|]. intros c t' Hin Hc.
  apply IH; [|done]. intros x Hx. apply Hag.
  assert (a < c)%nat by (apply Hnew; by exists n). lia.
Qed.

(** Where children are newer than their parents, the length of the heap
    from an address on is fuel enough for the tree under it. *)
Lemma labelledOf_bound h :
  (forall y c, childOf h y c -> (y < c)%nat) ->
  forall fuel a t,
    labelledOf fuel h a = Some t ->
    labelledOf (length h - a) h a = Some t.
Proof.
  intros Hnew. induction fuel as [|fuel IH]; intros a t H; [done|].
  apply labelledOf_Some in H as (n & ts & Ha & -> & Hf).
  pose proof (lookup_lt_Some _ _ _ Ha) as Hlt.
  replace (length h - a)%nat with (S (length h - a - 1)) by lia.
  apply labelledOf_Some. exists n, ts. split; [done|]. split; [done|].
  eapply Forall2_impl_elem; [exact Hf|]. intros c t' Hin Hc.
  apply (labelledOf_mono h (length h - c)); [|by apply IH].
  assert (a < c)%nat by (apply Hnew; by exists n). lia.
Qed.

Lemma Reads_agree h h' a t :
  (forall y c, childOf h y c -> (y < c)%nat) ->
  (forall x, (a <= x)%nat -> (x < length h)%nat -> h' !! x = h !! x) ->
  Reads h a t -> Reads h' a t.
Proof.
  intros Hnew Hag [fuel H]. exists fuel. by apply (labelledOf_agree h h' Hnew).
Qed.

Lemma Reads_node h a n ts :
  (forall y c, childOf h y c -> (y < c)%nat) ->
  h !! a = Some n ->
  Forall2 (Reads h) (children n) ts ->
  Reads h a (L (label n) ts).
Proof.
  intros Hnew Ha Hf. exists (S (length h)).
  apply labelledOf_Some. exists n, ts. split; [done|]. split; [done|].
  eapply Forall2_impl; [exact Hf|]. intros c t' [fuel Hc].
  apply (labelledOf_mono h (length h - c)); [lia|].
  by apply (labelledOf_bound h Hnew fuel).
Qed.

Lemma Reads_treeAt h a t :
  (forall y c, childOf h y c -> (y < c)%nat) ->
  Reads h a t -> treeAt h a = Some t.
Proof.
  intros Hnew [fuel H]. unfold treeAt.
  apply (labelledOf_mono h (length h - a)); [lia|].
  by apply (labelledOf_bound h Hnew fuel).
Qed.

(** What the loop does on tokens that have a recursive reading, from any
    state: the stacks are left as they were, the node on top of the node
    stack is given, after those it had, the roots of the trees read, in
    order; these trees are made of new nodes; and no other node that was
    there is touched. *)
Lemma Forest_run tokens f :
  Forest tokens f ->
  forall s ns top (pn : Node),
    Inv s -> TreeShaped (heap s) (nodeStack s) ->
    nodeStack s = ns ++ [top] -> heap s !! top = Some pn ->
    exists s' cs (pn' : Node),
      run tokens s = Continue s'
      /\ startElementStack s' = startElementStack s
      /\ nodeStack s' = nodeStack s
      /\ (length (heap s) <= length (heap s'))%nat
      /\ (forall x, (x < length (heap s))%nat -> x <> top ->
                    heap s' !! x = heap s !! x)
      /\ heap s' !! top = Some pn'
      /\ label pn' = label pn
      /\ children pn' = children pn ++ cs
      /\ Forall (fun c => (length (heap s) <= c)%nat) cs
      /\ Forall2 (Reads (heap s')) cs f.
Proof.
  induction 1 as [|token rest f Hsk _ IH|ele segs rest f Hb Hscan _ IH
                 |e body e' rest fb f Hn Hkn _ IHb _ IHr
                 |e body e' rest fb f Hn Hkn _ IHb _ IHr];
    intros s ns top pn HI Hts Hns Htop.
  - (* no token *)
    exists s, [], pn. rewrite app_nil_r. repeat split; try done; constructor.
  - (* a skipped token *)
    destruct (step_skipped token s Hsk) as (s1 & Hs1 & Hh & Hes & Hns1).
    pose proof (step_Inv _ _ _ HI Hs1) as HI1.
    destruct (IH s1 ns top pn HI1) as (s' & cs & pn' & Hr & IH').
    { by rewrite <- Hh, <- Hns1. }
    { by rewrite <- Hns1. }
    { by rewrite <- Hh. }
    exists s', cs, pn'. rewrite run_cons, Hs1. split; [done|].
    by rewrite Hh, Hes, Hns1.
  - (* character data *)
    destruct (step_CharData_cases ele s HI)
      as [[Hb' _]|[(_ & err & Hscan' & _)
                  |(_ & segs' & ns' & top' & pn0 & Hscan' & Hns' & Htop' & Hk
                    & Hs1)]];
      [congruence|congruence|].
    rewrite Hns in Hns'. apply app_inj_tail in Hns' as [<- <-].
    rewrite Hscan in Hscan'. injection Hscan' as <-.
    rewrite Htop in Htop'. injection Htop' as <-.
    match type of Hs1 with _ = Continue ?t => set (s1 := t) in * end.
    set (dn := dataNodeOf (TrimSpace ele) segs) in *.
    pose proof (step_Inv _ _ _ HI Hs1) as HI1.
    pose proof (step_TreeShaped _ _ _ HI Hts Hs1) as Hts1.
    pose proof (lookup_lt_Some _ _ _ Htop) as Htoplt.
    assert (heap s1 !! top = Some (AddChild (length (heap s)) pn)) as Htop1.
    { simpl. rewrite list_lookup_alter_eq, lookup_app_l by done.
      by rewrite Htop. }
    assert (length (heap s1) = S (length (heap s))) as Hlen1.
    { simpl. rewrite length_alter, length_app. simpl. lia. }
    destruct (IH s1 ns top _ HI1 Hts1 Hns Htop1)
      as (s' & cs & pn' & Hr & Hes' & Hns'' & Hlen' & Hag' & Htop' & Hl'
          & Hc' & Hnew' & Hrd').
    pose proof (run_TreeShaped _ _ _ HI1 Hts1 Hr) as Hts'.
    exists s', (length (heap s) :: cs), pn'.
    rewrite run_cons, Hs1.
    split; [done|]. split; [done|]. split; [done|]. split; [lia|].
    split; [|split; [done|split; [|split; [|split]]]].
    + intros x Hx Hne. rewrite Hag' by lia. simpl.
      rewrite list_lookup_alter_ne by done. by apply lookup_app_l.
    + by rewrite Hl', label_AddChild.
    + rewrite Hc', (children_AddChild _ _ Hk), <- app_assoc. done.
    + constructor; [done|]. eapply Forall_impl; [exact Hnew'|].
      intros c Hc. cbv beta in Hc. lia.
    + constructor; [|done].
      assert (heap s' !! length (heap s) = Some dn) as Hdn.
      { rewrite Hag' by lia. simpl.
        rewrite list_lookup_alter_ne by lia. by apply list_lookup_middle. }
      apply (Reads_node (heap s') (length (heap s)) dn [] (ts_newer _ _ Hts') Hdn).
      constructor.
  - (* an element of the dispatch table *)
    pose proof (step_StartElement e s) as Hs1.
    match type of Hs1 with _ = Continue ?t => set (s1 := t) in * end.
    pose proof (step_Inv _ _ _ HI Hs1) as HI1.
    pose proof (step_TreeShaped _ _ _ HI Hts Hs1) as Hts1.
    pose proof (lookup_lt_Some _ _ _ Htop) as Htoplt.
    set (a := length (heap s)) in *.
    assert (nodeStack s1 = (ns ++ [top]) ++ [a]) as Hns1
      by (simpl; by rewrite Hns).
    assert (heap s1 !! a = Some (newNodeByStartElement e)) as Ha1
      by (simpl; by apply list_lookup_middle).
    assert (length (heap s1) = S a) as Hlen1
      by (simpl; rewrite length_app; simpl; lia).
    destruct (IHb s1 (ns ++ [top]) a _ HI1 Hts1 Hns1 Ha1)
      as (s2 & csb & pnb & Hr2 & Hes2 & Hns2 & Hlen2 & Hag2 & Ha2 & Hl2
          & Hc2 & Hnew2 & Hrd2).
    pose proof (run_Inv _ _ _ HI1 Hr2) as HI2.
    pose proof (run_TreeShaped _ _ _ HI1 Hts1 Hr2) as Hts2.
    assert (startElementStack s2 = startElementStack s ++ [e]) as Hes2'
      by (by rewrite Hes2).
    destruct (step_EndElement_closes e' s2 _ e HI2 Hes2' Hn)
      as (ns' & parent & popNode & popped & Hns2' & Hpop & Hs3).
    rewrite Hns2, Hns1 in Hns2'.
    replace (ns' ++ [parent; popNode]) with ((ns' ++ [parent]) ++ [popNode])
      in Hns2' by (by rewrite <- app_assoc).
    apply app_inj_tail in Hns2' as [Hns2' <-].
    apply app_inj_tail in Hns2' as [<- <-].
    rewrite Ha2 in Hpop. injection Hpop as <-.
    assert (kind pnb <> EmptyNode) as Hkb.
    { replace (kind pnb) with (kind (label pnb)) by done. rewrite Hl2.
      rewrite label_newNodeByStartElement.
      by apply newNodeByStartElement_known. }
    assert (NodeKind_eqb (kind pnb) EmptyNode = false) as Hkb'.
    { destruct (NodeKind_eqb (kind pnb) EmptyNode) eqn:Heq; [|done].
      by apply NodeKind_eqb_eq in Heq. }
    rewrite Hkb' in Hs3.
    match type of Hs3 with _ = Continue ?t => set (s3 := t) in * end.
    pose proof (step_Inv _ _ _ HI2 Hs3) as HI3.
    pose proof (step_TreeShaped _ _ _ HI2 Hts2 Hs3) as Hts3.
    assert (heap s2 !! top = Some pn) as Htop2.
    { rewrite Hag2 by lia. simpl. by apply lookup_app_l_Some. }
    assert (kind pn <> DataNode) as Hkp.
    { destruct (wf_stack_nodes _ _ (proj2 HI) top) as (pn0 & Hpn0 & Hk0).
      - rewrite Hns. on_stack.
      - congruence. }
    assert (heap s3 !! top = Some (AddChild a pn)) as Htop3.
    { simpl. by rewrite list_lookup_alter_eq, Htop2. }
    assert (length (heap s3) = length (heap s2)) as Hlen3
      by (simpl; by rewrite length_alter).
    destruct (IHr s3 ns top _ HI3 Hts3 eq_refl Htop3)
      as (s4 & csr & pn' & Hr4 & Hes4 & Hns4 & Hlen4 & Hag4 & Htop4 & Hl4
          & Hc4 & Hnew4 & Hrd4).
    pose proof (run_TreeShaped _ _ _ HI3 Hts3 Hr4) as Hts4.
    exists s4, (a :: csr), pn'.
    split; [by rewrite run_cons, Hs1, run_app, Hr2, run_cons, Hs3|].
    split; [by rewrite Hes4|]. split; [by rewrite Hns4|]. split; [lia|].
    split; [|split; [done|split; [|split; [|split]]]].
    + intros x Hx Hne. rewrite Hag4 by lia. simpl.
      rewrite list_lookup_alter_ne by done. rewrite Hag2 by lia.
      simpl. by apply lookup_app_l.
    + by rewrite Hl4, label_AddChild.
    + rewrite Hc4, (children_AddChild _ _ Hkp), <- app_assoc. done.
    + constructor; [done|]. eapply Forall_impl; [exact Hnew4|].
      intros c Hc. cbv beta in Hc. lia.
    + constructor; [|done].
      assert (heap s4 !! a = Some pnb) as Ha4.
      { rewrite Hag4 by lia. simpl. by rewrite list_lookup_alter_ne by lia. }
      rewrite <- label_newNodeByStartElement, <- Hl2.
      apply Reads_node; [apply Hts4|done|].
      rewrite Hc2, (proj1 (newNodeByStartElement_fresh e)). simpl.
      eapply Forall2_impl_elem; [exact Hrd2|]. intros c t Hin Hrd.
      apply (Reads_agree (heap s2)); [apply Hts2| |done].
      intros x Hx Hxlt.
      assert (S a <= c)%nat.
      { rewrite <- Hlen1. by apply (proj1 (Forall_forall _ _) Hnew2 c Hin). }
      rewrite Hag4 by lia. simpl. by rewrite list_lookup_alter_ne by lia.
  - (* an element of another name *)
    pose proof (step_StartElement e s) as Hs1.
    match type of Hs1 with _ = Continue ?t => set (s1 := t) in * end.
    pose proof (step_Inv _ _ _ HI Hs1) as HI1.
    pose proof (step_TreeShaped _ _ _ HI Hts Hs1) as Hts1.
    pose proof (lookup_lt_Some _ _ _ Htop) as Htoplt.
    set (a := length (heap s)) in *.
    assert (nodeStack s1 = (ns ++ [top]) ++ [a]) as Hns1
      by (simpl; by rewrite Hns).
    assert (heap s1 !! a = Some (newNodeByStartElement e)) as Ha1
      by (simpl; by apply list_lookup_middle).
    assert (length (heap s1) = S a) as Hlen1
      by (simpl; rewrite length_app; simpl; lia).
    destruct (IHb s1 (ns ++ [top]) a _ HI1 Hts1 Hns1 Ha1)
      as (s2 & csb & pnb & Hr2 & Hes2 & Hns2 & Hlen2 & Hag2 & Ha2 & Hl2
          & Hc2 & Hnew2 & Hrd2).
    pose proof (run_Inv _ _ _ HI1 Hr2) as HI2.
    pose proof (run_TreeShaped _ _ _ HI1 Hts1 Hr2) as Hts2.
    assert (startElementStack s2 = startElementStack s ++ [e]) as Hes2'
      by (by rewrite Hes2).
    destruct (step_EndElement_closes e' s2 _ e HI2 Hes2' Hn)
      as (ns' & parent & popNode & popped & Hns2' & Hpop & Hs3).
    rewrite Hns2, Hns1 in Hns2'.
    replace (ns' ++ [parent; popNode]) with ((ns' ++ [parent]) ++ [popNode])
      in Hns2' by (by rewrite <- app_assoc).
    apply app_inj_tail in Hns2' as [Hns2' <-].
    apply app_inj_tail in Hns2' as [<- <-].
    rewrite Ha2 in Hpop. injection Hpop as <-.
    assert (NodeKind_eqb (kind pnb) EmptyNode = true) as Hkb'.
    { apply NodeKind_eqb_eq.
      replace (kind pnb) with (kind (label pnb)) by done. rewrite Hl2.
      rewrite label_newNodeByStartElement.
      by rewrite (newNodeByStartElement_unknown _ Hkn). }
    rewrite Hkb' in Hs3.
    match type of Hs3 with _ = Continue ?t => set (s3 := t) in * end.
    pose proof (step_Inv _ _ _ HI2 Hs3) as HI3.
    pose proof (step_TreeShaped _ _ _ HI2 Hts2 Hs3) as Hts3.
    assert (heap s3 !! top = Some pn) as Htop3.
    { simpl. rewrite Hag2 by lia. simpl. by apply lookup_app_l_Some. }
    destruct (IHr s3 ns top _ HI3 Hts3 eq_refl Htop3)
      as (s4 & csr & pn' & Hr4 & Hes4 & Hns4 & Hlen4 & Hag4 & Htop4 & Hl4
          & Hc4 & Hnew4 & Hrd4).
    exists s4, csr, pn'.
    split; [by rewrite run_cons, Hs1, run_app, Hr2, run_cons, Hs3|].
    split; [by rewrite Hes4|]. split; [by rewrite Hns4|].
    simpl in Hlen4, Hag4, Hnew4.
    split; [lia|].
    split; [|split; [done|split; [done|split; [done|split; [|done]]]]].
    + intros x Hx Hne. rewrite Hag4 by lia. rewrite Hag2 by lia.
      simpl. by apply lookup_app_l.
    + eapply Forall_impl; [exact Hnew4|]. simpl. intros c Hc. lia.
Qed.

(** Well-nested tokens have a recursive reading. *)
Lemma Nested_Forest tokens : Nested tokens -> exists f, Forest tokens f.
Proof.
  induction 1 as [|token rest Hp _ [f IH]|e body e' rest Hn _ [fb IHb] _ [f IHr]].
  - exists []. constructor.
  - destruct (skipped token) eqn:Hsk.
    + exists f. by apply Forest_skip.
    + destruct token as [e|e|ele|ele|ta i|ele]; try discriminate.
      simpl in Hp, Hsk. unfold accepted in Hp. rewrite Hsk in Hp. simpl in Hp.
      destruct (scan (TrimSpace ele)) as [err|segs] eqn:Hscan; [done|].
      eexists. by apply (Forest_text ele segs).
  - destruct (known (xml.Local (xml.StartElement_Name e))) eqn:Hkn.
    + eexists. by apply (Forest_known e body e' rest fb f).
    + exists f. by apply (Forest_unknown e body e' rest fb f).
Qed.

(** Tokens with a recursive reading make [Parse] return the tree of this
    reading under the root. *)
Lemma Forest_Parse p f :
  xml.final (d p) = xml.EOF ->
  Forest (xml.pending (d p)) f ->
  exists h, snd (Parse p) = Ok root h
            /\ treeAt h root = Some (L NewRootNode f).
Proof.
  intros Hf HF.
  destruct (Forest_run _ _ HF (initial (currentLine p)) [] root NewRootNode
              (Inv_initial _) TreeShaped_initial eq_refl eq_refl)
    as (s & cs & pn & Hr & Hes & _ & _ & _ & Hroot & Hl & Hc & _ & Hrd).
  pose proof (run_TreeShaped _ _ _ (Inv_initial _) TreeShaped_initial Hr) as Hts.
  exists (heap s). split.
  - rewrite Parse_result, Hr, Hf. simpl. simpl in Hes. by rewrite Hes.
  - apply Reads_treeAt; [apply Hts|].
    change NewRootNode with (label NewRootNode). rewrite <- Hl.
    apply Reads_node; [apply Hts|done|]. by rewrite Hc.
Qed.

(** A tree [Parse] returns is that of a recursive reading of the
    tokens. *)
Lemma Parse_Forest p r h :
  snd (Parse p) = Ok r h ->
  exists f, Forest (xml.pending (d p)) f
            /\ treeAt h r = Some (L NewRootNode f).
Proof.
  intros HOk.
  destruct (Parse_Ok _ _ _ HOk) as (-> & sf & Hr & -> & Hes & Hf).
  pose proof (run_Open _ _ _ Hr) as Ho. rewrite Hes in Ho.
  destruct (Nested_Forest _ (Open_nil_inv _ Ho)) as [f HF].
  exists f. split; [done|].
  destruct (Forest_Parse p f Hf HF) as (h' & HOk' & Htree).
  rewrite HOk in HOk'. by injection HOk' as <-.
Qed.

(** Tokens have one recursive reading at most. *)
Lemma Forest_unique tokens f f' :
  Forest tokens f -> Forest tokens f' -> f = f'.
Proof.
  intros HF HF'.
  set (q := NewParser {| xml.pending := tokens; xml.final := xml.EOF |}).
  destruct (Forest_Parse q f eq_refl HF) as (h & HOk & Ht).
  destruct (Forest_Parse q f' eq_refl HF') as (h' & HOk' & Ht').
  rewrite HOk in HOk'. injection HOk' as <-.
  rewrite Ht in Ht'. by injection Ht'.
Qed.

Lemma Forest_app t1 t2 f1 f2 :
  Forest t1 f1 -> Forest t2 f2 -> Forest (t1 ++ t2) (f1 ++ f2).
Proof.
  induction 1 as [|token rest f Hsk _ IH|ele segs rest f Hb Hscan _ IH
                 |e body e' rest fb f Hn Hkn Hbody _ _ IHr
                 |e body e' rest fb f Hn Hkn Hbody _ _ IHr]; intros H2.
  - done.
  - simpl. apply Forest_skip; auto.
  - simpl. apply Forest_text; auto.
  - simpl. rewrite <- app_assoc. simpl. apply Forest_known; auto.
  - simpl. rewrite <- app_assoc. simpl. by eapply Forest_unknown; auto.
Qed.

(** X9. The loop with its two stacks builds the tree of the recursive
    reading.  When the decoder ends with [io.EOF] and its tokens read as
    the trees [f], [Parse] returns a heap in which the tree under [root]
    is the root node over [f]: for each element of a name of the dispatch
    table the node [newNodeByStartElement] makes of it, and for each chunk
    of character data of which something is left once trimmed a
    [DataNode] with the trimmed bytes and their segments, all in the
    order of the tokens, each element over what it contains; without what
    is skipped, and without the elements of other names and what they
    contain.  And whenever [Parse] returns a tree, the tokens have such a
    reading and the tree is that one; tokens have one reading at most. *)
Theorem Parse_builds_the_recursive_reading p :
  (forall f,
     xml.final (d p) = xml.EOF ->
     Forest (xml.pending (d p)) f ->
     exists h, snd (Parse p) = Ok root h
               /\ treeAt h root = Some (L NewRootNode f))
  /\ (forall r h,
        snd (Parse p) = Ok r h ->
        exists f, Forest (xml.pending (d p)) f
                  /\ treeAt h r = Some (L NewRootNode f))
  /\ (forall f f',
        Forest (xml.pending (d p)) f -> Forest (xml.pending (d p)) f' ->
        f = f').
Proof.
  split; [apply Forest_Parse|split; [apply Parse_Forest|apply Forest_unique]].
Qed.

(** X10. Documents concatenate.  When [Parse] returns a tree for the
    tokens of one decoder and a tree for those of another, it returns a
    tree for the tokens of the first followed by those of the second, and
    the children of its root are the trees under the root of the first,
    then those under the root of the second: [Parse] asks for no single
    outermost element. *)
Theorem documents_concatenate p1 p2 p h1 h2 f1 f2 :
  xml.final (d p) = xml.EOF ->
  xml.pending (d p) = xml.pending (d p1) ++ xml.pending (d p2) ->
  snd (Parse p1) = Ok root h1 ->
  treeAt h1 root = Some (L NewRootNode f1) ->
  snd (Parse p2) = Ok root h2 ->
  treeAt h2 root = Some (L NewRootNode f2) ->
  exists h, snd (Parse p) = Ok root h
            /\ treeAt h root = Some (L NewRootNode (f1 ++ f2)).
Proof.
  intros Hf Htok HOk1 Ht1 HOk2 Ht2.
  destruct (Parse_Forest _ _ _ HOk1) as (f1' & HF1 & Ht1').
  destruct (Parse_Forest _ _ _ HOk2) as (f2' & HF2 & Ht2').
  rewrite Ht1 in Ht1'. injection Ht1' as <-.
  rewrite Ht2 in Ht2'. injection Ht2' as <-.
  apply Forest_Parse; [done|]. rewrite Htok. by apply Forest_app.
Qed.

(** * The dispatch table *)

Lemma newNodeByStartElement_same_name e e' :
  xml.Local (xml.StartElement_Name e') = xml.Local (xml.StartElement_Name e) ->
  kind (newNodeByStartElement e') = kind (newNodeByStartElement e).
Proof.
  intros He. unfold newNodeByStartElement. rewrite He.
  repeat case_match; reflexivity.
Qed.

(** X11. [newNodeByStartElement] looks at the local name of the element and
    at nothing else, neither the name space nor the attributes, and
    compares it as it is written: the node is a [MapperNode] for [mapper]
    and for no other name, a [QueryNode] for [select], [update], [insert]
    and [delete], an [IfNode] for [if], a [ChooseNode] for [choose], a
    [WhenNode] for [when], an [OtherwiseNode] for [otherwise], and an
    [EmptyNode] for every other name; never a [RootNode] nor a
    [DataNode]; and it has no child. *)
Theorem dispatch_table e :
  (kind (newNodeByStartElement e) = MapperNode
   <-> xml.Local (xml.StartElement_Name e) = "mapper"%string)
  /\ (kind (newNodeByStartElement e) = QueryNode
      <-> xml.Local (xml.StartElement_Name e) = "select"%string
          \/ xml.Local (xml.StartElement_Name e) = "update"%string
          \/ xml.Local (xml.StartElement_Name e) = "insert"%string
          \/ xml.Local (xml.StartElement_Name e) = "delete"%string)
  /\ (kind (newNodeByStartElement e) = IfNode
      <-> xml.Local (xml.StartElement_Name e) = "if"%string)
  /\ (kind (newNodeByStartElement e) = ChooseNode
      <-> xml.Local (xml.StartElement_Name e) = "choose"%string)
  /\ (kind (newNodeByStartElement e) = WhenNode
      <-> xml.Local (xml.StartElement_Name e) = "when"%string)
  /\ (kind (newNodeByStartElement e) = OtherwiseNode
      <-> xml.Local (xml.StartElement_Name e) = "otherwise"%string)
  /\ (kind (newNodeByStartElement e) = EmptyNode
      <-> known (xml.Local (xml.StartElement_Name e)) = false)
  /\ kind (newNodeByStartElement e) <> RootNode
  /\ kind (newNodeByStartElement e) <> DataNode
  /\ children (newNodeByStartElement e) = []
  /\ forall e',
       xml.Local (xml.StartElement_Name e')
       = xml.Local (xml.StartElement_Name e) ->
       kind (newNodeByStartElement e') = kind (newNodeByStartElement e).
Proof.
  repeat match goal with |- _ /\ _ => split end;
    try apply newNodeByStartElement_same_name;
    try apply newNodeByStartElement_fresh;
    unfold newNodeByStartElement, known;
    set (name := xml.Local (xml.StartElement_Name e)); simpl;
    repeat match goal with
      | |- context [String.eqb name ?s] =>
          destruct (String.eqb_spec name s) as [->|?]; simpl
      end;
    intuition congruence.
Qed.

(** * The decoder and the line counter after [Parse] *)

Lemma loop_Continue tokens final :
  forall s s',
    run tokens s = Continue s' ->
    loop tokens final s = ([], line s', tokenError final s').
Proof.
  induction tokens as [|token rest IH]; intros s s' Hr.
  - by injection Hr as <-.
  - rewrite run_cons in Hr. simpl.
    destruct (step token s) as [s1| |]; try discriminate. by apply IH.
Qed.

Lemma loop_Fail pre token post final :
  forall s s1 l e,
    run pre s = Continue s1 ->
    step token s1 = Fail l e ->
    loop (pre ++ token :: post) final s = (post, l, Error e).
Proof.
  induction pre as [|t pre IH]; intros s s1 l e Hr Hs.
  - injection Hr as <-. simpl. by rewrite Hs.
  - rewrite run_cons in Hr. simpl.
    destruct (step t s) as [s0| |]; try discriminate. by eapply IH.
Qed.

Lemma Parse_fst p :
  fst (Parse p)
  = {| d := {| xml.pending :=
                 fst (fst (loop (xml.pending (d p)) (xml.final (d p))
                             (initial (currentLine p))));
               xml.final := xml.final (d p) |};
       buf := buf p; cursor := cursor p;
       currentLine :=
         snd (fst (loop (xml.pending (d p)) (xml.final (d p))
                     (initial (currentLine p)))) |}.
Proof.
  unfold Parse.
  by destruct (loop (xml.pending (d p)) (xml.final (d p))
                 (initial (currentLine p))) as [[rest l] r].
Qed.

(** X12. [Parse] reads the decoder up to the first token it rejects, this
    one included, and no further: after tokens that all go through, the
    decoder has none left, whatever [Parse] then returns; after an
    iteration that returns an error, the decoder holds the tokens that
    follow the one of this iteration.  The other fields of the parser are
    left as they are.  A second call after a tree was returned finds the
    decoder at [io.EOF] and returns a root without children. *)
Theorem Parse_leaves_the_decoder p :
  (forall s,
     run (xml.pending (d p)) (initial (currentLine p)) = Continue s ->
     fst (Parse p)
     = {| d := {| xml.pending := []; xml.final := xml.final (d p) |};
          buf := buf p; cursor := cursor p; currentLine := line s |})
  /\ (forall pre token post s l e,
        xml.pending (d p) = pre ++ token :: post ->
        run pre (initial (currentLine p)) = Continue s ->
        step token s = Fail l e ->
        fst (Parse p)
        = {| d := {| xml.pending := post; xml.final := xml.final (d p) |};
             buf := buf p; cursor := cursor p; currentLine := l |}
        /\ snd (Parse p) = Error e)
  /\ (forall r h,
        snd (Parse p) = Ok r h ->
        snd (Parse (fst (Parse p))) = Ok root [NewRootNode]).
Proof.
  split; [|split].
  - intros s Hr. rewrite Parse_fst.
    by rewrite (loop_Continue _ (xml.final (d p)) _ _ Hr).
  - intros pre token post s l e Htok Hr Hs. split.
    + rewrite Parse_fst, Htok.
      by rewrite (loop_Fail pre token post (xml.final (d p)) _ _ _ _ Hr Hs).
    + by rewrite Parse_result, Htok, run_app, Hr, run_cons, Hs.
  - intros r h HOk.
    destruct (Parse_Ok _ _ _ HOk) as (_ & sf & Hr & _ & _ & Hf).
    rewrite Parse_result, Parse_fst.
    rewrite (loop_Continue _ (xml.final (d p)) _ _ Hr). simpl.
    by rewrite Hf.
Qed.

Lemma uint_incr_range (z : Z) : 0 <= uint_incr z < uint_modulus.
Proof. unfold uint_incr. apply Z.mod_pos_bound. reflexivity. Qed.

Lemma iter_uint_incr_mod (k : nat) l :
  0 <= l < uint_modulus ->
  Nat.iter k uint_incr l = (l + Z.of_nat k) mod uint_modulus.
Proof.
  intros Hl. induction k as [|k IH].
  - simpl. rewrite Z.add_0_r. symmetry. by apply Z.mod_small.
  - rewrite Nat.iter_succ, IH. unfold uint_incr.
    rewrite Zplus_mod_idemp_l. f_equal. lia.
Qed.

Lemma countLines_mod ele l :
  0 <= l < uint_modulus ->
  countLines ele l = (l + newlines ele) mod uint_modulus.
Proof.
  intros Hl. rewrite countLines_iter, (iter_uint_incr_mod _ _ Hl).
  rewrite Z2Nat.id; [done|apply newlines_nonneg].
Qed.

Lemma step_line_mod token s :
  0 <= line s < uint_modulus ->
  lineOf (step token s) = (line s + newlinesOf token) mod uint_modulus.
Proof.
  intros Hl. rewrite step_line.
  destruct token as [e|e|ele|ele|ta i|ele]; simpl;
    try (by apply countLines_mod);
    rewrite Z.add_0_r; symmetry; by apply Z.mod_small.
Qed.

(** The tokens the loop has read when it returns, and the line counter
    then. *)
Lemma loop_line tokens final :
  forall s,
    0 <= line s < uint_modulus ->
    exists consumed,
      tokens = consumed ++ fst (fst (loop tokens final s))
      /\ snd (fst (loop tokens final s))
         = (line s + totalNewlines consumed) mod uint_modulus.
Proof.
  assert (0 < uint_modulus) as HM by reflexivity.
  induction tokens as [|token rest IH]; intros s Hl.
  - exists []. simpl. split; [done|]. rewrite Z.add_0_r. symmetry.
    by apply Z.mod_small.
  - pose proof (step_line_mod token s Hl) as Hstep. simpl.
    destruct (step token s) as [s1|l e|l] eqn:Hs; simpl in Hstep.
    + destruct (IH s1) as (consumed & Hc & Hline).
      { rewrite Hstep. by apply Z.mod_pos_bound. }
      exists (token :: consumed). split; [simpl; by rewrite <- Hc|].
      rewrite Hline, Hstep. simpl. rewrite Zplus_mod_idemp_l. f_equal. lia.
    + exists [token]. simpl. split; [done|]. rewrite Hstep. f_equal. lia.
    + exists [token]. simpl. split; [done|]. rewrite Hstep. f_equal. lia.
Qed.

(** X13. The line counter after [Parse] is the counter before plus the
    newline bytes of the character data and comments among the tokens
    [Parse] has read, modulo 2^64: a [uint] that wraps around.  The tokens
    read are those the decoder no longer holds, the rejected one
    included. *)
Theorem line_counter_wraps_around p consumed :
  0 <= currentLine p < uint_modulus ->
  xml.pending (d p) = consumed ++ xml.pending (d (fst (Parse p))) ->
  currentLine (fst (Parse p))
  = (currentLine p + totalNewlines consumed) mod uint_modulus.
Proof.
  intros Hl Hc.
  destruct (loop_line (xml.pending (d p)) (xml.final (d p))
              (initial (currentLine p)) Hl) as (consumed' & Hc' & Hline).
  rewrite Parse_fst in Hc |- *. simpl in Hc |- *.
  rewrite Hc' in Hc at 1. apply app_inv_tail in Hc as <-. exact Hline.
Qed.

(** * White space *)

Lemma TrimSpace_cons (b : byte) (s : list byte) :
  TrimSpace (b :: s)
  = if notASCII b then TrimFunc_IsSpace (b :: s)
    else if asciiSpace b then TrimSpace s
    else trimRight (rev (b :: s)).
Proof. reflexivity. Qed.

Lemma trimRight_cons (b : byte) (r : list byte) :
  trimRight (b :: r)
  = if notASCII b then TrimRightFunc_IsSpace (rev (b :: r))
    else if asciiSpace b then trimRight r
    else rev (b :: r).
Proof. reflexivity. Qed.

Lemma dropSpaces_cons (b : byte) (s : list byte) :
  dropSpaces (b :: s) = if asciiSpace b then dropSpaces s else b :: s.
Proof. reflexivity. Qed.

Lemma isASCII_cons (b : byte) (s : list byte) :
  isASCII (b :: s) = true <-> notASCII b = false /\ isASCII s = true.
Proof.
  unfold isASCII. change (forallb (fun ch => negb (notASCII ch)) (b :: s))
    with (negb (notASCII b) && forallb (fun ch => negb (notASCII ch)) s).
  rewrite andb_true_iff, negb_true_iff. done.
Qed.

Lemma forallb_rev_true (P : byte -> bool) (s : list byte) :
  forallb P s = true -> forallb P (rev s) = true.
Proof.
  intros H. apply forallb_forall. intros b Hin. apply in_rev in Hin.
  revert b Hin. by apply forallb_forall.
Qed.

Lemma trimRight_ASCII (r : list byte) :
  isASCII r = true -> trimRight r = rev (dropSpaces r).
Proof.
  induction r as [|b r IH]; intros H; [done|].
  apply isASCII_cons in H as [Hb Hr].
  rewrite trimRight_cons, dropSpaces_cons, Hb.
  destruct (asciiSpace b); [by apply IH|done].
Qed.

(** On bytes that are all ASCII, [strings.TrimSpace] does not reach its
    Unicode-aware functions. *)
Lemma TrimSpace_ASCII (s : list byte) :
  isASCII s = true -> TrimSpace s = TrimASCII s.
Proof.
  induction s as [|b s IH]; intros H; [done|].
  pose proof H as H'. apply isASCII_cons in H' as [Hb Hs].
  rewrite TrimSpace_cons, Hb. unfold TrimASCII.
  rewrite dropSpaces_cons. destruct (asciiSpace b).
  - by apply IH.
  - unfold TrimRightASCII. apply trimRight_ASCII. by apply forallb_rev_true.
Qed.

Lemma dropSpaces_split (s : list byte) :
  exists pre, s = pre ++ dropSpaces s /\ forallb asciiSpace pre = true.
Proof.
  induction s as [|b s (pre & Hs & Hpre)].
  - by exists [].
  - rewrite dropSpaces_cons. destruct (asciiSpace b) eqn:Hb.
    + exists (b :: pre). split; [simpl; by rewrite <- Hs|].
      simpl. by rewrite Hb.
    + by exists [].
Qed.

Lemma dropSpaces_head (s : list byte) (b : byte) (r : list byte) :
  dropSpaces s = b :: r -> asciiSpace b = false.
Proof.
  induction s as [|b' s IH]; [done|]. rewrite dropSpaces_cons.
  destruct (asciiSpace b') eqn:Hb; [done|]. by intros [= <- _].
Qed.

Lemma TrimASCII_split (s : list byte) :
  exists pre post,
    s = pre ++ TrimASCII s ++ post
    /\ forallb asciiSpace pre = true /\ forallb asciiSpace post = true
    /\ dropSpaces s = TrimASCII s ++ post.
Proof.
  destruct (dropSpaces_split s) as (pre & Hs & Hpre).
  destruct (dropSpaces_split (rev (dropSpaces s))) as (q & Hq & Hqs).
  exists pre, (rev q).
  assert (dropSpaces s = TrimASCII s ++ rev q) as Hm.
  { unfold TrimASCII, TrimRightASCII. rewrite <- rev_app_distr, <- Hq.
    by rewrite rev_involutive. }
  split; [by rewrite <- Hm|]. split; [done|]. split; [by apply forallb_rev_true|done].
Qed.

(** X14. What [Parse] takes for white space around character data, on a
    chunk of ASCII bytes: the six bytes tab, line feed, vertical tab,
    form feed, carriage return and space.  The chunk is skipped if, and
    only if, it has no other byte; if it has, the bytes of the
    [DataNode] are the chunk without the white space before its first
    other byte and after its last, so that they begin and end with a byte
    that is no white space.  A chunk of these six bytes leaves the heap
    and the stacks as they are, in any state. *)
Theorem white_space_of_ASCII_chunks ele :
  isASCII ele = true ->
  (blankChunk ele = true <-> forallb asciiSpace ele = true)
  /\ (exists pre post,
        ele = pre ++ TrimSpace ele ++ post
        /\ forallb asciiSpace pre = true /\ forallb asciiSpace post = true)
  /\ (forall (b : byte) rest,
        TrimSpace ele = b :: rest -> asciiSpace b = false)
  /\ (forall init (b : byte),
        TrimSpace ele = init ++ [b] -> asciiSpace b = false)
  /\ forall s,
       forallb asciiSpace ele = true ->
       step (xml.TCharData ele) s
       = Continue {| line := countLines ele (line s); heap := heap s;
                     startElementStack := startElementStack s;
                     nodeStack := nodeStack s |}.
Proof.
  intros HA. rewrite blankChunk_true, (TrimSpace_ASCII _ HA).
  destruct (TrimASCII_split ele) as (pre & post & Hele & Hpre & Hpost & Hm).
  split; [|split; [|split; [|split]]].
  - split.
    + intros Hnil. rewrite Hele, Hnil, !forallb_app, Hpre, Hpost. done.
    + intros Hsp. rewrite <- (TrimSpace_ASCII _ HA).
      by apply TrimSpace_asciiSpace.
  - by exists pre, post.
  - intros b rest Hb. rewrite Hb in Hm. by apply (dropSpaces_head _ _ _ Hm).
  - intros init b Hb. unfold TrimASCII, TrimRightASCII in Hb.
    apply (f_equal (@rev byte)) in Hb.
    rewrite rev_involutive, rev_app_distr in Hb. simpl in Hb.
    by apply (dropSpaces_head _ _ _ Hb).
  - intros s Hsp. apply step_CharData_blank. by apply TrimSpace_asciiSpace.
Qed.

(** * Nodes that have left the node stack *)

Lemma step_frozen token s s' a :
  Inv s -> step token s = Continue s' ->
  (a < length (heap s))%nat -> a ∉ nodeStack s ->
  heap s' !! a = heap s !! a /\ a ∉ nodeStack s'.
Proof.
  intros HI Hs Ha Hout.
  destruct (step_Continue_cases _ _ _ HI Hs)
    as [(e & _ & -> & _ & ->)
       |[(e & es & top & ns & parent & popNode & popped & _ & _ & _ & Hns & _
          & -> & _ & ->)
        |[(ele & segs & ns & parent & pn & _ & _ & _ & Hns & _ & _ & -> & _
           & ->)
         |(_ & -> & _ & ->)]]].
  - split; [by apply lookup_app_l|].
    intros Hin. apply elem_of_app in Hin as [Hin|Hin]; [done|].
    apply list_elem_of_singleton in Hin. lia.
  - assert (a <> parent) as Hne.
    { intros ->. apply Hout. rewrite Hns. on_stack. }
    split.
    + destruct (NodeKind_eqb (kind popped) EmptyNode); [done|].
      by apply list_lookup_alter_ne.
    + intros Hin. apply Hout. rewrite Hns. revert Hin.
      rewrite !elem_of_app, !list_elem_of_In. simpl. tauto.
  - assert (a <> parent) as Hne.
    { intros ->. apply Hout. rewrite Hns. on_stack. }
    split; [|done].
    rewrite list_lookup_alter_ne by done. by apply lookup_app_l.
  - done.
Qed.

Lemma run_frozen tokens :
  forall s s' a,
    Inv s -> run tokens s = Continue s' ->
    (a < length (heap s))%nat -> a ∉ nodeStack s ->
    heap s' !! a = heap s !! a /\ a ∉ nodeStack s'.
Proof.
  induction tokens as [|token rest IH]; intros s s' a HI Hr Ha Hout.
  - by injection Hr as <-.
  - rewrite run_cons in Hr.
    destruct (step token s) as [s1| |] eqn:Hs; try discriminate.
    destruct (step_frozen _ _ _ _ HI Hs Ha Hout) as [Heq Hout1].
    destruct (IH s1 s' a (step_Inv _ _ _ HI Hs) Hr) as [Heq' Hout'];
      [|done|].
    + rewrite (step_length _ _ _ HI Hs). lia.
    + split; [congruence|done].
Qed.

(** X15. A node that is not on the node stack is final: once the end
    element of its element has been read, or, for a [DataNode], from its
    allocation on, [Parse] never changes it again, and it never comes
    back on the node stack.  Only the nodes of the elements still open,
    and the root, can get children. *)
Theorem closed_nodes_are_final l t1 t2 s1 s2 a (n : Node) :
  run t1 (initial l) = Continue s1 ->
  run t2 s1 = Continue s2 ->
  heap s1 !! a = Some n ->
  a ∉ nodeStack s1 \/ kind n = DataNode ->
  heap s2 !! a = Some n /\ a ∉ nodeStack s2.
Proof.
  intros Hr1 Hr2 Ha Hout.
  pose proof (run_Inv _ _ _ (Inv_initial l) Hr1) as HI1.
  assert (a ∉ nodeStack s1) as Hout'.
  { destruct Hout as [Hout|Hk]; [done|]. intros Hin.
    destruct (wf_stack_nodes _ _ (proj2 HI1) a Hin) as (n' & Hn' & Hk').
    congruence. }
  destruct (run_frozen t2 s1 s2 a HI1 Hr2) as [Heq Hout2];
    [by eapply lookup_lt_Some|done|].
  split; [congruence|done].
Qed.

(** * Elements that leave no trace *)

(** Two states of the loop with the same elements open go the same way on
    a token, as far as the element stack and the errors go. *)
Lemma step_same_stack token s s' :
  Inv s -> Inv s' -> startElementStack s = startElementStack s' ->
  match step token s, step token s' with
  | Continue t, Continue t' => startElementStack t = startElementStack t'
  | Fail _ e, Fail _ e' => e = e'
  | _, _ => False
  end.
Proof.
  intros HI HI' Hes. destruct token as [e|e|ele|ele|ta i|ele].
  - rewrite !step_StartElement. simpl. by rewrite Hes.
  - destruct (nil_or_not (startElementStack s)) as [Hnil|Hne].
    + rewrite (step_EndElement_unexpected _ _ Hnil).
      rewrite Hes in Hnil. by rewrite (step_EndElement_unexpected _ _ Hnil).
    + destruct (snoc_of_nonempty _ Hne) as (es & top & Htop).
      pose proof Htop as Htop'. rewrite Hes in Htop'.
      destruct (string_dec (xml.Local (xml.EndElement_Name e))
                  (xml.Local (xml.StartElement_Name top))) as [Heq|Hneq].
      * destruct (step_EndElement_closes _ _ _ _ HI Htop Heq)
          as (? & ? & ? & ? & _ & _ & ->).
        destruct (step_EndElement_closes _ _ _ _ HI' Htop' Heq)
          as (? & ? & ? & ? & _ & _ & ->).
        done.
      * rewrite (step_EndElement_mismatch _ _ _ _ Htop Hneq).
        by rewrite (step_EndElement_mismatch _ _ _ _ Htop' Hneq).
  - destruct (step_CharData_cases ele s HI)
      as [[Hb ->]|[(Hb & err & Hscan & ->)
                  |(Hb & segs & ns & parent & pn & Hscan & _ & _ & _ & ->)]];
      destruct (step_CharData_cases ele s' HI')
        as [[Hb' ->]|[(Hb' & err' & Hscan' & ->)
                     |(Hb' & segs' & ns' & parent' & pn' & Hscan' & _ & _ & _
                       & ->)]];
      simpl; congruence.
  - done.
  - done.
  - done.
Qed.

Lemma run_same_stack tokens :
  forall s s',
    Inv s -> Inv s' -> startElementStack s = startElementStack s' ->
    match run tokens s, run tokens s' with
    | Continue t, Continue t' => startElementStack t = startElementStack t'
    | Fail _ e, Fail _ e' => e = e'
    | _, _ => False
    end.
Proof.
  induction tokens as [|token rest IH]; intros s s' HI HI' Hes; [done|].
  rewrite !run_cons. pose proof (step_same_stack token s s' HI HI' Hes) as Hst.
  destruct (step token s) as [t| |] eqn:Hs, (step token s') as [t'| |] eqn:Hs';
    try done.
  apply IH; [apply (step_Inv _ _ _ HI Hs)|apply (step_Inv _ _ _ HI' Hs')|done].
Qed.

Lemma tokenError_same_stack final s s' :
  startElementStack s = startElementStack s' ->
  sameVerdict (tokenError final s) (tokenError final s').
Proof.
  intros Hes. unfold tokenError. rewrite Hes. destruct final; [|done].
  destruct (len (startElementStack s') =? 0); [done|].
  by destruct (index (startElementStack s') (len (startElementStack s') - 1)).
Qed.

Lemma Parse_resultOf p :
  snd (Parse p)
  = resultOf (xml.final (d p))
      (run (xml.pending (d p)) (initial (currentLine p))).
Proof. apply Parse_result. Qed.

(** A block of well-nested tokens leaves what follows to go as it would
    have gone without it. *)
Lemma Nested_block_verdict pre block post final s0 s0' :
  Nested block ->
  Inv s0 -> Inv s0' -> startElementStack s0 = startElementStack s0' ->
  sameVerdict (resultOf final (run (pre ++ block ++ post) s0))
              (resultOf final (run (pre ++ post) s0')).
Proof.
  intros Hn HI0 HI0' Hes0. rewrite !run_app.
  pose proof (run_same_stack pre s0 s0' HI0 HI0' Hes0) as Hpre.
  destruct (run pre s0) as [s1|l1 e1|l1] eqn:Hr1,
           (run pre s0') as [s1'|l1' e1'|l1'] eqn:Hr1'; try done.
  pose proof (run_Inv _ _ _ HI0 Hr1) as HI1.
  pose proof (run_Inv _ _ _ HI0' Hr1') as HI1'.
  destruct (Nested_run _ Hn s1 HI1) as (s2 & Hr2 & Hes2 & _).
  cbv beta iota. rewrite run_app, Hr2.
  pose proof (run_Inv _ _ _ HI1 Hr2) as HI2.
  assert (startElementStack s2 = startElementStack s1') as Hes by congruence.
  pose proof (run_same_stack post s2 s1' HI2 HI1' Hes) as Hpost.
  destruct (run post s2) as [t|l2 e2|l2], (run post s1') as [t'|l2' e2'|l2'];
    try done.
  by apply tokenError_same_stack.
Qed.

(** A block of tokens that reads as no tree can be put anywhere into
    tokens without a change to what they read as. *)
Lemma Forest_insert block :
  Forest block [] ->
  forall tokens f,
    Forest tokens f ->
    forall pre post, tokens = pre ++ post ->
                     Forest (pre ++ block ++ post) f.
Proof.
  intros Hblock tokens f HF.
  induction HF as [|token rest f Hsk HF IH|ele segs rest f Hb Hscan HF IH
                  |e body e' rest fb f Hn Hkn HFb IHb HFr IHr
                  |e body e' rest fb f Hn Hkn HFb IHb HFr IHr];
    intros pre post Heq.
  - symmetry in Heq. apply app_eq_nil in Heq as [-> ->].
    by rewrite app_nil_r.
  - destruct pre as [|t pre'].
    + simpl in Heq. subst post. simpl.
      apply (Forest_app block (token :: rest) [] f Hblock).
      by apply Forest_skip.
    + injection Heq as <- ->. simpl. apply Forest_skip; [done|]. by apply IH.
  - destruct pre as [|t pre'].
    + simpl in Heq. subst post. simpl.
      apply (Forest_app block (xml.TCharData ele :: rest) [] _ Hblock).
      by apply Forest_text.
    + injection Heq as <- ->. simpl. apply Forest_text; [done|done|].
      by apply IH.
  - destruct pre as [|t pre'].
    + simpl in Heq. subst post. simpl.
      apply (Forest_app block _ [] _ Hblock). by apply Forest_known.
    + injection Heq as <- Heq. simpl.
      apply app_eq_app in Heq as [m [[Hbody Hpost]|[Hpre Hrest]]].
      * subst post.
        replace (pre' ++ block ++ m ++ xml.TEndElement e' :: rest)
          with ((pre' ++ block ++ m) ++ xml.TEndElement e' :: rest)
          by (by rewrite <- !app_assoc).
        apply Forest_known; [done|done| |done]. by apply IHb.
      * subst pre'. destruct m as [|t m'].
        -- simpl in Hrest. subst post. rewrite app_nil_r.
           replace (body ++ block ++ xml.TEndElement e' :: rest)
             with ((body ++ block ++ []) ++ xml.TEndElement e' :: rest)
             by (by rewrite app_nil_r, <- app_assoc).
           apply Forest_known; [done|done| |done].
           apply IHb. by rewrite app_nil_r.
        -- injection Hrest as <- ->. rewrite <- app_assoc. simpl.
           apply Forest_known; [done|done|done|]. by apply IHr.
  - destruct pre as [|t pre'].
    + simpl in Heq. subst post. simpl.
      apply (Forest_app block _ [] _ Hblock). by eapply Forest_unknown.
    + injection Heq as <- Heq. simpl.
      apply app_eq_app in Heq as [m [[Hbody Hpost]|[Hpre Hrest]]].
      * subst post.
        replace (pre' ++ block ++ m ++ xml.TEndElement e' :: rest)
          with ((pre' ++ block ++ m) ++ xml.TEndElement e' :: rest)
          by (by rewrite <- !app_assoc).
        apply (Forest_unknown _ _ _ _ fb); [done|done| |done]. by apply IHb.
      * subst pre'. destruct m as [|t m'].
        -- simpl in Hrest. subst post. rewrite app_nil_r.
           replace (body ++ block ++ xml.TEndElement e' :: rest)
             with ((body ++ block ++ []) ++ xml.TEndElement e' :: rest)
             by (by rewrite app_nil_r, <- app_assoc).
           apply (Forest_unknown _ _ _ _ fb); [done|done| |done].
           apply IHb. by rewrite app_nil_r.
        -- injection Hrest as <- ->. rewrite <- app_assoc. simpl.
           apply (Forest_unknown _ _ _ _ fb); [done|done|done|]. by apply IHr.
Qed.


(** * The decoder of the library and what [Parse] returns *)

(** ** The strict decoder and the loop *)

(** [strict.delivers] is what [Parse] sees of a strict decoder: a call of
    [Token] on the decoder answers what [xml.Token_] answers on the
    tokens it delivers, and leaves a decoder that delivers the rest. *)
Lemma Token_delivers sd :
  xml.Token_ (strict.delivers sd)
  = (fst (strict.Token sd), strict.delivers (snd (strict.Token sd))).
Proof.
  unfold strict.Token, strict.delivers, xml.Token_.
  destruct (strict.err sd) as [e|] eqn:He; simpl.
  { by rewrite He. }
  destruct (strict.input sd) as [|item rest] eqn:Hin; simpl; [done|].
  destruct (strict.check item (strict.stk sd)) as [msg|stk'] eqn:Hc; simpl;
    [done|].
  by destruct (strict.stream rest _ _ _).
Qed.

Lemma opened_nil : opened [] = [].
Proof. done. Qed.

Lemma opened_snoc es e :
  opened (es ++ [e]) = xml.Local (xml.StartElement_Name e) :: opened es.
Proof. unfold opened. by rewrite map_app, rev_app_distr. Qed.

Lemma opened_nil_inv es (below : list string) :
  opened es ++ below = [] -> es = [] /\ below = [].
Proof.
  destruct es as [|e es] using rev_ind; [done|].
  by rewrite opened_snoc.
Qed.

(** An answer of [Token] that is [io.EOF] comes with nothing open. *)
Lemma answer_EOF stk l e :
  strict.answer stk l e = xml.EOF -> e = xml.EOF /\ stk = [].
Proof. by destruct e, stk. Qed.

(** With an element open, the answer is an error with a message. *)
Lemma answer_open top stk l e :
  exists msg, strict.answer (top :: stk) l e = xml.Other msg.
Proof. destruct e; simpl; eauto. Qed.

(** The stack of the decoder and the element stack of the loop go
    together: an iteration for a token the decoder hands over keeps the
    local names of the one those of the other, over what was open in the
    decoder when [Parse] was called.  The iteration fails for character
    data the tokenizer rejects, and for an end element only if it closes
    one of the latter. *)
Lemma step_check item stk stk1 s (below : list string) :
  Inv s ->
  strict.check item stk = inr stk1 ->
  map xml.Local stk = opened (startElementStack s) ++ below ->
  match step (strict.token item) s with
  | Continue s' =>
      map xml.Local stk1 = opened (startElementStack s') ++ below
  | Fail _ e =>
      (exists err, e = DataScanError err)
      \/ (exists name, e = UnexpectedEndElement name /\ below <> [])
  | Panic _ => False
  end.
Proof.
  intros Hinv Hcheck Hstk. unfold strict.check in Hcheck.
  destruct (strict.token item) as [e|e|ele|ele|target inst|ele] eqn:Htok.
  - injection Hcheck as <-. rewrite step_StartElement. simpl.
    by rewrite opened_snoc, Hstk.
  - destruct stk as [|top rest]; [done|]. simpl in Hcheck.
    destruct (String.eqb (xml.Local top) (xml.Local (xml.EndElement_Name e)))
      eqn:Hlocal; [|done]. simpl in Hcheck.
    destruct (String.eqb (xml.Space top) (strict.prefix item)); [|done].
    simpl in Hcheck. injection Hcheck as <-.
    apply String.eqb_eq in Hlocal.
    destruct (startElementStack s) as [|top' es _] eqn:Hes using rev_ind.
    + rewrite step_EndElement_unexpected by done. right.
      eexists. split; [done|]. simpl in Hstk. by rewrite <- Hstk.
    + rewrite opened_snoc in Hstk. simpl in Hstk.
      injection Hstk as Htop Hrest.
      destruct (step_EndElement_closes e s es top' Hinv Hes)
        as (ns & parent & popNode & popped & _ & _ & ->); [congruence|].
      done.
  - destruct (step_CharData_cases ele s Hinv)
      as [[_ ->]|[(_ & err & _ & ->)|(_ & segs & ns & parent & pn & _ & _ & _ & _ & ->)]];
      simpl; injection Hcheck as <-; eauto.
  - injection Hcheck as <-. done.
  - injection Hcheck as <-. done.
  - injection Hcheck as <-. done.
Qed.

(** The tokens a strict decoder hands over are those of the items it has
    read, and what it delivers after them is what it delivers from the
    items that are left. *)
Lemma stream_suffix pre :
  forall items atEnd stk l post final,
    strict.stream items atEnd stk l = (pre ++ post, final) ->
    exists read unread stk',
      items = read ++ unread
      /\ pre = map strict.token read
      /\ strict.stream unread atEnd stk' (l + strict.lines read)
         = (post, final).
Proof.
  induction pre as [|token pre IH]; intros items atEnd stk l post final Hs.
  { exists [], items, stk. simpl. by rewrite Z.add_0_r. }
  destruct items as [|item rest]; [done|]. simpl in Hs.
  destruct (strict.check item stk) as [msg|stk1] eqn:Hc; [done|].
  destruct (strict.stream rest atEnd stk1 (l + strict.newlines item))
    as [tokens final'] eqn:Hrest.
  injection Hs as <- -> ->.
  destruct (IH _ _ _ _ _ _ Hrest) as (read & unread & stk' & -> & -> & Hs').
  exists (item :: read), unread, stk'. simpl.
  by rewrite Z.add_assoc.
Qed.

(** The loop over the tokens of a strict decoder, up to any place: it
    does not panic; it fails only for character data the tokenizer
    rejects, or for an end element that closes an element open in the
    decoder when [Parse] was called; and where it continues, the decoder
    has read the items of the tokens, and its stack has the local names
    of the element stack, over those that were open before. *)
Lemma run_stream pre :
  forall items atEnd stk l post final s (below : list string),
    Inv s ->
    strict.stream items atEnd stk l = (pre ++ post, final) ->
    map xml.Local stk = opened (startElementStack s) ++ below ->
    match run pre s with
    | Continue s' =>
        Inv s'
        /\ exists read unread stk',
             items = read ++ unread
             /\ pre = map strict.token read
             /\ strict.stream unread atEnd stk' (l + strict.lines read)
                = (post, final)
             /\ map xml.Local stk' = opened (startElementStack s') ++ below
    | Fail _ e =>
        (exists err, e = DataScanError err)
        \/ (exists name, e = UnexpectedEndElement name /\ below <> [])
    | Panic _ => False
    end.
Proof.
  induction pre as [|token pre IH];
    intros items atEnd stk l post final s below Hinv Hs Hstk.
  { simpl. split; [done|]. exists [], items, stk. simpl.
    by rewrite Z.add_0_r. }
  destruct items as [|item rest]; [done|]. simpl in Hs.
  destruct (strict.check item stk) as [msg|stk1] eqn:Hc; [done|].
  destruct (strict.stream rest atEnd stk1 (l + strict.newlines item))
    as [tokens final'] eqn:Hrest.
  injection Hs as <- -> ->.
  pose proof (step_check item stk stk1 s below Hinv Hc Hstk) as Hstep.
  rewrite run_cons.
  destruct (step (strict.token item) s) as [s1|l1 e1|l1] eqn:Hs1; [|done..].
  pose proof (step_Inv _ _ _ Hinv Hs1) as Hinv1.
  specialize (IH _ _ _ _ _ _ s1 below Hinv1 Hrest Hstep).
  destruct (run pre s1) as [s'|l' e'|l']; [|done..].
  destruct IH as (Hinv' & read & unread & stk' & -> & -> & Hs' & Hstk').
  split; [done|]. exists (item :: read), unread, stk'. simpl.
  by rewrite Z.add_assoc.
Qed.

(** Where a strict decoder hands over no further token, it has read all
    its items and answers the error at their end, or it refuses the next
    item with a syntax error. *)
Lemma stream_nil unread atEnd stk l final :
  strict.stream unread atEnd stk l = ([], final) ->
  (unread = [] /\ final = strict.answer stk l atEnd)
  \/ (exists item rest msg,
        unread = item :: rest
        /\ strict.check item stk = inl msg
        /\ final = strict.syntaxError (l + strict.newlines item) msg).
Proof.
  destruct unread as [|item rest]; simpl.
  { intros [= <-]. by left. }
  destruct (strict.check item stk) as [msg|stk1] eqn:Hc.
  - intros [= <-]. right. by exists item, rest, msg.
  - by destruct (strict.stream rest atEnd stk1 _).
Qed.

(** What [Parse] returns when an iteration fails. *)
Lemma Parse_Fail p pre token post s l e :
  xml.pending (d p) = pre ++ token :: post ->
  run pre (initial (currentLine p)) = Continue s ->
  step token s = Fail l e ->
  snd (Parse p) = Error e.
Proof.
  intros Hp Hrun Hstep.
  by rewrite Parse_result, Hp, run_app, Hrun, run_cons, Hstep.
Qed.

(** A tree [Parse] returns is in the heap the loop reaches from any
    iteration on the way. *)
Lemma Parse_Ok_through p pre token post s s' r h :
  xml.pending (d p) = pre ++ token :: post ->
  run pre (initial (currentLine p)) = Continue s ->
  step token s = Continue s' ->
  snd (Parse p) = Ok r h ->
  exists sf, run post s' = Continue sf /\ r = root /\ h = heap sf.
Proof.
  intros Hp Hrun Hstep Hok.
  destruct (Parse_Ok p r h Hok) as (-> & sf & Hsf & -> & _ & _).
  rewrite Hp, run_app, Hrun, run_cons, Hstep in Hsf. by exists sf.
Qed.

(** The loop over the tokens of a strict decoder. *)
Lemma Parse_real p sd :
  d p = strict.delivers sd ->
  match run (xml.pending (d p)) (initial (currentLine p)) with
  | Continue s =>
      (xml.final (d p) = xml.EOF -> startElementStack s = [])
      /\ (startElementStack s <> [] ->
          exists msg, xml.final (d p) = xml.Other msg)
  | Fail _ e =>
      (exists err, e = DataScanError err)
      \/ (exists name, e = UnexpectedEndElement name /\ strict.stk sd <> [])
  | Panic _ => False
  end.
Proof.
  intros ->. unfold strict.delivers.
  destruct (strict.err sd) as [e|] eqn:He; simpl.
  { split; [done|]. by intros []. }
  destruct (strict.stream (strict.input sd) (strict.atEnd sd) (strict.stk sd)
              (strict.line sd)) as [tokens final] eqn:Hs. simpl.
  rewrite <- (app_nil_r tokens) in Hs.
  pose proof (run_stream tokens _ _ _ _ _ _ (initial (currentLine p))
                (map xml.Local (strict.stk sd)) (Inv_initial _) Hs eq_refl)
    as Hrun.
  destruct (run tokens (initial (currentLine p))) as [s|l e|l]; [|..].
  - destruct Hrun as (_ & read & unread & stk' & _ & _ & Hs' & Hstk').
    assert (Hfinal : final = xml.EOF -> startElementStack s = []).
    { intros ->.
      destruct (stream_nil _ _ _ _ _ Hs')
        as [[_ Ha]|(item & rest & msg & _ & _ & Ha)]; [|done].
      symmetry in Ha. apply answer_EOF in Ha as [_ ->].
      simpl in Hstk'. symmetry in Hstk'.
      by apply opened_nil_inv in Hstk' as [-> _]. }
    split; [done|]. intros Hopen.
    destruct final as [|msg]; [by destruct Hopen; apply Hfinal|by exists msg].
  - destruct Hrun as [?|(name & -> & Hb)]; [by left|right].
    exists name. split; [done|]. intros Hnil. by rewrite Hnil in Hb.
  - done.
Qed.

(** The tokens [Parse] leaves in the decoder are the last of those it
    found there. *)
Lemma loop_suffix tokens final :
  forall s, exists pre, tokens = pre ++ fst (fst (loop tokens final s)).
Proof.
  induction tokens as [|token rest IH]; intros s; simpl.
  { by exists []. }
  destruct (step token s) as [s'|l e|l].
  - destruct (IH s') as [pre Hpre]. exists (token :: pre). simpl. congruence.
  - by exists [token].
  - by exists [token].
Qed.

(** After [Parse] the decoder is a strict decoder still: what a second
    call of [Parse] is handed obeys the same check. *)
Lemma Parse_delivers p sd :
  d p = strict.delivers sd ->
  exists sd', d (fst (Parse p)) = strict.delivers sd'.
Proof.
  intros Hd. rewrite Parse_fst. simpl.
  destruct (loop_suffix (xml.pending (d p)) (xml.final (d p))
              (initial (currentLine p))) as [pre Hpre].
  set (rest := fst (fst (loop _ _ _))) in *. clearbody rest.
  rewrite Hd in *. unfold strict.delivers in *.
  destruct (strict.err sd) as [e|] eqn:He; simpl in *.
  { destruct pre; [|done]. simpl in Hpre. subst rest.
    exists sd. unfold strict.delivers. by rewrite He. }
  destruct (strict.stream (strict.input sd) (strict.atEnd sd) (strict.stk sd)
              (strict.line sd)) as [tokens final] eqn:Hs.
  simpl in *. subst tokens.
  destruct (stream_suffix _ _ _ _ _ _ _ Hs)
    as (read & unread & stk' & _ & _ & Hs').
  exists {| strict.input := unread; strict.atEnd := strict.atEnd sd;
            strict.stk := stk'; strict.err := None;
            strict.line := strict.line sd + strict.lines read |}.
  unfold strict.delivers. simpl. by rewrite Hs'.
Qed.

(** The items a strict decoder has read for the tokens it has handed
    over are the first of its input. *)
Lemma read_items (read read' : list strict.Item) unread unread' :
  read ++ unread = read' ++ unread' ->
  map strict.token read = map strict.token read' ->
  read' = read /\ unread' = unread.
Proof.
  intros Happ Hmap.
  assert (length read = length read') as Hlen.
  { by rewrite <- (length_map strict.token read), Hmap, length_map. }
  by destruct (app_inj_1 _ _ _ _ Hlen Happ) as [-> ->].
Qed.

(** A node popped from the node stack is on it no more. *)
Lemma popped_off h ns parent popNode :
  WellFormed h (ns ++ [parent; popNode]) -> popNode ∉ ns ++ [parent].
Proof.
  intros Hwf Hin. apply list_elem_of_lookup_1 in Hin as [i Hi].
  pose proof (lookup_lt_Some _ _ _ Hi) as Hlt.
  assert ((ns ++ [parent; popNode]) !! i = Some popNode) as Hi'.
  { replace (ns ++ [parent; popNode]) with ((ns ++ [parent]) ++ [popNode])
      by (by rewrite <- app_assoc).
    by apply lookup_app_l_Some. }
  assert ((ns ++ [parent; popNode]) !! length (ns ++ [parent]) = Some popNode)
    as Hlast.
  { replace (ns ++ [parent; popNode]) with ((ns ++ [parent]) ++ [popNode])
      by (by rewrite <- app_assoc).
    apply list_lookup_middle. done. }
  pose proof (wf_stack_sorted _ _ Hwf _ _ _ _ Hi' Hlast Hlt). lia.
Qed.

(** ** End elements *)


(** ** The end of the input *)


(** ** Character data, to the end of [Parse] *)

(** The [DataNode] of a chunk of character data, and the node that was on
    top of the node stack with it among its children, are in the heap
    [Parse] returns. *)
Lemma Parse_data p pre ele post s segs r h :
  xml.pending (d p) = pre ++ xml.TCharData ele :: post ->
  run pre (initial (currentLine p)) = Continue s ->
  TrimSpace ele <> [] ->
  scan (TrimSpace ele) = inr segs ->
  snd (Parse p) = Ok r h ->
  r = root
  /\ h !! length (heap s) = Some (dataNodeOf (TrimSpace ele) segs)
  /\ exists ns parent (pn pn' : Node) later,
       nodeStack s = ns ++ [parent]
       /\ heap s !! parent = Some pn
       /\ h !! parent = Some pn'
       /\ label pn' = label pn
       /\ children pn' = children pn ++ length (heap s) :: later.
Proof.
  intros Hp Hrun Hdata Hscan Hok.
  pose proof (run_Inv pre _ s (Inv_initial _) Hrun) as Hinv.
  destruct (step_CharData_Inv ele s Hinv Hdata)
    as (ns & parent & pn & Hns & Hpa & Hch & Hstep).
  rewrite Hscan in Hstep.
  destruct (Parse_Ok_through _ _ _ _ _ _ _ _ Hp Hrun Hstep Hok)
    as (sf & Hpost & -> & ->).
  pose proof (step_Inv _ _ _ Hinv Hstep) as Hinv'.
  pose proof (lookup_lt_Some _ _ _ Hpa) as Hlt.
  split; [done|]. split.
  - destruct (run_frozen post _ sf (length (heap s)) Hinv' Hpost) as [-> _].
    + simpl. rewrite length_insert, length_app. simpl. lia.
    + simpl. intros Hin. destruct Hinv as [_ Hwf].
      destruct (wf_stack_nodes _ _ Hwf _ Hin) as (m & Hm & _).
      apply lookup_lt_Some in Hm. lia.
    + simpl. rewrite list_lookup_insert_ne by lia.
      by rewrite list_lookup_middle.
  - destruct (run_keeps post _ sf parent (AddChild (length (heap s)) pn)
                Hinv' Hpost) as (_ & pn' & Hpn' & Hlab & added & Hch').
    { simpl. apply list_lookup_insert_eq. rewrite length_app. simpl. lia. }
    exists ns, parent, pn, pn', added.
    split; [done|]. split; [done|]. split; [done|]. split.
    { rewrite Hlab. apply label_AddChild. }
    rewrite Hch', Hch. by rewrite <- app_assoc.
Qed.

(** C7, as amended.  Character data of which nothing is left once
    trimmed, as of spaces, tabs and newlines only, or of these and
    carriage returns, vertical tabs and form feeds, allocates no node and
    leaves the heap and both stacks as they are, in any state.
    Character data of which something is left and which the tokenizer
    accepts allocates exactly one node, a [DataNode] with the trimmed
    bytes, and makes it the last child of the node on top of the node
    stack; both stacks stay as they are, and the node is there in the
    heap [Parse] returns.  Character data of which something is left and
    which the tokenizer rejects allocates no node: [Parse] returns
    [DataScanError]. *)
Theorem character_data ele :
  (forall s,
     forallb blank ele = true ->
     step (xml.TCharData ele) s
     = Continue {| line := countLines ele (line s); heap := heap s;
                   startElementStack := startElementStack s;
                   nodeStack := nodeStack s |})
  /\ (forall s,
        forallb asciiSpace ele = true ->
        step (xml.TCharData ele) s
        = Continue {| line := countLines ele (line s); heap := heap s;
                      startElementStack := startElementStack s;
                      nodeStack := nodeStack s |})
  /\ (forall s,
        TrimSpace ele = [] ->
        step (xml.TCharData ele) s
        = Continue {| line := countLines ele (line s); heap := heap s;
                      startElementStack := startElementStack s;
                      nodeStack := nodeStack s |})
  /\ (forall l tokens s segs,
        run tokens (initial l) = Continue s ->
        TrimSpace ele <> [] ->
        scan (TrimSpace ele) = inr segs ->
        exists ns parent (pn : Node) s',
          nodeStack s = ns ++ [parent]
          /\ heap s !! parent = Some pn
          /\ step (xml.TCharData ele) s = Continue s'
          /\ heap s'
             = <[parent := AddChild (length (heap s)) pn]>
                 (heap s ++ [dataNodeOf (TrimSpace ele) segs])
          /\ children (AddChild (length (heap s)) pn)
             = children pn ++ [length (heap s)]
          /\ length (heap s') = S (length (heap s))
          /\ startElementStack s' = startElementStack s
          /\ nodeStack s' = nodeStack s)
  /\ (forall p pre post s segs r h,
        xml.pending (d p) = pre ++ xml.TCharData ele :: post ->
        run pre (initial (currentLine p)) = Continue s ->
        TrimSpace ele <> [] ->
        scan (TrimSpace ele) = inr segs ->
        snd (Parse p) = Ok r h ->
        h !! length (heap s) = Some (dataNodeOf (TrimSpace ele) segs)
        /\ exists ns parent (pn pn' : Node) later,
             nodeStack s = ns ++ [parent]
             /\ heap s !! parent = Some pn
             /\ h !! parent = Some pn'
             /\ children pn' = children pn ++ length (heap s) :: later)
  /\ (forall p pre post s err,
        xml.pending (d p) = pre ++ xml.TCharData ele :: post ->
        run pre (initial (currentLine p)) = Continue s ->
        TrimSpace ele <> [] ->
        scan (TrimSpace ele) = inl err ->
        step (xml.TCharData ele) s
        = Fail (countLines ele (line s)) (DataScanError err)
        /\ snd (Parse p) = Error (DataScanError err)).
Proof.
  split; [|split; [|split; [|split; [|split]]]].
  - intros s Hblank. apply step_CharData_blank.
    by apply TrimSpace_asciiSpace, blank_asciiSpace.
  - intros s Hspace. apply step_CharData_blank.
    by apply TrimSpace_asciiSpace.
  - intros s. apply step_CharData_blank.
  - intros l tokens s segs Hrun Hdata Hscan.
    pose proof (run_Inv tokens _ s (Inv_initial l) Hrun) as Hinv.
    destruct (step_CharData_Inv ele s Hinv Hdata)
      as (ns & parent & pn & Hns & Hp & Hch & Hstep).
    rewrite Hscan in Hstep. eexists ns, parent, pn, _.
    split; [done|]. split; [done|]. split; [done|]. simpl.
    split; [done|]. split; [done|]. split; [|done].
    rewrite length_insert, length_app. simpl. lia.
  - intros p pre post s segs r h Hp Hrun Hdata Hscan Hok.
    destruct (Parse_data _ _ _ _ _ _ _ _ Hp Hrun Hdata Hscan Hok)
      as (_ & Hdn & ns & parent & pn & pn' & later & Hns & Hpa & Hpn' & _ & Hch).
    split; [done|]. by exists ns, parent, pn, pn', later.
  - intros p pre post s err Hp Hrun Hdata Hscan.
    pose proof (run_Inv pre _ s (Inv_initial _) Hrun) as Hinv.
    destruct (step_CharData_Inv ele s Hinv Hdata)
      as (ns & parent & pn & _ & _ & _ & Hstep).
    rewrite Hscan in Hstep. split; [done|]. by eapply Parse_Fail.
Qed.

(** C10, as amended.  Character data of which something is left once
    trimmed, handed over while no element is open, does not fail for
    want of an open element: the node stack is [[root]], and when the
    tokenizer accepts the trimmed text the [DataNode] becomes the last
    child of the [RootNode], and is a child of it in the heap [Parse]
    returns.  The one failure there can be is that of the tokenizer:
    [Parse] then returns [DataScanError]. *)
Theorem character_data_at_top_level p pre ele post s :
  xml.pending (d p) = pre ++ xml.TCharData ele :: post ->
  run pre (initial (currentLine p)) = Continue s ->
  startElementStack s = [] ->
  TrimSpace ele <> [] ->
  exists r : Node,
    nodeStack s = [root]
    /\ heap s !! root = Some r
    /\ kind r = RootNode
    /\ children (AddChild (length (heap s)) r) = children r ++ [length (heap s)]
    /\ (forall segs,
          scan (TrimSpace ele) = inr segs ->
          step (xml.TCharData ele) s
          = Continue
              {| line := countLines ele (line s);
                 heap := <[root := AddChild (length (heap s)) r]>
                           (heap s ++ [dataNodeOf (TrimSpace ele) segs]);
                 startElementStack := [];
                 nodeStack := [root] |}
          /\ forall rt h,
               snd (Parse p) = Ok rt h ->
               rt = root
               /\ h !! length (heap s)
                  = Some (dataNodeOf (TrimSpace ele) segs)
               /\ exists (r' : Node) later,
                    h !! root = Some r'
                    /\ kind r' = RootNode
                    /\ children r' = children r ++ length (heap s) :: later)
    /\ (forall err,
          scan (TrimSpace ele) = inl err ->
          step (xml.TCharData ele) s
          = Fail (countLines ele (line s)) (DataScanError err)
          /\ snd (Parse p) = Error (DataScanError err)).
Proof.
  intros Hp Hrun Hes Hdata.
  pose proof (run_Inv pre _ s (Inv_initial _) Hrun) as Hinv.
  assert (Hns : nodeStack s = [root]).
  { destruct Hinv as [Hbal _].
    destruct (Balanced_shape s Hbal) as [[_ Hns]|(es & top & _ & _ & _ & Hes' & _)];
      [done|]. rewrite Hes in Hes'. by destruct es. }
  destruct (step_CharData_Inv ele s Hinv Hdata)
    as (ns & parent & pn & Hns' & Hpa & Hch & Hstep).
  rewrite Hns in Hns'. destruct ns as [|? [|]]; try done.
  injection Hns' as <-.
  pose proof Hinv as [(_ & _ & (r & Hr & Hk)) _].
  rewrite Hr in Hpa. injection Hpa as <-.
  exists r. split; [done|]. split; [done|]. split; [done|]. split; [done|].
  rewrite Hstep, Hes, Hns. split.
  - intros segs Hscan. rewrite Hscan. split; [done|]. intros rt h Hok.
    destruct (Parse_data _ _ _ _ _ _ _ _ Hp Hrun Hdata Hscan Hok)
      as (-> & Hdn & ns & parent & pn & pn' & later & Hns' & Hpa & Hpn' & Hlab
          & Hch').
    rewrite Hns in Hns'. destruct ns as [|? [|]]; try done.
    injection Hns' as <-. rewrite Hr in Hpa. injection Hpa as <-.
    split; [done|]. split; [done|]. exists pn', later.
    split; [done|]. split; [|done].
    change (kind pn') with (kind (label pn')). by rewrite Hlab.
  - intros err Hscan. rewrite Hscan. split; [done|].
    eapply Parse_Fail; [done..|]. by rewrite Hstep, Hscan.
Qed.
End Parse.

(** * Concrete runs *)

(** Where a run is evaluated, the two Unicode-aware functions are the
    ASCII ones: the texts below have no byte outside ASCII. *)
Abbreviation run' := (run TrimASCII TrimRightASCII).
Abbreviation step' := (step TrimASCII TrimRightASCII).
Abbreviation Parse' := (Parse TrimASCII TrimRightASCII).
Abbreviation TrimSpace' := (TrimSpace TrimASCII TrimRightASCII).

(** A goal [l <> []] with [l] closed. *)
Ltac not_nil := let H := fresh in intros H; vm_compute in H; discriminate H.

(** The state after the tokens, evaluated, handed to [tac]. *)
Ltac with_state tokens l tac :=
  let s := eval vm_compute in
             (match run' tokens (initial l) with
              | Continue s => s
              | _ => initial l
              end) in
  tac s.

(** The heap [Parse] returns, evaluated, as the witness of the goal. *)
Ltac returned_heap p :=
  let h := eval vm_compute in
             (match snd (Parse' p) with Ok _ h => h | _ => [] end) in
  exists h.

(** The tree of the end-to-end scenario, and the segments of its text. *)
Example endToEnd_tree :
  exists h,
    snd (Parse' endToEnd) = Ok root h
    /\ treeOf 4 h root
       = Some (T RootNode [T MapperNode [T QueryNode [T DataNode []]]])
    /\ h !! 3%nat
       = Some (dataNodeOf (text "SELECT * FROM t WHERE id = #{id}")
                 [Literal (text "SELECT * FROM t WHERE id = ");
                  Placeholder (text "id") Bind]).
Proof. returned_heap endToEnd. repeat split. Qed.

(** The tree of the dynamic-SQL scenario: the children of [choose] are the
    [when] and the [otherwise], in this order, each with its text. *)
Example dynamicSQL_tree :
  exists h,
    snd (Parse' dynamicSQL) = Ok root h
    /\ treeOf 5 h root
       = Some (T RootNode
                 [T QueryNode
                    [T ChooseNode [T WhenNode [T DataNode []];
                                   T OtherwiseNode [T DataNode []]]]]).
Proof. returned_heap dynamicSQL. split; reflexivity. Qed.

(** The unknown element is not in the tree; what it contains hangs under
    its [EmptyNode], which nothing points to. *)
Example withUnknown_tree :
  exists h,
    snd (Parse' withUnknown) = Ok root h
    /\ treeOf 4 h root = Some (T RootNode [T MapperNode [T QueryNode []]])
    /\ treeOf 4 h 2%nat = Some (T EmptyNode [T QueryNode [T DataNode []]]).
Proof. returned_heap withUnknown. repeat split. Qed.

(** The two branches of [Parse] for tokens that no strict decoder hands
    over: an end element of another name than the open element, and
    [io.EOF] with an element open. *)
Example tag_mismatch :
  snd (Parse' (NewParser {| xml.pending := [startOf "select" []; endOf "update"];
                            xml.final := xml.EOF |}))
  = Error (TagMismatch "select" "update").
Proof. reflexivity. Qed.

Example unterminated_element :
  snd (Parse' (NewParser {| xml.pending := [startOf "mapper" []; startOf "select" []];
                            xml.final := xml.EOF |}))
  = Error (UnterminatedElement "select").
Proof. reflexivity. Qed.

(** The examples of the tokenizer in section 8 of the specification, and
    two adjacent placeholders. *)
Example scan_literal_only :
  ast.scan (list_byte_of_string "SELECT * FROM t")
  = inr [ast.Literal (list_byte_of_string "SELECT * FROM t")].
Proof. reflexivity. Qed.

Example scan_placeholder_extraction :
  ast.scan (list_byte_of_string "WHERE id = #{id}")
  = inr [ast.Literal (list_byte_of_string "WHERE id = ");
         ast.Placeholder (list_byte_of_string "id") ast.Bind].
Proof. reflexivity. Qed.

Example scan_dollar_style :
  ast.scan (list_byte_of_string "ORDER BY ${col}")
  = inr [ast.Literal (list_byte_of_string "ORDER BY ");
         ast.Placeholder (list_byte_of_string "col") ast.Substitution].
Proof. reflexivity. Qed.

Example scan_unterminated :
  ast.scan (list_byte_of_string "x = #{id") = inl ast.UnterminatedPlaceholder.
Proof. reflexivity. Qed.

Example scan_adjacent :
  ast.scan (list_byte_of_string "#{a}${b}")
  = inr [ast.Placeholder (list_byte_of_string "a") ast.Bind;
         ast.Placeholder (list_byte_of_string "b") ast.Substitution].
Proof. reflexivity. Qed.

(** * Witnesses

    Each theorem above that has hypotheses is applied here to a concrete
    run, where its hypotheses hold by evaluation. *)

(** C1 on a [mapper], a [select] in it and text in the [select]. *)
Lemma balance_invariant_witness :
  exists s,
    run' mapperSelectText (initial 0) = Continue s
    /\ len (nodeStack s) = len (startElementStack s) + 1
    /\ index (nodeStack s) 0 = Some root
    /\ exists n, heap s !! root = Some n /\ kind n = RootNode.
Proof.
  with_state mapperSelectText 0 ltac:(fun s =>
    exists s; split; [reflexivity|];
    apply (balance_invariant TrimASCII TrimRightASCII 0 mapperSelectText s);
    reflexivity).
Defined.



(** C5 on two examples of the specification. *)
Lemma scan_segments_witness :
  scan (text "WHERE id = #{id}")
  = inr [Literal (text "WHERE id = "); Placeholder (text "id") Bind]
  /\ scan (text "SELECT * FROM t") = inr [Literal (text "SELECT * FROM t")].
Proof.
  destruct scan_segments as (Hopener & _ & _ & Hplain & _). split.
  - exact (Hopener (text "WHERE id = ") Bind (text "id") [] eq_refl eq_refl).
  - apply Hplain; [reflexivity|discriminate].
Defined.

(** C6 on the text [x = #{id], alone and in a [select]. *)
Lemma unterminated_placeholder_aborts_witness :
  scan (text "x = #{id") = inl UnterminatedPlaceholder
  /\ step' (xml.TCharData (text "x = #{id")) (initial 0)
     = Fail 0 (DataScanError UnterminatedPlaceholder)
  /\ snd (Parse' (NewParser
                    {| xml.pending := [startOf "select" [];
                                       xml.TCharData (text "x = #{id");
                                       endOf "select"];
                       xml.final := xml.EOF |}))
     = Error (DataScanError UnterminatedPlaceholder).
Proof.
  destruct (unterminated_placeholder_aborts TrimASCII TrimRightASCII)
    as (Hscan & Hstep & Hparse).
  split; [|split].
  - exact (Hscan (text "x = ") [Literal (text "x = ")] Bind (text "id")
             eq_refl eq_refl).
  - apply (Hstep (text "x = #{id") (initial 0)). reflexivity.
  - with_state [startOf "select" []] 0 ltac:(fun s =>
      apply (Hparse _ [startOf "select" []] (text "x = #{id") [endOf "select"] s);
      reflexivity).
Defined.

(** C7 on a blank chunk, on a carriage return with a vertical tab and a
    form feed, on a carriage return, on text between newlines in a
    [select], and on text the tokenizer rejects. *)
Lemma character_data_witness :
  step' (xml.TCharData [x20; x0a; x09; x20]) (initial 0)
  = Continue {| line := 1; heap := [NewRootNode];
                startElementStack := []; nodeStack := [root] |}
  /\ step' (xml.TCharData [x0d; x0b; x0c]) (initial 0)
     = Continue {| line := 0; heap := [NewRootNode];
                   startElementStack := []; nodeStack := [root] |}
  /\ step' (xml.TCharData [x0d]) (initial 0)
     = Continue {| line := 0; heap := [NewRootNode];
                   startElementStack := []; nodeStack := [root] |}
  /\ (exists s s',
        run' [startOf "select" []] (initial 0) = Continue s
        /\ step' (xml.TCharData ([x20; x0a] ++ text "SELECT 1" ++ [x0a])) s
           = Continue s'
        /\ length (heap s') = 3%nat
        /\ nodeStack s' = nodeStack s)
  /\ (exists h (pn' : Node) later,
        snd (Parse' (document
                       [startOf "select" [];
                        xml.TCharData ([x20; x0a] ++ text "SELECT 1" ++ [x0a]);
                        endOf "select"]))
        = Ok root h
        /\ h !! 2%nat
           = Some (dataNodeOf (text "SELECT 1") [Literal (text "SELECT 1")])
        /\ h !! 1%nat = Some pn'
        /\ children pn' = [] ++ 2%nat :: later)
  /\ snd (Parse' (document [startOf "select" []; xml.TCharData (text "#{id");
                            endOf "select"]))
     = Error (DataScanError UnterminatedPlaceholder).
Proof.
  split; [|split; [|split; [|split; [|split]]]].
  - destruct (character_data TrimASCII TrimRightASCII [x20; x0a; x09; x20])
      as [H _].
    exact (H (initial 0) eq_refl).
  - destruct (character_data TrimASCII TrimRightASCII [x0d; x0b; x0c])
      as (_ & H & _).
    exact (H (initial 0) eq_refl).
  - destruct (character_data TrimASCII TrimRightASCII [x0d]) as (_ & _ & H & _).
    exact (H (initial 0) eq_refl).
  - with_state [startOf "select" []] 0 ltac:(fun s =>
      exists s;
      destruct (character_data TrimASCII TrimRightASCII
                  ([x20; x0a] ++ text "SELECT 1" ++ [x0a]))
        as (_ & _ & _ & H & _);
      destruct (H 0 [startOf "select" []] s [Literal (text "SELECT 1")] eq_refl)
        as (ns & parent & pn & s' & _ & _ & Hstep & _ & _ & Hlen & _ & Hns);
      [not_nil|reflexivity|];
      exists s'; split; [reflexivity|]; split; [exact Hstep|];
      split; [exact Hlen|exact Hns]).
  - with_state [startOf "select" []] 0 ltac:(fun s =>
      returned_heap
        (document [startOf "select" [];
                   xml.TCharData ([x20; x0a] ++ text "SELECT 1" ++ [x0a]);
                   endOf "select"]);
      destruct (character_data TrimASCII TrimRightASCII
                  ([x20; x0a] ++ text "SELECT 1" ++ [x0a]))
        as (_ & _ & _ & _ & H & _);
      match goal with |- exists _ _, _ = Ok _ ?h /\ _ =>
        destruct (H (document
                       [startOf "select" [];
                        xml.TCharData ([x20; x0a] ++ text "SELECT 1" ++ [x0a]);
                        endOf "select"])
                    [startOf "select" []] [endOf "select"] s
                    [Literal (text "SELECT 1")] root h eq_refl eq_refl)
          as (Hdn & ns & parent & pn & pn' & later & Hns & Hpn & Hpn' & Hch);
        [not_nil|reflexivity|reflexivity|]
      end;
      change (nodeStack s) with ([0] ++ [1])%nat in Hns;
      apply app_inj_tail in Hns as [_ <-];
      injection Hpn as <-;
      exists pn', later;
      split; [reflexivity|]; split; [exact Hdn|];
      split; [exact Hpn'|exact Hch]).
  - with_state [startOf "select" []] 0 ltac:(fun s =>
      destruct (character_data TrimASCII TrimRightASCII (text "#{id"))
        as (_ & _ & _ & _ & _ & H);
      destruct (H (document [startOf "select" []; xml.TCharData (text "#{id");
                             endOf "select"])
                  [startOf "select" []] [endOf "select"] s
                  UnterminatedPlaceholder eq_refl eq_refl)
        as [_ Hparse]; [not_nil|reflexivity|exact Hparse]).
Defined.

(** C8 on a start element, and on character data and a comment with
    newlines. *)
Lemma line_counter_witness :
  lineOf (step' (startOf "select" []) (initial 7)) = 7
  /\ 0 <= lineOf (run' [xml.TCharData [x0a; x61; x0a]] (initial 0))
       <= lineOf (run' [xml.TCharData [x0a; x61; x0a]; xml.TComment [x0a]]
                       (initial 0))
  /\ 0 <= currentLine
            (fst (Parse' (NewParser {| xml.pending := [xml.TComment [x0a]];
                                       xml.final := xml.EOF |})))
  /\ lineOf (run' ([xml.TComment [x0a]] ++ [xml.TCharData [x0a; x0a]]) (initial 0))
     = currentLine
         (fst (Parse' (NewParser
                         {| xml.pending := [xml.TComment [x0a];
                                            xml.TCharData [x0a; x0a]];
                            xml.final := xml.EOF |}))).
Proof.
  destruct (line_counter TrimASCII TrimRightASCII)
    as (_ & Hother & Hmono & Hparse & Hreal).
  split; [|split; [|split]].
  - apply (Hother (startOf "select" []) (initial 7)). intros ele. split; discriminate.
  - destruct (Hmono [xml.TCharData [x0a; x61; x0a]] [xml.TComment [x0a]] (initial 0))
      as [H _]; [reflexivity|reflexivity|exact H].
  - apply (Hparse (NewParser {| xml.pending := [xml.TComment [x0a]];
                                xml.final := xml.EOF |})); reflexivity.
  - destruct (Hreal {| xml.pending := [xml.TComment [x0a]; xml.TCharData [x0a; x0a]];
                       xml.final := xml.EOF |}
                [xml.TComment [x0a]] [xml.TCharData [x0a; x0a]])
      as [_ H]; [discriminate|reflexivity|exact H].
Defined.

(** C9 in the state in which the loop is entered. *)
Lemma node_stack_never_empty_witness :
  nodeStack (initial 0) <> []
  /\ step' (xml.TCharData (text "x")) (initial 0)
     <> Fail 0 NodeStackEmpty.
Proof.
  destruct (node_stack_never_empty TrimASCII TrimRightASCII
              (NewParser {| xml.pending := []; xml.final := xml.EOF |}))
    as (_ & _ & H).
  destruct (H [] (initial 0) eq_refl) as (_ & Hne & Hfail).
  split; [exact Hne|apply Hfail].
Defined.

(** C10 on the document that is the text [hello], and on the text [${]
    before any element. *)
Lemma character_data_at_top_level_witness :
  (exists (r : Node) h (r' : Node) later,
     heap (initial 0) !! root = Some r
     /\ kind r = RootNode
     /\ step' (xml.TCharData (text "hello")) (initial 0)
        = Continue
            {| line := 0;
               heap := <[root := AddChild 1%nat r]>
                         ([NewRootNode] ++
                          [dataNodeOf (text "hello") [Literal (text "hello")]]);
               startElementStack := [];
               nodeStack := [root] |}
     /\ snd (Parse' (document [xml.TCharData (text "hello")])) = Ok root h
     /\ h !! 1%nat = Some (dataNodeOf (text "hello") [Literal (text "hello")])
     /\ h !! root = Some r'
     /\ kind r' = RootNode
     /\ children r' = children r ++ 1%nat :: later)
  /\ snd (Parse' (document [xml.TCharData (text "${")]))
     = Error (DataScanError UnterminatedPlaceholder).
Proof.
  split.
  - destruct (character_data_at_top_level TrimASCII TrimRightASCII
                (document [xml.TCharData (text "hello")])
                [] (text "hello") [] (initial 0) eq_refl eq_refl eq_refl)
      as (r & _ & Hr & Hk & _ & Hok & _); [not_nil|].
    destruct (Hok [Literal (text "hello")] eq_refl) as [Hstep Hparse].
    exists r.
    returned_heap (document [xml.TCharData (text "hello")]).
    match goal with |- exists _ _, _ /\ _ /\ _ /\ _ = Ok _ ?h /\ _ =>
      destruct (Hparse root h eq_refl)
        as (_ & Hdn & r' & later & Hr' & Hk' & Hch)
    end.
    exists r', later.
    split; [exact Hr|]. split; [exact Hk|]. split; [exact Hstep|].
    split; [reflexivity|]. split; [exact Hdn|]. split; [exact Hr'|].
    split; [exact Hk'|exact Hch].
  - destruct (character_data_at_top_level TrimASCII TrimRightASCII
                (document [xml.TCharData (text "${")])
                [] (text "${") [] (initial 0) eq_refl eq_refl eq_refl)
      as (r & _ & _ & _ & _ & _ & Hfail); [not_nil|].
    destruct (Hfail UnterminatedPlaceholder eq_refl) as [_ Hparse].
    exact Hparse.
Defined.

(** C2 on [<mapper><foo><select>x</select></foo><delete></delete></mapper>]:
    the node of [foo] is at address 2, that of the [select] in it at 3,
    that of the text at 4. *)
Lemma unknown_elements_are_pruned_witness :
  exists h,
    snd (Parse' withUnknown) = Ok root h
    /\ ~ reachable h root 2%nat
    /\ ~ reachable h root 3%nat
    /\ ~ reachable h root 4%nat.
Proof.
  returned_heap withUnknown. split; [reflexivity|].
  match goal with |- ~ reachable ?h _ _ /\ _ =>
    destruct (unknown_elements_are_pruned TrimASCII TrimRightASCII withUnknown
                [startOf "mapper" []] (startElement "foo" [])
                [startOf "select" []; xml.TCharData (text "x"); endOf "select";
                 endOf "foo"; startOf "delete" []; endOf "delete"; endOf "mapper"]
                root h eq_refl eq_refl eq_refl)
      as (s & s1 & Hpre & Hstep & _ & _ & _ & Hself & Hnested & _ & _)
  end.
  vm_compute in Hpre. injection Hpre as <-.
  vm_compute in Hstep. injection Hstep as <-.
  split; [exact Hself|]. split.
  - with_state [startOf "mapper" []; startOf "foo" []] 0
      ltac:(fun smid =>
    with_state [startOf "mapper" []; startOf "foo" []; startOf "select" []] 0
      ltac:(fun smid' =>
        apply (Hnested [] (startOf "select" [])
                 [xml.TCharData (text "x"); endOf "select"; endOf "foo";
                  startOf "delete" []; endOf "delete"; endOf "mapper"]
                 smid smid' 3%nat);
        [reflexivity|reflexivity| |reflexivity|simpl; lia])).
    apply list_elem_of_In. simpl. auto.
  - with_state [startOf "mapper" []; startOf "foo" []; startOf "select" []] 0
      ltac:(fun smid =>
    with_state [startOf "mapper" []; startOf "foo" []; startOf "select" [];
                xml.TCharData (text "x")] 0
      ltac:(fun smid' =>
        apply (Hnested [startOf "select" []] (xml.TCharData (text "x"))
                 [endOf "select"; endOf "foo"; startOf "delete" [];
                  endOf "delete"; endOf "mapper"]
                 smid smid' 4%nat);
        [reflexivity|reflexivity| |reflexivity|simpl; lia])).
    apply list_elem_of_In. simpl. auto.
Defined.

(** * Counterexamples *)



(** C7, as the claim has it, fails on character data that the tokenizer
    rejects: the text [#{id] in a [select] is not blank, yet the
    iteration returns a [DataScanError], and so does [Parse]; no node
    becomes a child of the [select].  It fails as well on a carriage
    return, which is none of the spaces, tabs and newlines the claim
    counts as white space, and of which nothing is left once trimmed:
    the iteration allocates no node, and [Parse] returns what it returns
    without the chunk. *)
Lemma character_data_without_data_node :
  (TrimSpace' (text "#{id") = text "#{id"
   /\ run' [startOf "select" []; xml.TCharData (text "#{id")] (initial 0)
      = Fail 0 (DataScanError UnterminatedPlaceholder)
   /\ snd (Parse' (document [startOf "select" []; xml.TCharData (text "#{id");
                             endOf "select"]))
      = Error (DataScanError UnterminatedPlaceholder))
  /\ (forallb blank [x0d] = false
      /\ run' [startOf "select" []; xml.TCharData [x0d]] (initial 0)
         = run' [startOf "select" []] (initial 0)
      /\ snd (Parse' (document [startOf "select" []; xml.TCharData [x0d];
                                endOf "select"]))
         = snd (Parse' (document [startOf "select" []; endOf "select"]))).
Proof. repeat split. Qed.

(** C10, as the claim has it, fails on character data that the tokenizer
    rejects: with no element open, the text [${] is not blank and makes
    the iteration, and [Parse], return a [DataScanError].  It fails as
    well on a carriage return, which is none of the spaces, tabs and
    newlines the specification counts as white space: nothing is left of
    it once trimmed, and the [RootNode] gets no child. *)
Lemma top_level_character_data_without_data_node :
  (startElementStack (initial 0) = []
   /\ TrimSpace' (text "${") = text "${"
   /\ step' (xml.TCharData (text "${")) (initial 0)
      = Fail 0 (DataScanError UnterminatedPlaceholder)
   /\ snd (Parse' (document [xml.TCharData (text "${")]))
      = Error (DataScanError UnterminatedPlaceholder))
  /\ (forallb blank [x0d] = false
      /\ snd (Parse' (document [xml.TCharData [x0d]]))
         = Ok root [NewRootNode]
      /\ children NewRootNode = []).
Proof. repeat split. Qed.

(** * Further concrete runs

    The properties of the loop as a whole, each applied to a concrete
    run. *)

Abbreviation Nested' := (Nested TrimASCII TrimRightASCII).
Abbreviation Open' := (Open TrimASCII TrimRightASCII).
Abbreviation Rejected' := (Rejected TrimASCII TrimRightASCII).
Abbreviation Forest' := (Forest TrimASCII TrimRightASCII).
Abbreviation Origin' := (Origin TrimASCII TrimRightASCII).
Abbreviation blankChunk' := (blankChunk TrimASCII TrimRightASCII).
Abbreviation significant' := (significant TrimASCII TrimRightASCII).
Abbreviation allocates' := (allocates TrimASCII TrimRightASCII).

(** X1 on [<mapper><select>SELECT 1]: the two elements are open. *)
Lemma element_stack_is_open_elements_witness :
  Open' [startElement "mapper" []; startElement "select" []] mapperSelectText.
Proof.
  with_state mapperSelectText 0 ltac:(fun s =>
    apply (element_stack_is_open_elements TrimASCII TrimRightASCII 0);
    exists s; split; reflexivity).
Defined.

(** X2 on the end-to-end scenario, which is well nested. *)
Lemma accepts_well_nested_witness :
  exists r h, snd (Parse' endToEnd) = Ok r h.
Proof.
  apply (accepts_well_nested TrimASCII TrimRightASCII endToEnd).
  split; [reflexivity|].
  apply (Nested_element _ _
           (startElement "mapper" [attr "namespace" "m"])
           [startOf "select" [attr "id" "s"];
            xml.TCharData (text "SELECT * FROM t WHERE id = #{id}");
            endOf "select"]
           (endElement "mapper") []); [reflexivity| |apply Nested_nil].
  apply (Nested_element _ _
           (startElement "select" [attr "id" "s"])
           [xml.TCharData (text "SELECT * FROM t WHERE id = #{id}")]
           (endElement "select") []); [reflexivity| |apply Nested_nil].
  apply Nested_leaf; [reflexivity|apply Nested_nil].
Defined.

(** X3 on [<select></update>]: the end element has another name than
    the open element. *)
Lemma errors_tell_the_document_witness :
  snd (Parse' (NewParser {| xml.pending := [startOf "select" []; endOf "update"];
                            xml.final := xml.EOF |}))
  = Error (TagMismatch "select" "update").
Proof.
  apply (errors_tell_the_document TrimASCII TrimRightASCII).
  apply (Rejected_mismatch _ _ _ _ [] (startElement "select" [])
           [startOf "select" []] (endElement "update") []);
    [reflexivity| |discriminate].
  apply (Open_element _ _ [] [] (startElement "select" []) []).
  - apply Open_nil, Nested_nil.
  - apply Nested_nil.
Defined.

(** X4 on the scenario with an unknown element. *)
Lemma returned_heap_is_a_forest_witness :
  exists h,
    snd (Parse' withUnknown) = Ok root h
    /\ (forall y c, childOf h y c -> (y < c < length h)%nat)
    /\ (forall y, ~ childOf h y root).
Proof.
  returned_heap withUnknown. split; [reflexivity|].
  match goal with |- (forall y c, childOf ?h _ _ -> _) /\ _ =>
    destruct (returned_heap_is_a_forest TrimASCII TrimRightASCII withUnknown
                root h eq_refl) as (H1 & _ & _ & H4 & _)
  end.
  split; [exact H1|exact H4].
Defined.

(** X5 on [<mapper><select>], then [SELECT 1</select></mapper>]: three
    nodes, then four. *)
Lemma nodes_are_only_added_witness :
  exists s1 s2,
    run' [startOf "mapper" []; startOf "select" []] (initial 0) = Continue s1
    /\ run' [xml.TCharData (text "SELECT 1"); endOf "select"; endOf "mapper"] s1
       = Continue s2
    /\ length (heap s1) = 3%nat
    /\ length (heap s2) = 4%nat.
Proof.
  with_state [startOf "mapper" []; startOf "select" []] 0 ltac:(fun s1 =>
  with_state [startOf "mapper" []; startOf "select" [];
              xml.TCharData (text "SELECT 1"); endOf "select"; endOf "mapper"] 0
    ltac:(fun s2 =>
      exists s1, s2; split; [reflexivity|]; split; [reflexivity|];
      destruct (nodes_are_only_added TrimASCII TrimRightASCII 0
                  [startOf "mapper" []; startOf "select" []]
                  [xml.TCharData (text "SELECT 1"); endOf "select";
                   endOf "mapper"] s1 s2 eq_refl eq_refl)
        as (H2 & H1 & _);
      split; [exact H1|exact H2])).
Defined.

(** X6 on the end-to-end scenario: the node at address 3 is the
    [DataNode] of the text. *)
Lemma every_node_has_an_origin_witness :
  exists h (n : Node),
    snd (Parse' endToEnd) = Ok root h
    /\ h !! 3%nat = Some n
    /\ Origin' (xml.pending (d endToEnd)) 3%nat n
    /\ (kind n = DataNode ->
        children n = [] /\ data n <> []
        /\ scan (data n) = inr (segments n)).
Proof.
  returned_heap endToEnd.
  exists (dataNodeOf (text "SELECT * FROM t WHERE id = #{id}")
            [Literal (text "SELECT * FROM t WHERE id = ");
             Placeholder (text "id") Bind]).
  split; [reflexivity|]. split; [reflexivity|].
  match goal with |- Origin' _ _ ?n /\ _ =>
    let h := eval vm_compute in
               (match snd (Parse' endToEnd) with Ok _ h => h | _ => [] end) in
    destruct (every_node_has_an_origin TrimASCII TrimRightASCII endToEnd
                root h 3%nat n eq_refl eq_refl) as (Ho & _ & Hd & _)
  end.
  split; [exact Ho|exact Hd].
Defined.

(** X7 on [<mapper><select>]: the node on top is that of the
    [select]. *)
Lemma stacks_are_aligned_witness :
  exists s ns a (n : Node),
    run' [startOf "mapper" []; startOf "select" []] (initial 0) = Continue s
    /\ nodeStack s = ns ++ [a]
    /\ heap s !! a = Some n
    /\ kind n = QueryNode.
Proof.
  with_state [startOf "mapper" []; startOf "select" []] 0 ltac:(fun s =>
    destruct (stacks_are_aligned TrimASCII TrimRightASCII 0
                [startOf "mapper" []; startOf "select" []] s eq_refl)
      as [_ H];
    destruct (H [startElement "mapper" []] (startElement "select" []) eq_refl)
      as (ns & a & n & Hns & Hn & Hk & _);
    exists s, ns, a, n; split; [reflexivity|]; split; [exact Hns|];
    split; [exact Hn|exact Hk]).
Defined.


(** X9 on the end-to-end scenario. *)
Lemma Parse_builds_the_recursive_reading_witness :
  exists h,
    snd (Parse' endToEnd) = Ok root h
    /\ treeAt h root
       = Some (L NewRootNode
                 [L (newNodeByStartElement
                       (startElement "mapper" [attr "namespace" "m"]))
                    [L (newNodeByStartElement
                          (startElement "select" [attr "id" "s"]))
                       [L (dataNodeOf (text "SELECT * FROM t WHERE id = #{id}")
                             [Literal (text "SELECT * FROM t WHERE id = ");
                              Placeholder (text "id") Bind]) []]]]).
Proof.
  destruct (Parse_builds_the_recursive_reading TrimASCII TrimRightASCII endToEnd)
    as [H _].
  apply H; [reflexivity|].
  apply (Forest_known _ _
           (startElement "mapper" [attr "namespace" "m"])
           [startOf "select" [attr "id" "s"];
            xml.TCharData (text "SELECT * FROM t WHERE id = #{id}");
            endOf "select"]
           (endElement "mapper") []); [reflexivity|reflexivity| |apply Forest_nil].
  apply (Forest_known _ _
           (startElement "select" [attr "id" "s"])
           [xml.TCharData (text "SELECT * FROM t WHERE id = #{id}")]
           (endElement "select") []); [reflexivity|reflexivity| |apply Forest_nil].
  apply (Forest_text _ _ (text "SELECT * FROM t WHERE id = #{id}"));
    [reflexivity|reflexivity|apply Forest_nil].
Defined.

(** X10 on [<select>X</select>] and [<delete></delete>]. *)
Lemma documents_concatenate_witness :
  exists h,
    snd (Parse' (NewParser
                   {| xml.pending := [startOf "select" [];
                                      xml.TCharData (text "X");
                                      endOf "select";
                                      startOf "delete" []; endOf "delete"];
                      xml.final := xml.EOF |}))
    = Ok root h
    /\ treeAt h root
       = Some (L NewRootNode
                 ([L (newNodeByStartElement (startElement "select" []))
                     [L (dataNodeOf (text "X") [Literal (text "X")]) []]]
                  ++ [L (newNodeByStartElement (startElement "delete" [])) []])).
Proof.
  pose (p1 := NewParser {| xml.pending := [startOf "select" [];
                                           xml.TCharData (text "X");
                                           endOf "select"];
                           xml.final := xml.EOF |}).
  pose (p2 := NewParser {| xml.pending := [startOf "delete" []; endOf "delete"];
                           xml.final := xml.EOF |}).
  let h1 := eval vm_compute in
              (match snd (Parse' p1) with Ok _ h => h | _ => [] end) in
  let h2 := eval vm_compute in
              (match snd (Parse' p2) with Ok _ h => h | _ => [] end) in
  apply (documents_concatenate TrimASCII TrimRightASCII p1 p2 _ h1 h2);
    reflexivity.
Defined.

(** X12 on [<select></update><if>]: the decoder is left with [<if>]. *)
Lemma Parse_leaves_the_decoder_witness :
  xml.pending
    (d (fst (Parse' (NewParser {| xml.pending := [startOf "select" [];
                                                  endOf "update";
                                                  startOf "if" []];
                                  xml.final := xml.EOF |}))))
  = [startOf "if" []].
Proof.
  destruct (Parse_leaves_the_decoder TrimASCII TrimRightASCII
              (NewParser {| xml.pending := [startOf "select" [];
                                            endOf "update"; startOf "if" []];
                            xml.final := xml.EOF |})) as (_ & H & _).
  with_state [startOf "select" []] 0 ltac:(fun s =>
    destruct (H [startOf "select" []] (endOf "update") [startOf "if" []] s 0
                (TagMismatch "select" "update") eq_refl eq_refl eq_refl)
      as [Hfst _]).
  rewrite Hfst. reflexivity.
Defined.

(** X13 on a counter that stands at 2^64 - 1 and a comment of one line
    feed: the counter is 0 after [Parse]. *)
Lemma line_counter_wraps_around_witness :
  currentLine
    (fst (Parse' {| d := {| xml.pending := [xml.TComment [x0a]];
                            xml.final := xml.EOF |};
                    buf := []; cursor := 0;
                    currentLine := uint_modulus - 1 |}))
  = 0.
Proof.
  apply (line_counter_wraps_around TrimASCII TrimRightASCII
           {| d := {| xml.pending := [xml.TComment [x0a]];
                      xml.final := xml.EOF |};
              buf := []; cursor := 0; currentLine := uint_modulus - 1 |}
           [xml.TComment [x0a]]).
  - split; [intros H; vm_compute in H; discriminate H|reflexivity].
  - reflexivity.
Defined.

(** X14 on a chunk of a carriage return, a vertical tab and a form
    feed. *)
Lemma white_space_of_ASCII_chunks_witness :
  blankChunk' [x0d; x0b; x0c] = true
  /\ step' (xml.TCharData [x0d; x0b; x0c]) (initial 0) = Continue (initial 0).
Proof.
  destruct (white_space_of_ASCII_chunks TrimASCII TrimRightASCII
              [x0d; x0b; x0c] eq_refl) as (Hblank & _ & _ & _ & Hstep).
  split; [by apply Hblank|]. by apply (Hstep (initial 0)).
Defined.

(** X15 on [<mapper><select>SELECT 1], then [</select></mapper>]: the
    [DataNode] of the text, at address 3, is the same after as before. *)
Lemma closed_nodes_are_final_witness :
  exists s1 s2 (n : Node),
    run' mapperSelectText (initial 0) = Continue s1
    /\ run' [endOf "select"; endOf "mapper"] s1 = Continue s2
    /\ heap s1 !! 3%nat = Some n
    /\ heap s2 !! 3%nat = Some n.
Proof.
  with_state mapperSelectText 0 ltac:(fun s1 =>
  with_state (mapperSelectText ++ [endOf "select"; endOf "mapper"]) 0
    ltac:(fun s2 =>
      exists s1, s2, (dataNodeOf (text "SELECT 1") [Literal (text "SELECT 1")]);
      split; [reflexivity|]; split; [reflexivity|]; split; [reflexivity|];
      apply (closed_nodes_are_final TrimASCII TrimRightASCII 0
               mapperSelectText [endOf "select"; endOf "mapper"] s1 s2 3%nat
               (dataNodeOf (text "SELECT 1") [Literal (text "SELECT 1")])
               eq_refl eq_refl eq_refl);
      right; reflexivity)).
Defined.

